(** * Finetuner documentation repository

    A verification development for the tutorial notebooks, the run-job
    walkthrough and the CI workflows of the repository.  Every program text
    that the repository owns (notebook cells, Python snippets, workflow
    jobs and their shell pipelines) is embedded as Rocq definitions; the
    hosted Finetuner service and third-party GitHub actions appear only as
    parameters or as models that are marked as such. *)

From Stdlib Require Import ZArith List String Ascii Bool Lia.
From stdpp Require Import base option list strings gmap sorting.

Local Open Scope Z_scope.
Set Warnings "-register-all".

(** ** Run status lifecycle (docs/walkthrough/run-job.md) *)

Module RunLifecycle.

(** The four statuses listed by the walkthrough. *)
Inductive status : Type := CREATED | STARTED | FINISHED | FAILED.

#[global] Instance status_eq_dec : EqDecision status.
Proof. solve_decision. Defined.

(** Modelled from the spec: the [Run] class and the job queue behind
    [run.status()] are not part of the sources; the data model gives the
    lifecycle as [CREATED -> STARTED -> FINISHED | FAILED], and the
    walkthrough prints [CREATED] right after [finetuner.fit]. *)
Definition initial_status : status := CREATED.

(** Modelled from the spec: the successors of a status in the lifecycle
    [CREATED -> STARTED -> FINISHED | FAILED]. *)
Definition successors (s : status) : list status :=
  match s with
  | CREATED => [STARTED]
  | STARTED => [FINISHED; FAILED]
  | FINISHED => []
  | FAILED => []
  end.

Definition step (s s' : status) : Prop := In s' (successors s).

Definition terminal (s : status) : bool :=
  match s with
  | FINISHED | FAILED => true
  | _ => false
  end.

(** The statuses a run has gone through since its creation, oldest first. *)
Inductive history : list status -> Prop :=
| history_created : history [initial_status]
| history_step h s s' :
    history (h ++ [s]) -> step s s' -> history (h ++ [s; s']).

(** The two complete lifecycles. *)
Definition lifecycles : list (list status) :=
  [[CREATED; STARTED; FINISHED]; [CREATED; STARTED; FAILED]].

Example history_failed : history [CREATED; STARTED; FAILED].
Proof.
  apply (history_step [CREATED] STARTED FAILED); [|right; by left].
  apply (history_step [] CREATED STARTED); [constructor|by left].
Qed.

Lemma history_nonempty h : history h -> h <> [].
Proof. destruct 1; [discriminate | by destruct h]. Qed.

Lemma history_prefix h :
  history h -> exists l, In l lifecycles /\ h `prefix_of` l.
Proof.
  induction 1 as [|h s s' Hh IH Hstep].
  - exists [CREATED; STARTED; FINISHED]. split; [by left|].
    by exists [STARTED; FINISHED].
  - destruct IH as (l & Hl & [k Hk]).
    unfold lifecycles in Hl. simpl in Hl.
    destruct Hl as [<- | [<- | []]];
      destruct h as [|a [|b [|c h]]]; simplify_eq/=;
      try (by destruct h; simplify_eq/=);
      unfold step in Hstep; simpl in Hstep;
      repeat match goal with H : _ \/ _ |- _ => destruct H end;
      subst; try done.
    + exists [CREATED; STARTED; FINISHED]. split; [by left|].
      by exists [FINISHED].
    + exists [CREATED; STARTED; FINISHED]. split; [by left|]. by exists [].
    + exists [CREATED; STARTED; FAILED]. split; [right; by left|]. by exists [].
    + exists [CREATED; STARTED; FINISHED]. split; [by left|].
      by exists [FINISHED].
    + exists [CREATED; STARTED; FINISHED]. split; [by left|]. by exists [].
    + exists [CREATED; STARTED; FAILED]. split; [right; by left|]. by exists [].
Qed.

(** C1: a run starts in CREATED; CREATED only moves to STARTED; STARTED only
    moves to FINISHED or FAILED; FINISHED and FAILED have no successor; hence
    every status history of a run is a prefix of CREATED, STARTED, FINISHED
    or of CREATED, STARTED, FAILED, and never holds both terminal statuses. *)
Theorem run_status_lifecycle :
  initial_status = CREATED
  /\ (forall s, step CREATED s <-> s = STARTED)
  /\ (forall s, step STARTED s <-> s = FINISHED \/ s = FAILED)
  /\ (forall s s', terminal s = true -> ~ step s s')
  /\ (forall h, history h ->
        exists l, In l lifecycles /\ h `prefix_of` l)
  /\ (forall h, history h -> ~ (In FINISHED h /\ In FAILED h)).
Proof.
  split; [reflexivity|].
  split; [intros s; unfold step; simpl; intuition congruence|].
  split; [intros s; unfold step; simpl; intuition congruence|].
  split; [intros [] s'; unfold step; simpl; intuition congruence|].
  split; [apply history_prefix|].
  intros h Hh [Hfin Hfail].
  destruct (history_prefix h Hh) as (l & Hl & [k Hk]).
  assert (Hin : forall x, In x h -> In x l)
    by (intros x Hx; rewrite Hk; apply in_or_app; by left).
  apply Hin in Hfin. apply Hin in Hfail.
  unfold lifecycles in Hl; simpl in Hl.
  destruct Hl as [<- | [<- | []]]; simpl in Hfin, Hfail;
    intuition congruence.
Qed.

End RunLifecycle.

(** ** Documents and document arrays, as the notebooks use them *)

Module DocArray.

(** A document: the fields of docarray's [Document] that the notebooks read
    or write.  [F] is the type of the scalars of an embedding. *)
Inductive Document (F : Type) : Type :=
  mkDocument {
    text : string;
    uri : string;
    embedding : option (list F);
    matches : list (Document F)
  }.

Arguments mkDocument {F} _ _ _ _.
Arguments text {F} _.
Arguments uri {F} _.
Arguments embedding {F} _.
Arguments matches {F} _.

(** [DocumentArray([...])] is a list of documents. *)
Definition DocumentArray (F : Type) : Type := list (Document F).

(** [Document(text=...)] and [Document(uri=...)]. *)
Definition text_document {F} (t : string) : Document F :=
  mkDocument t EmptyString None [].

Definition uri_document {F} (u : string) : Document F :=
  mkDocument EmptyString u None [].

Definition set_embedding {F} (d : Document F) (e : list F) : Document F :=
  mkDocument (text d) (uri d) (Some e) (matches d).

(** [da.embeddings]: the embeddings stacked row by row, when every document
    of a non-empty array has one. *)
Definition embeddings {F} (da : DocumentArray F) : option (list (list F)) :=
  match da with
  | [] => None
  | _ => mapM embedding da
  end.

(** [.shape] of a stacked two-dimensional array. *)
Definition shape {F} (rows : list (list F)) : nat * nat :=
  (length rows, match rows with [] => 0%nat | r :: _ => length r end).

(** Modelled from the spec: an inference model loaded from an artifact
    ([finetuner.get_model]) is not part of the sources; it is a function from
    a document to a vector of [output_dim] scalars. *)
Record Encoder (F : Type) : Type :=
  mkEncoder {
    output_dim : nat;
    forward : Document F -> list F;
    forward_dim : forall d, length (forward d) = output_dim
  }.

Arguments output_dim {F} _.
Arguments forward {F} _.
Arguments forward_dim {F} _ _.

(** Modelled from the spec: an artifact is a bundle of named sub-models, and
    [get_model(artifact, select_model=name)] loads the one of that name. *)
Definition get_model {F} (artifact : gmap string (Encoder F))
    (select_model : string) : option (Encoder F) :=
  artifact !! select_model.

(** Modelled from the spec: [finetuner.encode(model, data)] stores the
    model's output as the embedding of every document of [data]. *)
Definition encode {F} (model : Encoder F) (data : DocumentArray F)
    : DocumentArray F :=
  map (fun d => set_embedding d (forward model d)) data.

Lemma mapM_embedding_encode {F} (m : Encoder F) (da : DocumentArray F) :
  mapM embedding (encode m da) = Some (map (forward m) da).
Proof.
  apply mapM_Some. unfold encode.
  induction da as [|d da IH]; simpl; constructor; auto.
Qed.

(** C4: encoding a document array that holds exactly one document with the
    clip-text sub-model of an artifact, when that model has 512 output
    dimensions, leaves an embeddings array of shape (1, 512). *)
Theorem encode_one_document_shape {F} (artifact : gmap string (Encoder F))
    (model : Encoder F) (da : DocumentArray F) :
  get_model artifact "clip-text" = Some model ->
  output_dim model = 512%nat ->
  length da = 1%nat ->
  exists E, embeddings (encode model da) = Some E /\ shape E = (1%nat, 512%nat).
Proof.
  intros _ Hdim Hlen.
  destruct da as [|d [|d' da]]; simpl in Hlen; try discriminate.
  exists [forward model d]. split.
  - unfold embeddings. change (encode model [d]) with
      [set_embedding d (forward model d)].
    apply (mapM_embedding_encode model [d]).
  - unfold shape. simpl. by rewrite forward_dim, Hdim.
Qed.

(** A 512-dimensional encoder over integer scalars, used to exercise the
    theorem: it ignores the document and returns 512 zeros. *)
Definition zero_encoder : Encoder Z :=
  mkEncoder Z 512 (fun _ => replicate 512 0) (fun _ => eq_refl).

Lemma encode_one_document_shape_witness :
  exists E,
    embeddings (encode zero_encoder [text_document "some text to encode"])
      = Some E
    /\ shape E = (1%nat, 512%nat).
Proof.
  apply (encode_one_document_shape
           (<["clip-text" := zero_encoder]> ∅) zero_encoder
           [text_document "some text to encode"]).
  - unfold get_model. apply lookup_insert_eq.
  - reflexivity.
  - reflexivity.
Defined.

End DocArray.

(** ** Text helpers *)

Module Text.

(** The double-quote character, as a one-character string. *)
Definition dquote : string := String "034"%char EmptyString.

(** ASCII lower-casing, for comparisons that ignore case. *)
Definition lower_ascii (c : ascii) : ascii :=
  let n := nat_of_ascii c in
  if ((65 <=? n) && (n <=? 90))%nat then ascii_of_nat (n + 32) else c.

Fixpoint lower (s : string) : string :=
  match s with
  | EmptyString => EmptyString
  | String c s' => String (lower_ascii c) (lower s')
  end.

(** [prefix p s]: does [s] start with [p]? *)
Fixpoint starts_with (p s : string) : bool :=
  match p, s with
  | EmptyString, _ => true
  | String a p', String b s' => if Ascii.eqb a b then starts_with p' s' else false
  | String _ _, EmptyString => false
  end.

Lemma append_empty_r (s : string) : s +:+ "" = s.
Proof.
  induction s as [|a s IH]; [reflexivity|].
  change (String a (s +:+ "") = String a s). by rewrite IH.
Qed.

Lemma append_assoc (s1 s2 s3 : string) :
  (s1 +:+ s2) +:+ s3 = s1 +:+ (s2 +:+ s3).
Proof.
  induction s1 as [|a s1 IH]; [reflexivity|].
  change (String a ((s1 +:+ s2) +:+ s3) = String a (s1 +:+ (s2 +:+ s3))).
  by rewrite IH.
Qed.

End Text.

(** ** Python control flow shared by the snippets *)

Module Py.

(** How the body of a [for] loop ends: by falling through or [continue]
    (the loop goes on), or by [break]. *)
Inductive control : Type := Continue | Break.

(** [for x in items: body], threading the state of the enclosing frame. *)
Fixpoint for_each {A S : Type} (body : A -> S -> control * S)
    (items : list A) (s : S) : S :=
  match items with
  | [] => s
  | x :: rest =>
      match body x s with
      | (Break, s') => s'
      | (Continue, s') => for_each body rest s'
      end
  end.

(** [enumerate(items)], counting from [k]. *)
Fixpoint enumerate_from {A : Type} (k : nat) (items : list A)
    : list (nat * A) :=
  match items with
  | [] => []
  | x :: rest => (k, x) :: enumerate_from (S k) rest
  end.

Definition enumerate {A : Type} (items : list A) : list (nat * A) :=
  enumerate_from 0 items.

End Py.

(** ** [plot_matches] of the multilingual CLIP notebook *)

Module PlotMatches.
Import DocArray Py.

Section WithScalar.
Context {F : Type}.

(** What the function shows: a printed line, or the image sprites of a
    slice of matches. *)
Inductive output : Type :=
| Printed (line : string)
| ImageSprites (docs : list (Document F)).

(** The f-string passed to [print]. *)
Definition results_line (q : string) : string :=
  "results for query " +:+ Text.dquote +:+ q +:+ Text.dquote
  +:+ " using a zero-shot model (top) and "
  +:+ "the fine-tuned model (bottom):".

(** The local variables of [plot_matches]; [i] is unbound before the loop. *)
Record locals : Type :=
  mkLocals { var_i : option Z; seen : gset string }.

Definition state : Type := locals * list output.

(** One pass through the loop body.  The [for] statement first binds its
    targets: [i] to the index produced by [enumerate], [pt_q] and [ft_q] to
    the zipped pair.  Every query is taken to have a match: on an empty
    slice docarray's [plot_image_sprites] raises [ValueError], which ends
    the function early and so shows less. *)
Definition loop_body (num_samples : Z)
    (item : nat * (Document F * Document F)) (st : state) : control * state :=
  let '(k, (pt_q, ft_q)) := item in
  let '(l, out) := st in
  let i := Z.of_nat k in
  if num_samples <=? i then (Break, (mkLocals (Some i) (seen l), out))
  else if decide (text pt_q ∈ seen l) then
    (* i = i - 1; continue *)
    (Continue, (mkLocals (Some (i - 1)) (seen l), out))
  else
    (Continue,
     (mkLocals (Some i) ({[text pt_q]} ∪ seen l),
      out ++ [Printed (results_line (text pt_q));
              ImageSprites (take 1 (matches pt_q));
              ImageSprites (take 1 (matches ft_q))])).

(** [plot_matches(num_samples)] over the globals [pt_query], [ft_query]. *)
Definition plot_matches (num_samples : Z)
    (pt_query ft_query : DocumentArray F) : list output :=
  snd (for_each (loop_body num_samples)
         (enumerate (zip pt_query ft_query))
         (mkLocals None ∅, [])).

(** The same function with the statement [i = i - 1] deleted. *)
Definition loop_body_without_decrement (num_samples : Z)
    (item : nat * (Document F * Document F)) (st : state) : control * state :=
  let '(k, (pt_q, ft_q)) := item in
  let '(l, out) := st in
  let i := Z.of_nat k in
  if num_samples <=? i then (Break, (mkLocals (Some i) (seen l), out))
  else if decide (text pt_q ∈ seen l) then
    (Continue, (mkLocals (Some i) (seen l), out))
  else
    (Continue,
     (mkLocals (Some i) ({[text pt_q]} ∪ seen l),
      out ++ [Printed (results_line (text pt_q));
              ImageSprites (take 1 (matches pt_q));
              ImageSprites (take 1 (matches ft_q))])).

Definition plot_matches_without_decrement (num_samples : Z)
    (pt_query ft_query : DocumentArray F) : list output :=
  snd (for_each (loop_body_without_decrement num_samples)
         (enumerate (zip pt_query ft_query))
         (mkLocals None ∅, [])).

(** The lines printed, in order. *)
Fixpoint printed_lines (out : list output) : list string :=
  match out with
  | [] => []
  | Printed line :: rest => line :: printed_lines rest
  | ImageSprites _ :: rest => printed_lines rest
  end.

Lemma printed_lines_app out1 out2 :
  printed_lines (out1 ++ out2) = printed_lines out1 ++ printed_lines out2.
Proof.
  induction out1 as [|[line|docs] out1 IH]; simpl; [done| |done].
  by rewrite IH.
Qed.

(** Loop invariant: the lines printed so far are the result lines of
    distinct query texts, all of them in [seen], and there are no more of
    them than iterations done or than [num_samples] allows. *)
Definition printed_invariant (num_samples : Z) (k : nat) (st : state)
    (qs : list string) : Prop :=
  printed_lines (snd st) = map results_line qs
  /\ NoDup qs
  /\ (forall q, q ∈ qs -> q ∈ seen (fst st))
  /\ (length qs <= k)%nat
  /\ Z.of_nat (length qs) <= Z.max 0 num_samples.

Lemma for_each_printed_invariant num_samples items :
  forall k st qs,
    printed_invariant num_samples k st qs ->
    exists k' qs',
      printed_invariant num_samples k'
        (for_each (loop_body num_samples) (enumerate_from k items) st) qs'.
Proof.
  induction items as [|[pt_q ft_q] items IH]; intros k [l out] qs Hinv.
  - by exists k, qs.
  - simpl. destruct (Z.leb_spec num_samples (Z.of_nat k)) as [Hge|Hlt].
    + exists k, qs. exact Hinv.
    + destruct Hinv as (Hlines & Hnodup & Hseen & Hk & Hmax).
      simpl in Hlines, Hseen.
      destruct (decide (text pt_q ∈ seen l)) as [Hin|Hnotin].
      * apply (IH (S k) _ qs). repeat split; simpl; auto with lia.
      * apply (IH (S k) _ (qs ++ [text pt_q])). repeat split; simpl.
        -- rewrite printed_lines_app, Hlines, map_app. reflexivity.
        -- apply NoDup_app. repeat split; [done| |apply NoDup_singleton].
           intros q Hq ->%list_elem_of_singleton. apply Hnotin, Hseen, Hq.
        -- intros q [Hq| ->%list_elem_of_singleton]%elem_of_app;
             [apply elem_of_union_r, Hseen, Hq|].
           apply elem_of_union_l, elem_of_singleton. reflexivity.
        -- rewrite length_app. simpl. lia.
        -- rewrite length_app. simpl. lia.
Qed.

Lemma for_each_without_decrement num_samples items :
  forall l1 l2 out,
    seen l1 = seen l2 ->
    let r1 := for_each (loop_body num_samples) items (l1, out) in
    let r2 := for_each (loop_body_without_decrement num_samples) items
                (l2, out) in
    seen (fst r1) = seen (fst r2) /\ snd r1 = snd r2.
Proof.
  induction items as [|[k [pt_q ft_q]] items IH]; intros l1 l2 out Hseen.
  - by split.
  - simpl. rewrite <- Hseen.
    destruct (num_samples <=? Z.of_nat k); [by split|].
    destruct (decide (text pt_q ∈ seen l1)); by apply IH.
Qed.

(** C9: whatever [num_samples] and the two query arrays are, the lines that
    [plot_matches] prints are the result lines of pairwise distinct query
    texts, at most [num_samples] of them (none when [num_samples] is not
    positive), and deleting [i = i - 1] changes nothing of what is shown. *)
Theorem plot_matches_distinct_bounded (num_samples : Z)
    (pt_query ft_query : DocumentArray F) :
  (exists qs,
      printed_lines (plot_matches num_samples pt_query ft_query)
        = map results_line qs
      /\ NoDup qs
      /\ Z.of_nat (length qs) <= Z.max 0 num_samples)
  /\ plot_matches num_samples pt_query ft_query
     = plot_matches_without_decrement num_samples pt_query ft_query.
Proof.
  split.
  - destruct (for_each_printed_invariant num_samples
                (zip pt_query ft_query) 0 (mkLocals None ∅, []) [])
      as (k' & qs & Hlines & Hnodup & _ & _ & Hmax).
    + repeat split; simpl; [apply NoDup_nil_2|intros q Hq|lia|lia].
      by apply elem_of_nil in Hq.
    + exists qs. unfold plot_matches, enumerate. auto.
  - unfold plot_matches, plot_matches_without_decrement.
    apply for_each_without_decrement. reflexivity.
Qed.

End WithScalar.

(** Four queries, two of them equal, and room for three samples: the
    repeated text is skipped, and the fourth query is not reached. *)
Example plot_matches_example :
  printed_lines
    (plot_matches (F := Z) 3
       (map text_document ["a"; "a"; "b"; "c"])
       (map text_document ["a"; "a"; "b"; "c"]))
  = map results_line ["a"; "b"].
Proof. vm_compute. reflexivity. Qed.

End PlotMatches.

(** ** The monitoring loop of the notebooks *)

Module Monitor.
Import RunLifecycle.

(** What one poll of the remote job observes: its status, and the log
    entries that arrived since the previous poll, oldest first. *)
Record observation : Type :=
  mkObservation { obs_status : status; obs_entries : list string }.

(** A remote run, as the client sees it: the observation of the poll
    number [t].  All of it is decided by the server. *)
Definition remote_run : Type := nat -> observation.

(** The state of the generator returned by [run.stream_logs()]. *)
Record stream : Type :=
  mkStream { clock : nat; pending : list string; finished : bool }.

Definition stream_logs : stream := mkStream 0 [] false.

(** Modelled from the spec: [stream_logs] is in the external client; the
    spec describes a blocking poll of the remote logs until the remote job
    reaches a terminal state.  One step of
    [for entry in run.stream_logs(): print(entry)] either prints the next
    pending entry, or leaves the loop when the generator is exhausted, or
    blocks on the next poll.  [fuel] bounds the number of steps; the result
    is what has been printed and whether the loop has been left. *)
Fixpoint monitor (fuel : nat) (run : remote_run) (g : stream)
    (printed : list string) : list string * bool :=
  match fuel with
  | O => (printed, false)
  | S fuel =>
      match pending g with
      | entry :: rest =>
          monitor fuel run (mkStream (clock g) rest (finished g))
            (printed ++ [entry])
      | [] =>
          if finished g then (printed, true)
          else
            let o := run (clock g) in
            monitor fuel run
              (mkStream (S (clock g)) (obs_entries o)
                 (terminal (obs_status o)))
              printed
      end
  end.

(** The entries of the polls [t], [t+1], ..., [t+n-1], in arrival order. *)
Definition arrived (run : remote_run) (t n : nat) : list string :=
  concat (map (fun u => obs_entries (run u)) (seq t n)).

(** A run that is queued, then trains, then finishes. *)
Definition sample_run : remote_run :=
  fun t =>
    match t with
    | O => mkObservation CREATED []
    | S O => mkObservation STARTED ["epoch 1"; "epoch 2"]
    | _ => mkObservation FINISHED ["done"]
    end.

Example monitor_sample_run :
  monitor 10 sample_run stream_logs []
  = (["epoch 1"; "epoch 2"; "done"], true).
Proof. reflexivity. Qed.

Lemma monitor_drain entries : forall fuel run t fin printed,
  monitor (length entries + fuel) run (mkStream t entries fin) printed
  = monitor fuel run (mkStream t [] fin) (printed ++ entries).
Proof.
  induction entries as [|e entries IH]; intros fuel run t fin printed.
  - by rewrite app_nil_r.
  - simpl. rewrite IH. by rewrite <- app_assoc.
Qed.

Lemma monitor_reaches_terminal run : forall d t printed,
  (forall u, (t <= u < t + d)%nat -> terminal (obs_status (run u)) = false) ->
  terminal (obs_status (run (t + d)%nat)) = true ->
  exists fuel0, forall fuel, (fuel0 <= fuel)%nat ->
    monitor fuel run (mkStream t [] false) printed
    = (printed ++ arrived run t (S d), true).
Proof.
  induction d as [|d IH]; intros t printed Hrunning Hterminal.
  - rewrite Nat.add_0_r in Hterminal.
    exists (S (length (obs_entries (run t)) + 1)). intros fuel Hfuel.
    destruct fuel as [|fuel]; [lia|]. simpl. rewrite Hterminal.
    replace fuel with
      (length (obs_entries (run t)) + (fuel - length (obs_entries (run t))))%nat
      by lia.
    rewrite monitor_drain.
    destruct (fuel - length (obs_entries (run t)))%nat eqn:Hrest; [lia|].
    simpl. unfold arrived. simpl. by rewrite app_nil_r.
  - destruct (IH (S t) (printed ++ obs_entries (run t))) as [fuel0 Hfuel0].
    + intros u Hu. apply Hrunning. lia.
    + replace (S t + d)%nat with (t + S d)%nat by lia. exact Hterminal.
    + exists (S (length (obs_entries (run t)) + fuel0)). intros fuel Hfuel.
      destruct fuel as [|fuel]; [lia|]. simpl.
      rewrite (Hrunning t) by lia.
      replace fuel with
        (length (obs_entries (run t))
         + (fuel - length (obs_entries (run t))))%nat by lia.
      rewrite monitor_drain, Hfuel0 by lia.
      unfold arrived. simpl. by rewrite <- app_assoc.
Qed.

Lemma monitor_blocks run : forall fuel g printed,
  (forall u, terminal (obs_status (run u)) = false) ->
  finished g = false ->
  snd (monitor fuel run g printed) = false.
Proof.
  induction fuel as [|fuel IH]; intros [t entries fin] printed Hrun Hfin;
    simpl in *; [done|].
  destruct entries as [|e entries].
  - rewrite Hfin. apply IH; [exact Hrun|]. simpl. apply Hrun.
  - by apply IH.
Qed.

Lemma monitor_printed_prefix run : forall fuel g printed,
  printed `prefix_of` fst (monitor fuel run g printed).
Proof.
  induction fuel as [|fuel IH]; intros [t entries fin] printed; simpl;
    [done|].
  destruct entries as [|e entries].
  - destruct fin; [done|apply IH].
  - etrans; [|apply IH]. by apply prefix_app_r.
Qed.

(** C7: when the remote run first shows a terminal status at poll [n], the
    loop, given enough steps, leaves after exactly the polls 0..n having
    printed every entry that arrived, once and in arrival order; and as long
    as the remote run shows no terminal status the loop is never left. *)
Theorem monitoring_loop_prints_all (run : remote_run) :
  (forall n,
      (forall u, (u < n)%nat -> terminal (obs_status (run u)) = false) ->
      terminal (obs_status (run n)) = true ->
      exists fuel0, forall fuel, (fuel0 <= fuel)%nat ->
        monitor fuel run stream_logs [] = (arrived run 0 (S n), true))
  /\ ((forall u, terminal (obs_status (run u)) = false) ->
      forall fuel, snd (monitor fuel run stream_logs []) = false).
Proof.
  split.
  - intros n Hrunning Hterminal.
    destruct (monitor_reaches_terminal run n 0%nat []) as [fuel0 Hfuel0];
      [intros u Hu; apply Hrunning; lia | exact Hterminal |].
    exists fuel0. intros fuel Hfuel. by rewrite Hfuel0.
  - intros Hrun fuel. by apply monitor_blocks.
Qed.

End Monitor.

(** ** GitHub Actions workflows (.github/workflows) *)

Module Actions.

(** *** Workflow syntax: the part of the YAML schema the two files use *)

(** A value with [${{ ... }}] expressions: literal text and context
    lookups such as [github.event.client_payload.branch]. *)
Inductive piece : Type :=
| Lit (s : string)
| Ctx (path : list string).

Definition template : Type := list piece.

(** The [if:] conditions that occur in the workflows. *)
Inductive condition : Type :=
| Always
| Success
| EnvEquals (var value : string).

(** A line of a [run:] script.  [exit] and [echo] are interpreted; any
    other line is an external command. *)
Inductive command : Type :=
| Exit (code : Z)
| Echo (text : string)
| Cmd (line : string).

Inductive action : Type :=
| Uses (name : string) (inputs : list (string * template))
| Run (script : list command).

Record step : Type :=
  mkStep {
    step_name : string;
    step_id : string;
    step_if : option condition;
    step_action : action
  }.

Record job : Type :=
  mkJob {
    job_id : string;
    job_needs : list string;
    job_if : option condition;
    job_runs_on : list string;
    (** [strategy.matrix]: the variable and the context path that
        [fromJson] reads *)
    job_matrix : option (string * list string);
    job_steps : list step;
    job_outputs : list (string * template)
  }.

Record trigger : Type :=
  mkTrigger { on_event : string; on_types : option (list string) }.

Record workflow : Type :=
  mkWorkflow {
    wf_name : string;
    wf_on : list trigger;
    wf_env : list (string * template);
    wf_jobs : list job
  }.

(** *** Steps shared by the jobs *)

Definition checkout_v2 : step :=
  mkStep "" "" None (Uses "actions/checkout@v2" []).

Definition setup_python (version : string) : step :=
  mkStep ("Set up Python " +:+ version) "" None
    (Uses "actions/setup-python@v2" [("python-version", [Lit version])]).

Definition checkout_core : step :=
  mkStep "" "" None
    (Uses "actions/checkout@v3"
       [("repository", [Lit "jina-ai/finetuner-core"]);
        ("ref", [Ctx ["github"; "event"; "client_payload"; "branch"]]);
        ("token", [Ctx ["secrets"; "FINETUNER_CORE_REPO"]])]).

Definition run_step_named (name : string) (script : list command) : step :=
  mkStep name "" None (Run script).

Definition workflow_conclusion_action : string :=
  "technote-space/workflow-conclusion-action@v2".

(** The three steps of both gate jobs. *)
Definition gate_steps : list step :=
  [ mkStep "" "" None (Uses workflow_conclusion_action []);
    mkStep "Check Failure" "" (Some (EnvEquals "WORKFLOW_CONCLUSION" "failure"))
      (Run [Exit 1]);
    mkStep "Success" "" (Some Success) (Run [Echo "All Done"]) ].

(** *** ci.yml *)

Definition ci_job (id install_name : string) (last : step) : job :=
  mkJob id [] None ["ubuntu-latest"] None
    [ checkout_v2; setup_python "3.7";
      run_step_named install_name [Cmd "make init"]; last ]
    [].

Definition check_codestyle : job :=
  ci_job "check-codestyle" "Install requirements"
    (run_step_named "Lint with flake8, black and isort" [Cmd "make style"]).

Definition run_tests : job :=
  ci_job "run-tests" "Install requirements"
    (run_step_named "Run tests" [Cmd "make test"]).

Definition success_all_test : job :=
  mkJob "success-all-test" ["run-tests"] (Some Always) ["ubuntu-latest"] None
    gate_steps [].

Definition ci : workflow :=
  mkWorkflow "CI" [mkTrigger "push" None]
    [("HOST", [Ctx ["secrets"; "FINETUNER_HOST"]]);
     ("JINA_AUTH_TOKEN", [Ctx ["secrets"; "JINA_AUTH_TOKEN"]])]
    [check_codestyle; run_tests; success_all_test].

(** *** remote-ci.yml *)

Definition style_job (id : string) (install check : step) : job :=
  mkJob id [] None ["ubuntu-latest"] None
    [checkout_v2; setup_python "3.8"; checkout_core; install; check] [].

Definition install_style : step :=
  run_step_named "Install requirements" [Cmd "make install package=style"].

Definition style_flake : job :=
  style_job "style-flake" install_style
    (run_step_named "Lint with flake8" [Cmd "make flake"]).

Definition style_black : job :=
  style_job "style-black" install_style
    (run_step_named "check black" [Cmd "make black-check"]).

Definition style_isort : job :=
  style_job "style-isort" install_style
    (run_step_named "check isort" [Cmd "make isort-check"]).

Definition gather_core_line : string :=
  "core_test_paths=$( find 'tests' -name 'test_*.py' | xargs grep -l 'def test_' | xargs dirname | sort -u | jq -R . | jq -cs . )".

Definition gather_cuda_line : string :=
  "cuda_test_paths=$( find 'tests' -name 'test_*.py' | xargs grep -l 'def test_' | xargs grep -l 'pytest.mark.gpu' | xargs dirname | sort -u | jq -R . | jq -cs . )".

Definition prep_testbed : job :=
  mkJob "prep-testbed" ["style-flake"; "style-black"; "style-isort"] None
    ["ubuntu-latest"] None
    [ checkout_v2;
      run_step_named "Install jq" [Cmd "sudo apt-get install jq"];
      checkout_core;
      mkStep "Gather core test paths" "gather-core-tests" None
        (Run [Cmd gather_core_line;
              Echo "::set-output name=core-tests-matrix::$core_test_paths"]);
      mkStep "Gather CUDA test paths" "gather-cuda-tests" None
        (Run [Cmd gather_cuda_line;
              Echo "::set-output name=cuda-tests-matrix::$cuda_test_paths"]);
      mkStep "Generate UUID for the artifact of the current run"
        "generate-artifact-id" None
        (Run [Echo "::set-output name=artifact-id::$(uuidgen)"]) ]
    [("artifact-id",
      [Ctx ["steps"; "generate-artifact-id"; "outputs"; "artifact-id"]]);
     ("core-tests-matrix",
      [Ctx ["steps"; "gather-core-tests"; "outputs"; "core-tests-matrix"]]);
     ("cuda-tests-matrix",
      [Ctx ["steps"; "gather-cuda-tests"; "outputs"; "cuda-tests-matrix"]])].

Definition upload_coverage : step :=
  mkStep "Upload coverage" "" None
    (Uses "actions/upload-artifact@v3"
       [("name",
         [Lit "coverage-";
          Ctx ["needs"; "prep-testbed"; "outputs"; "artifact-id"]]);
        ("path", [Ctx ["env"; "COVERAGE_NAME"]]);
        ("retention-days", [Lit "1"])]).

(** The [Test] step of [test-core] and [test-cuda]; they differ in the make
    target and in the infix of the coverage file name. *)
Definition test_step (target kind : string) : step :=
  mkStep "Test" "test" None
    (Run [Cmd ("make " +:+ target
               +:+ " TESTS_PATH=${{ matrix.tests-path }}/test_\*.py");
          Cmd ("COVERAGE_NAME=.coverage." +:+ kind
               +:+ ".$( echo ${{ matrix.tests-path }} | tr "
               +:+ Text.dquote +:+ "/" +:+ Text.dquote +:+ " . )");
          Cmd ("echo " +:+ Text.dquote +:+ "COVERAGE_NAME=$COVERAGE_NAME"
               +:+ Text.dquote +:+ " >> $GITHUB_ENV");
          Cmd "mv .coverage $COVERAGE_NAME"]).

Definition test_job (id : string) (runs_on : list string)
    (matrix_output package target kind : string) : job :=
  mkJob id ["prep-testbed"] None runs_on
    (Some ("tests-path", ["needs"; "prep-testbed"; "outputs"; matrix_output]))
    [ checkout_v2; setup_python "3.8"; checkout_core;
      run_step_named "Prepare enviroment"
        [Cmd "python -m pip install --upgrade pip";
         Cmd ("make install package=" +:+ package);
         Cmd "make prepare-executor"];
      test_step target kind;
      upload_coverage ]
    [].

Definition test_core : job :=
  test_job "test-core" ["ubuntu-latest"] "core-tests-matrix" "cicd.cpu"
    "test" "core".

Definition test_cuda : job :=
  test_job "test-cuda" ["self-hosted"; "x64"; "gpu"; "linux"]
    "cuda-tests-matrix" "cicd.cuda" "test-cuda" "cuda".

Definition get_coverage : job :=
  mkJob "get-coverage" ["prep-testbed"; "test-core"; "test-cuda"] None
    ["ubuntu-latest"] None
    [ checkout_v2; setup_python "3.8"; checkout_core;
      run_step_named "Prepare enviroment"
        [Cmd "python -m pip install --upgrade pip pytest pytest-cov"];
      mkStep "Download coverage artifact" "" None
        (Uses "actions/download-artifact@v3"
           [("name",
             [Lit "coverage-";
              Ctx ["needs"; "prep-testbed"; "outputs"; "artifact-id"]])]);
      run_step_named "Combine coverages"
        [Cmd "coverage combine -a .coverage*"; Cmd "coverage xml"];
      mkStep "Comment with coverage report" "" None
        (Uses "MishaKav/pytest-coverage-comment@main"
           [("pytest-xml-coverage-path", [Lit "./coverage.xml"]);
            ("title", [Lit "Finetuner Coverage Report"])]) ]
    [].

Definition success_tests : job :=
  mkJob "success-tests" ["get-coverage"; "test-core"; "test-cuda"]
    (Some Always) ["ubuntu-latest"] None gate_steps [].

Definition remote_ci : workflow :=
  mkWorkflow "Core-CI"
    [mkTrigger "repository_dispatch" (Some ["triggered_from_core"])]
    [("JINA_AUTH_TOKEN", [Ctx ["secrets"; "JINA_AUTH_TOKEN"]])]
    [ style_flake; style_black; style_isort; prep_testbed;
      test_core; test_cuda; get_coverage; success_tests ].

(** *** Events and triggers *)

(** A webhook event: its name, its [action] (the [event_type] of a
    [repository_dispatch]) and its client payload. *)
Record event : Type :=
  mkEvent {
    event_name : string;
    event_action : string;
    client_payload : gmap string string
  }.

Definition trigger_matches (t : trigger) (e : event) : bool :=
  String.eqb (on_event t) (event_name e)
  && match on_types t with
     | None => true
     | Some types => bool_decide (event_action e ∈ types)
     end.

(** Does the event start a run of the workflow? *)
Definition triggers (wf : workflow) (e : event) : bool :=
  existsb (fun t => trigger_matches t e) (wf_on wf).

(** *** Expression contexts *)

Record context : Type :=
  mkContext {
    github_event : event;
    secrets : gmap string string;
    env : gmap string string;
    needs_outputs : gmap (string * string) string;
    steps_outputs : gmap (string * string) string;
    matrix : gmap string string
  }.

(** An unset context value evaluates to the empty string. *)
Definition lookup_context (c : context) (path : list string) : string :=
  match path with
  | ["github"; "event"; "client_payload"; k] =>
      default "" (client_payload (github_event c) !! k)
  | ["github"; "event"; "action"] => event_action (github_event c)
  | ["github"; "event_name"] => event_name (github_event c)
  | ["secrets"; k] => default "" (secrets c !! k)
  | ["env"; k] => default "" (env c !! k)
  | ["needs"; j; "outputs"; k] => default "" (needs_outputs c !! (j, k))
  | ["steps"; s; "outputs"; k] => default "" (steps_outputs c !! (s, k))
  | ["matrix"; k] => default "" (matrix c !! k)
  | _ => ""
  end.

Definition eval_piece (c : context) (p : piece) : string :=
  match p with
  | Lit s => s
  | Ctx path => lookup_context c path
  end.

Definition eval_template (c : context) (t : template) : string :=
  foldr (fun p acc => eval_piece c p +:+ acc) "" t.

Fixpoint input (name : string) (inputs : list (string * template))
    : option template :=
  match inputs with
  | [] => None
  | (k, v) :: rest => if String.eqb k name then Some v else input name rest
  end.

(** The repository and ref that a step checks out, when it is a checkout
    of a repository other than the workflow's own. *)
Definition checkout_target (c : context) (s : step)
    : option (string * string) :=
  match step_action s with
  | Uses name inputs =>
      if Text.starts_with "actions/checkout@" name then
        match input "repository" inputs with
        | Some r =>
            Some (eval_template c r,
                  eval_template c (default [] (input "ref" inputs)))
        | None => None
        end
      else None
  | Run _ => None
  end.

(** Does the job run a script line that is an external command? *)
Definition is_external (cmd : command) : bool :=
  match cmd with
  | Cmd _ => true
  | _ => false
  end.

Definition runs_external (s : step) : bool :=
  match step_action s with
  | Run script => existsb is_external script
  | Uses _ _ => false
  end.

(** The checkouts of other repositories that a job makes, in order. *)
Definition foreign_checkouts (c : context) (j : job)
    : list (string * string) :=
  omap (checkout_target c) (job_steps j).

(** *** Running a job *)

(** The conclusions GitHub gives to a finished job or workflow. *)
Inductive conclusion : Type :=
| neutral | skipped | success | cancelled | timed_out | action_required
| failure.

#[global] Instance conclusion_eq_dec : EqDecision conclusion.
Proof. solve_decision. Defined.

Definition conclusion_name (c : conclusion) : string :=
  match c with
  | neutral => "neutral"
  | skipped => "skipped"
  | success => "success"
  | cancelled => "cancelled"
  | timed_out => "timed_out"
  | action_required => "action_required"
  | failure => "failure"
  end.

(** What lies outside the workflow files: the effect of a third-party
    action on the job's environment ([None] when the action fails), and the
    exit status of an external command line. *)
Record world : Type :=
  mkWorld {
    action_effect : string -> gmap string string -> option (gmap string string);
    command_status : string -> Z
  }.

Record job_state : Type :=
  mkJobState {
    st_env : gmap string string;
    st_ok : bool;
    st_exit : option Z;
    st_log : list string
  }.

(** [==] on strings ignores case in workflow expressions. *)
Definition expr_eqb (a b : string) : bool :=
  String.eqb (Text.lower a) (Text.lower b).

(** A condition without a status function is guarded by [success()]. *)
Definition holds (c : option condition) (ok : bool)
    (vars : gmap string string) : bool :=
  match c with
  | None => ok
  | Some Always => true
  | Some Success => ok
  | Some (EnvEquals var value) =>
      ok && expr_eqb (default "" (vars !! var)) value
  end.

(** A script runs under [bash -e]: it stops at the first line that fails,
    and [exit] ends it with the given status. *)
Fixpoint run_script (w : world) (script : list command) (log : list string)
    : Z * list string :=
  match script with
  | [] => (0, log)
  | Exit code :: _ => (code, log)
  | Echo text :: rest => run_script w rest (log ++ [text])
  | Cmd line :: rest =>
      let code := command_status w line in
      if code =? 0 then run_script w rest log else (code, log)
  end.

Definition run_step (w : world) (st : job_state) (s : step) : job_state :=
  if holds (step_if s) (st_ok st) (st_env st) then
    match step_action s with
    | Uses name _ =>
        match action_effect w name (st_env st) with
        | Some env' => mkJobState env' (st_ok st) (st_exit st) (st_log st)
        | None => mkJobState (st_env st) false (st_exit st) (st_log st)
        end
    | Run script =>
        let '(code, log) := run_script w script (st_log st) in
        if code =? 0 then mkJobState (st_env st) (st_ok st) (st_exit st) log
        else mkJobState (st_env st) false (Some code) log
    end
  else st.

(** One run of the steps of a job.  A job with [strategy.matrix] has one
    such run for each entry of its matrix, and fails without any when the
    matrix is empty. *)
Definition run_job (w : world) (j : job) : job_state :=
  fold_left (run_step w) (job_steps j) (mkJobState ∅ true None []).

Definition job_conclusion (st : job_state) : conclusion :=
  if st_ok st then success else failure.

(** Is the job started, given the conclusions of the jobs it needs?
    Without [always()] it is skipped unless all of them succeeded. *)
Definition job_runs (j : job) (needed : list conclusion) : bool :=
  holds (job_if j) (forallb (fun c => bool_decide (c = success)) needed) ∅.

(** Severity of a conclusion when conclusions are aggregated. *)
Definition severity (c : conclusion) : nat :=
  match c with
  | neutral => 0
  | skipped => 1
  | success => 2
  | cancelled => 3
  | timed_out => 4
  | action_required => 5
  | failure => 6
  end.

(** The workflow-conclusion action is third-party and not in the sources;
    the properties below take its aggregation as a parameter.  This is one
    aggregation, used to exercise them: the most severe conclusion of the
    list, and [skipped] when the list is empty. *)
Definition workflow_conclusion (jobs : list conclusion) : conclusion :=
  foldr (fun c acc => if (severity acc <? severity c)%nat then c else acc)
    skipped jobs.

(** The action leaves its result in [WORKFLOW_CONCLUSION]. *)
Definition sets_workflow_conclusion (w : world) (c : conclusion) : Prop :=
  forall vars,
    action_effect w workflow_conclusion_action vars
    = Some (<["WORKFLOW_CONCLUSION" := conclusion_name c]> vars).

(** *** Properties of the triggers and checkouts *)

Lemma trigger_matches_spec (t : trigger) (e : event) :
  trigger_matches t e = true
  <-> on_event t = event_name e
      /\ match on_types t with
         | None => True
         | Some types => event_action e ∈ types
         end.
Proof.
  unfold trigger_matches.
  rewrite andb_true_iff, String.eqb_eq.
  destruct (on_types t) as [types|]; [|intuition].
  by rewrite bool_decide_eq_true.
Qed.

Lemma triggers_spec (wf : workflow) (e : event) :
  triggers wf e = true
  <-> exists t, In t (wf_on wf)
        /\ on_event t = event_name e
        /\ match on_types t with
           | None => True
           | Some types => event_action e ∈ types
           end.
Proof.
  unfold triggers. rewrite existsb_exists.
  split; intros (t & Hin & Ht); exists t; split; auto;
    by apply trigger_matches_spec.
Qed.

Lemma triggers_ci (e : event) :
  triggers ci e = true <-> event_name e = "push".
Proof.
  rewrite triggers_spec. split.
  - intros (t & [<-|[]] & Hname & _). symmetry. exact Hname.
  - intros Hname. exists (mkTrigger "push" None).
    split; [by left|]. by split.
Qed.

Lemma triggers_remote_ci (e : event) :
  triggers remote_ci e = true
  <-> event_name e = "repository_dispatch"
      /\ event_action e = "triggered_from_core".
Proof.
  rewrite triggers_spec. split.
  - intros (t & [<-|[]] & Hname & Htype). simpl in *.
    apply list_elem_of_singleton in Htype. by split.
  - intros [Hname Htype].
    exists (mkTrigger "repository_dispatch" (Some ["triggered_from_core"])).
    split; [by left|]. split; [done|]. simpl.
    by apply list_elem_of_singleton.
Qed.

(** The ref named by the dispatch payload. *)
Definition payload_branch (c : context) : string :=
  default "" (client_payload (github_event c) !! "branch").

Lemma checkout_core_target (c : context) :
  checkout_target c checkout_core
  = Some ("jina-ai/finetuner-core", payload_branch c).
Proof.
  unfold checkout_target, payload_branch. simpl. unfold eval_template. simpl.
  by rewrite !Text.append_empty_r.
Qed.

Lemma foreign_checkouts_remote_ci (c : context) (j : job) :
  In j (wf_jobs remote_ci) ->
  (foreign_checkouts c j = [("jina-ai/finetuner-core", payload_branch c)])
  \/ (j = success_tests /\ foreign_checkouts c j = []
      /\ existsb runs_external (job_steps j) = false).
Proof.
  intros Hj. simpl in Hj.
  destruct Hj as [<-|[<-|[<-|[<-|[<-|[<-|[<-|[<-|[]]]]]]]]];
    [left..|right; by repeat split];
    unfold foreign_checkouts, payload_branch; simpl;
    unfold eval_template; simpl; by rewrite !Text.append_empty_r.
Qed.

(** C5: ci.yml runs exactly on push events; remote-ci.yml runs exactly on
    repository_dispatch events of type triggered_from_core; and each job of
    remote-ci other than the final gate (which runs no external command)
    makes one checkout of another repository, namely of
    jina-ai/finetuner-core at the branch given in the dispatch payload. *)
Theorem workflow_triggers_and_checkouts :
  (forall e, triggers ci e = true <-> event_name e = "push")
  /\ (forall e, triggers remote_ci e = true
               <-> event_name e = "repository_dispatch"
                   /\ event_action e = "triggered_from_core")
  /\ (forall c j, In j (wf_jobs remote_ci) ->
        foreign_checkouts c j
        = [("jina-ai/finetuner-core", payload_branch c)]
        \/ (j = success_tests /\ foreign_checkouts c j = []
            /\ existsb runs_external (job_steps j) = false))
  /\ (forall c j repo ref, In j (wf_jobs remote_ci) ->
        In (repo, ref) (foreign_checkouts c j) ->
        repo = "jina-ai/finetuner-core" /\ ref = payload_branch c).
Proof.
  split; [exact triggers_ci|].
  split; [exact triggers_remote_ci|].
  split; [exact foreign_checkouts_remote_ci|].
  intros c j repo ref Hj Hin.
  destruct (foreign_checkouts_remote_ci c j Hj) as [Heq|(_ & Heq & _)];
    rewrite Heq in Hin; simpl in Hin; [|contradiction].
  destruct Hin as [Hin|[]]. by inversion Hin.
Qed.

(** *** The gate jobs *)

(** The jobs that run under [if: always()], over both workflows. *)
Definition gate_jobs : list job :=
  List.filter
    (fun j => match job_if j with Some Always => true | _ => false end)
    (wf_jobs ci ++ wf_jobs remote_ci).

Lemma gate_jobs_are : gate_jobs = [success_all_test; success_tests].
Proof. reflexivity. Qed.

Lemma gate_jobs_steps (gate : job) :
  In gate gate_jobs -> job_steps gate = gate_steps /\ job_if gate = Some Always.
Proof.
  rewrite gate_jobs_are. intros [<-|[<-|[]]]; by split.
Qed.

Lemma workflow_conclusion_severity (jobs : list conclusion) (c : conclusion) :
  In c jobs -> (severity c <= severity (workflow_conclusion jobs))%nat.
Proof.
  induction jobs as [|c' jobs IH]; simpl; [done|].
  intros [<-|Hin];
    destruct (Nat.ltb_spec (severity (workflow_conclusion jobs)) (severity c'));
    try specialize (IH Hin); lia.
Qed.

Lemma workflow_conclusion_in (jobs : list conclusion) :
  workflow_conclusion jobs = skipped \/ In (workflow_conclusion jobs) jobs.
Proof.
  induction jobs as [|c' jobs IH]; simpl; [by left|].
  destruct (severity (workflow_conclusion jobs) <? severity c')%nat;
    [right; by left|]. destruct IH as [IH|IH]; [by left|right; by right].
Qed.

Lemma workflow_conclusion_failure (jobs : list conclusion) :
  workflow_conclusion jobs = failure <-> In failure jobs.
Proof.
  split.
  - intros H. destruct (workflow_conclusion_in jobs) as [H'|H'];
      rewrite H in H'; [discriminate|exact H'].
  - intros H%workflow_conclusion_severity.
    destruct (workflow_conclusion jobs); simpl in H; try lia. reflexivity.
Qed.

Lemma run_gate_steps (w : world) (c : conclusion) :
  sets_workflow_conclusion w c ->
  fold_left (run_step w) gate_steps (mkJobState ∅ true None [])
  = if decide (c = failure)
    then mkJobState (<["WORKFLOW_CONCLUSION" := "failure"]> ∅) false (Some 1) []
    else mkJobState (<["WORKFLOW_CONCLUSION" := conclusion_name c]> ∅) true
           None ["All Done"].
Proof.
  intros Hsets. unfold gate_steps. cbn [fold_left].
  unfold run_step at 3. cbn [step_if step_action holds st_ok st_env].
  rewrite Hsets. cbn [st_ok st_exit st_log].
  unfold run_step at 2. cbn [step_if step_action holds st_ok st_env].
  rewrite lookup_insert_eq. cbn [default andb].
  destruct c; reflexivity.
Qed.

(** C2: each gate job is started whatever the conclusions of the jobs it
    needs; given the aggregated conclusion that the conclusion action leaves
    in WORKFLOW_CONCLUSION, the job fails, with exit status 1, exactly when
    that conclusion is failure, and otherwise succeeds after printing
    All Done; so when the aggregation over the needed jobs is failure exactly
    if one of them failed, the gate fails exactly when one of them failed. *)
Theorem gate_job_fails_iff_failure (w : world) (gate : job)
    (aggregate : list conclusion -> conclusion) (needed : list conclusion) :
  In gate gate_jobs ->
  (forall jobs, aggregate jobs = failure <-> In failure jobs) ->
  sets_workflow_conclusion w (aggregate needed) ->
  job_runs gate needed = true
  /\ (job_conclusion (run_job w gate) = failure
        /\ st_exit (run_job w gate) = Some 1
      <-> aggregate needed = failure)
  /\ (aggregate needed <> failure ->
      job_conclusion (run_job w gate) = success
      /\ st_exit (run_job w gate) = None
      /\ st_log (run_job w gate) = ["All Done"])
  /\ (job_conclusion (run_job w gate) = failure <-> In failure needed).
Proof.
  intros [Hsteps Hif]%gate_jobs_steps Hagg Hsets.
  unfold job_runs, run_job.
  rewrite Hif, Hsteps, (run_gate_steps w (aggregate needed) Hsets).
  split; [reflexivity|]. rewrite <- Hagg.
  destruct (decide (aggregate needed = failure)) as [Hc|Hc];
    unfold job_conclusion; simpl.
  - split; [by split|]. split; [done|]. by split.
  - split; [split; [by intros [? _]|done]|]. split; [done|]. by split.
Qed.

(** A world in which the conclusion action reports [c] and every external
    command succeeds. *)
Definition reporting_world (c : conclusion) : world :=
  mkWorld
    (fun _ vars => Some (<["WORKFLOW_CONCLUSION" := conclusion_name c]> vars))
    (fun _ => 0).

Lemma gate_job_fails_iff_failure_witness :
  job_conclusion
    (run_job (reporting_world (workflow_conclusion [success; failure; skipped]))
       success_tests)
  = failure.
Proof.
  apply (gate_job_fails_iff_failure
           (reporting_world (workflow_conclusion [success; failure; skipped]))
           success_tests workflow_conclusion [success; failure; skipped]).
  - right. left. reflexivity.
  - exact workflow_conclusion_failure.
  - intros vars. reflexivity.
  - simpl. auto.
Defined.

(** When the needed jobs succeed or are skipped the gate passes. *)
Example gate_passes :
  st_log (run_job (reporting_world (workflow_conclusion [success; skipped]))
            success_all_test)
  = ["All Done"].
Proof. reflexivity. Qed.

End Actions.

(** ** The shell tools of the prep-testbed job (remote-ci.yml) *)

Module Shell.

(** Byte strings: file names, file contents and what flows through pipes. *)
Abbreviation bytes := (list ascii).

Definition B (s : string) : bytes := list_ascii_of_string s.

Definition nl : ascii := "010"%char.
Definition slash : ascii := "/"%char.
Definition dot : ascii := "."%char.
Definition squote : ascii := "'"%char.
Definition dquote : ascii := "034"%char.
Definition backslash : ascii := "\"%char.

Definition tab : ascii := "009"%char.

(** C [isspace]: blank, tab, newline, vertical tab, form feed, return. *)
Definition is_space (c : ascii) : bool := Ascii.is_space c.

(** The characters that end an argument of xargs: blank, tab, newline. *)
Definition ends_argument (c : ascii) : bool :=
  bool_decide (c = " "%char) || bool_decide (c = tab) || bool_decide (c = nl).

(** *** Lines *)

(** What a tool prints for a list of names: each followed by a newline. *)
Fixpoint unlines (ls : list bytes) : bytes :=
  match ls with
  | [] => []
  | l :: ls' => l ++ nl :: unlines ls'
  end.

(** The lines a tool reads from its input; a last line without newline
    counts. *)
Fixpoint lines (s : bytes) : list bytes :=
  match s with
  | [] => []
  | c :: s' =>
      if decide (c = nl) then [] :: lines s'
      else match lines s' with
           | [] => [[c]]
           | l :: ls => (c :: l) :: ls
           end
  end.

(** *** xargs *)

(** The reader of [xargs] (without [-0] or [-d]): white space before an
    argument is skipped; a blank, a tab or a newline ends an argument; a
    quote groups characters up to the matching quote; a backslash takes the
    next character literally. *)
Inductive mode : Type :=
| Space
| Norm
| Quoted (q : ascii)
| Escaped.

(** Put a character in front of the argument being read. *)
Definition push (c : ascii) (args : list bytes) : list bytes :=
  match args with
  | [] => [[c]]
  | a :: rest => (c :: a) :: rest
  end.

(** What the reader makes of its input: the arguments, and whether it got
    to the end.  It stops at an unmatched quote; the argument it was
    reading is then dropped, so that [([], false)] stands for a quote left
    open in the first argument. *)
Definition reading : Type := list bytes * bool.

Definition push_read (c : ascii) (r : reading) : reading :=
  match r with
  | ([], false) => ([], false)
  | (args, ok) => (push c args, ok)
  end.

(** The argument being read ends here. *)
Definition end_argument (r : reading) : reading := ([] :: r.1, r.2).

(** The arguments read from [s] in mode [m]; outside [Space] the first one
    continues the argument being read. *)
Fixpoint xargs_read (m : mode) (s : bytes) : reading :=
  match s with
  | [] =>
      match m with
      | Space => ([], true)
      | Norm | Escaped => ([[]], true)
      | Quoted _ => ([], false)
      end
  | c :: s' =>
      match m with
      | Quoted q =>
          if decide (c = nl) then ([], false)
          else if decide (c = q) then xargs_read Norm s'
          else push_read c (xargs_read (Quoted q) s')
      | Escaped => push_read c (xargs_read Norm s')
      | Space =>
          if is_space c then xargs_read Space s'
          else if decide (c = backslash) then xargs_read Escaped s'
          else if decide (c = squote \/ c = dquote) then
            xargs_read (Quoted c) s'
          else push_read c (xargs_read Norm s')
      | Norm =>
          if ends_argument c then end_argument (xargs_read Space s')
          else if decide (c = backslash) then xargs_read Escaped s'
          else if decide (c = squote \/ c = dquote) then
            xargs_read (Quoted c) s'
          else push_read c (xargs_read Norm s')
      end
  end.

(** [... | xargs tool]: the tool is run once on the arguments read from the
    pipe, also on those read before an unmatched quote, and prints one line
    per name it reports; with a quote left open in the first argument
    nothing is run.  The input is taken to fit one command line, and no
    argument to start with a dash (the tool would read it as an option):
    the paths that [find 'tests'] prints start with [tests/], and the
    properties below are stated for trees in which xargs leaves them
    whole. *)
Definition xargs (tool : list bytes -> list bytes) (input : bytes) : bytes :=
  let '(args, ok) := xargs_read Space input in
  if negb ok && bool_decide (args = []) then [] else unlines (tool args).

(** *** find *)

(** A checked-out tree: the regular files of the workspace, by their path
    relative to it; its directories are those that hold a file, as in a
    checkout. *)
Abbreviation tree := (gmap bytes bytes).

Fixpoint drop_while (f : ascii -> bool) (s : bytes) : bytes :=
  match s with
  | [] => []
  | c :: s' => if f c then drop_while f s' else s
  end.

Fixpoint take_while (f : ascii -> bool) (s : bytes) : bytes :=
  match s with
  | [] => []
  | c :: s' => if f c then c :: take_while f s' else []
  end.

Definition is_slash (c : ascii) : bool := bool_decide (c = slash).

(** The last component of a path. *)
Definition basename (p : bytes) : bytes :=
  reverse (take_while (fun c => negb (is_slash c)) (reverse p)).

(** Shell pattern matching, for patterns of literal characters and [*]. *)
Fixpoint glob (pattern s : bytes) : bool :=
  match pattern with
  | [] => bool_decide (s = [])
  | p :: pattern' =>
      if decide (p = "*"%char) then
        (fix star (s : bytes) : bool :=
           glob pattern' s
           || match s with
              | [] => false
              | _ :: s' => star s'
              end) s
      else
        match s with
        | [] => false
        | c :: s' => bool_decide (p = c) && glob pattern' s'
        end
  end.

Fixpoint starts_with (p s : bytes) : bool :=
  match p, s with
  | [], _ => true
  | a :: p', b :: s' => bool_decide (a = b) && starts_with p' s'
  | _ :: _, [] => false
  end.

(** The directories above a path: what stands before each of its
    slashes. *)
Fixpoint parents (p : bytes) : list bytes :=
  match p with
  | [] => []
  | c :: p' =>
      let above := map (cons c) (parents p') in
      if decide (c = slash) then [] :: above else above
  end.

Definition files (t : tree) : list bytes := map fst (map_to_list t).

Definition directories (t : tree) : list bytes := flat_map parents (files t).

(** [find 'tests' -name 'test_*.py']: the paths below [tests] whose last
    component matches the pattern, one per line.  There is no [-type f]:
    a directory of that name is printed as well.  The lines come in the
    order of the directory entries, which the pipelines sort away. *)
Definition found (name_pattern : bytes) (p : bytes) : bool :=
  starts_with (B "tests/") p && glob name_pattern (basename p).

Definition find_tests (t : tree) : list bytes :=
  List.filter (found (B "test_*.py"))
    (remove_dups (files t ++ directories t)).

Definition find (t : tree) : bytes := unlines (find_tests t).

(** *** grep *)

(** A character that is one byte in every locale and that grep takes for
    text: an ASCII character other than NUL. *)
Definition text_char (c : ascii) : bool :=
  let n := nat_of_ascii c in ((0 <? n) && (n <? 128))%nat.

Definition text (content : bytes) : bool := forallb text_char content.

(** Matching of a basic regular expression made of literal characters and
    of [.], which stands for any one character of the line.  On [text]
    this is grep in every locale; on other contents it is one byte, where
    grep in a UTF-8 locale takes a whole character and no invalid byte,
    and no NUL in any locale. *)
Fixpoint match_here (pattern s : bytes) : bool :=
  match pattern, s with
  | [], _ => true
  | p :: pattern', c :: s' =>
      (bool_decide (p = dot) || bool_decide (p = c)) && match_here pattern' s'
  | _ :: _, [] => false
  end.

Fixpoint match_line (pattern s : bytes) : bool :=
  match_here pattern s
  || match s with
     | [] => false
     | _ :: s' => match_line pattern s'
     end.

(** Does some line of the content match? *)
Definition grep (pattern content : bytes) : bool :=
  existsb (match_line pattern) (lines content).

(** [grep -l pattern file...]: the names of the files with a matching
    line, in the order given; a name that is no file of the tree is
    reported on the error stream only. *)
Definition grep_l (t : tree) (pattern : bytes) (files : list bytes)
    : list bytes :=
  List.filter
    (fun f => match t !! f with
              | Some content => grep pattern content
              | None => false
              end)
    files.

(** *** dirname *)

Definition has_slash (s : bytes) : bool := existsb is_slash s.

(** [dirname name], following GNU coreutils: trailing slashes and the last
    component are removed; a name without directory part gives [.], and the
    root gives [/]. *)
Definition dirname1 (p : bytes) : bytes :=
  let r := drop_while is_slash (reverse p) in
  match r with
  | [] => if bool_decide (p = []) then [dot] else [slash]
  | _ =>
      if has_slash r then
        match drop_while is_slash
                (drop_while (fun c => negb (is_slash c)) r) with
        | [] => [slash]
        | d => reverse d
        end
      else [dot]
  end.

Definition dirname (names : list bytes) : list bytes := map dirname1 names.

(** *** sort -u *)

(** Byte order: the order of [sort] in the C and C.UTF-8 locales. *)
Definition bytes_le (a b : bytes) : Prop :=
  String.le (string_of_list_ascii a) (string_of_list_ascii b).

#[global] Instance bytes_le_dec : RelDecision bytes_le.
Proof. intros a b. unfold bytes_le. apply _. Defined.

(** Keep the first of each run of equal lines. *)
Fixpoint uniq (ls : list bytes) : list bytes :=
  match ls with
  | [] => []
  | x :: rest =>
      match rest with
      | [] => [x]
      | y :: _ => if decide (x = y) then uniq rest else x :: uniq rest
      end
  end.

Definition sort_u (input : bytes) : bytes :=
  unlines (uniq (merge_sort bytes_le (lines input))).

(** *** jq *)

(** [jq -R . | jq -cs .] turns the lines into one JSON array of strings,
    which [fromJson] in the workflow turns back into the list.  The lines
    are taken to be valid UTF-8, as every ASCII line is: jq replaces an
    invalid byte by U+FFFD. *)
Definition json_array (input : bytes) : list bytes := lines input.

(** *** The two pipelines of prep-testbed *)

(** [find 'tests' -name 'test_*.py' | xargs grep -l 'def test_'
     | xargs dirname | sort -u | jq -R . | jq -cs .] *)
Definition core_tests_matrix (t : tree) : list bytes :=
  json_array
    (sort_u
       (xargs dirname
          (xargs (grep_l t (B "def test_")) (find t)))).

(** [find 'tests' -name 'test_*.py' | xargs grep -l 'def test_'
     | xargs grep -l 'pytest.mark.gpu' | xargs dirname | sort -u
     | jq -R . | jq -cs .] *)
Definition cuda_tests_matrix (t : tree) : list bytes :=
  json_array
    (sort_u
       (xargs dirname
          (xargs (grep_l t (B "pytest.mark.gpu"))
             (xargs (grep_l t (B "def test_")) (find t))))).

(** *** The tools on concrete inputs *)

Example dirname1_examples :
  map dirname1
    (map B ["a/b/c"; "a"; ""; "/"; "/a"; "a/"; "a//b//"; "///"; "/a/b"])
  = map B ["a/b"; "."; "."; "/"; "/"; "."; "a"; "/"; "/a"].
Proof. vm_compute. reflexivity. Qed.

Example xargs_read_quotes :
  xargs_read Space (B "a  'b c' d\ e ''  f")
  = (map B ["a"; "b c"; "d e"; ""; "f"], true).
Proof. vm_compute. reflexivity. Qed.

Example xargs_read_unmatched :
  xargs_read Space (B "it's") = ([], false)
  /\ xargs_read Space (B "a b 'c") = (map B ["a"; "b"], false).
Proof. vm_compute. by split. Qed.

(** A return, a vertical tab or a form feed is skipped before an argument
    and kept inside one. *)
Example xargs_read_return :
  xargs_read Space [ "013"%char; "a"%char; "013"%char; " "%char; "b"%char ]
  = ([ [ "a"%char; "013"%char ]; B "b" ], true).
Proof. vm_compute. reflexivity. Qed.

Example glob_test_files :
  map (glob (B "test_*.py"))
    (map B ["test_a.py"; "test_.py"; "test.py"; "conftest.py"; "test_a.pyc"])
  = [true; true; false; false; false].
Proof. vm_compute. reflexivity. Qed.

Example grep_dot_is_any_character :
  grep (B "pytest.mark.gpu") (B "x = pytest_mark_gpu") = true.
Proof. vm_compute. reflexivity. Qed.

Example lines_of_text :
  lines [ "a"%char; nl; nl; "b"%char; nl ] = [B "a"; []; B "b"].
Proof. vm_compute. reflexivity. Qed.

(** *** Facts about lines *)

Lemma lines_line (l rest : bytes) :
  nl ∉ l -> lines (l ++ nl :: rest) = l :: lines rest.
Proof.
  induction l as [|c l IH]; intros Hnl; simpl.
  - reflexivity.
  - apply not_elem_of_cons in Hnl as [Hc Hl].
    rewrite decide_False by congruence. by rewrite IH.
Qed.

Lemma lines_unlines (ls : list bytes) :
  Forall (fun l => nl ∉ l) ls -> lines (unlines ls) = ls.
Proof.
  induction 1 as [|l ls Hl Hls IH]; simpl; [done|].
  by rewrite lines_line, IH.
Qed.

(** *** Facts about the reader of xargs *)

(** Characters that the reader of xargs copies into an argument. *)
Definition ordinary (c : ascii) : bool :=
  negb (is_space c)
  && negb (bool_decide (c = backslash))
  && negb (bool_decide (c = squote))
  && negb (bool_decide (c = dquote)).

(** Names that pass through xargs unchanged: not empty, without white
    space, quotes or backslashes. *)
Definition plainb (s : bytes) : bool :=
  negb (bool_decide (s = [])) && forallb ordinary s.

Definition plain (s : bytes) : Prop := plainb s = true.

Lemma ordinary_spec (c : ascii) :
  ordinary c = true ->
  is_space c = false /\ c <> backslash /\ ~ (c = squote \/ c = dquote).
Proof.
  unfold ordinary. rewrite !andb_true_iff, !negb_true_iff.
  rewrite !bool_decide_eq_false. tauto.
Qed.

Lemma ordinary_not_nl (l : bytes) : forallb ordinary l = true -> nl ∉ l.
Proof.
  intros Hl Hin. apply list_elem_of_In in Hin.
  rewrite forallb_forall in Hl. by apply Hl in Hin.
Qed.

Lemma plain_not_nl (l : bytes) : plain l -> nl ∉ l.
Proof.
  unfold plain, plainb. rewrite andb_true_iff. intros [_ Hl].
  by apply ordinary_not_nl.
Qed.

Lemma ends_argument_space (c : ascii) :
  is_space c = false -> ends_argument c = false.
Proof.
  destruct c as [[] [] [] [] [] [] [] []]; vm_compute; congruence.
Qed.

Lemma xargs_read_ordinary (c : ascii) (m : mode) (s : bytes) :
  ordinary c = true -> m = Space \/ m = Norm ->
  xargs_read m (c :: s) = push_read c (xargs_read Norm s).
Proof.
  intros (Hsp & Hb & Hq)%ordinary_spec [-> | ->]; simpl;
    rewrite ?Hsp, ?(ends_argument_space c Hsp), decide_False, decide_False
      by done; reflexivity.
Qed.

Lemma xargs_read_norm_line (l rest : bytes) :
  forallb ordinary l = true ->
  xargs_read Norm (l ++ nl :: rest)
  = (l :: (xargs_read Space rest).1, (xargs_read Space rest).2).
Proof.
  induction l as [|c l IH]; simpl app; intros Hl.
  - reflexivity.
  - simpl in Hl. apply andb_true_iff in Hl as [Hc Hl].
    rewrite xargs_read_ordinary by auto. by rewrite IH.
Qed.

Lemma xargs_read_space_line (l rest : bytes) :
  plain l ->
  xargs_read Space (l ++ nl :: rest)
  = (l :: (xargs_read Space rest).1, (xargs_read Space rest).2).
Proof.
  unfold plain, plainb. destruct l as [|c l]; [done|]. simpl app.
  intros [Hc Hl]%andb_true_iff. simpl in Hl.
  apply andb_true_iff in Hl as [Hc' Hl].
  rewrite xargs_read_ordinary by auto.
  by rewrite xargs_read_norm_line.
Qed.

Lemma xargs_read_unlines (ls : list bytes) :
  Forall plain ls -> xargs_read Space (unlines ls) = (ls, true).
Proof.
  induction 1 as [|l ls Hl Hls IH]; simpl; [done|].
  by rewrite xargs_read_space_line, IH.
Qed.

Lemma xargs_plain (tool : list bytes -> list bytes) (ls : list bytes) :
  Forall plain ls -> xargs tool (unlines ls) = unlines (tool ls).
Proof. intros Hls. unfold xargs. by rewrite xargs_read_unlines. Qed.

(** *** Facts about dirname *)

Lemma elem_of_drop_while (f : ascii -> bool) (s : bytes) (c : ascii) :
  c ∈ drop_while f s -> c ∈ s.
Proof.
  induction s as [|a s IH]; simpl; [done|].
  destruct (f a); [|done]. intros H. right. by apply IH.
Qed.

Lemma dirname1_chars (p : bytes) (c : ascii) :
  c ∈ dirname1 p -> c ∈ p \/ c = dot \/ c = slash.
Proof.
  unfold dirname1.
  destruct (drop_while is_slash (reverse p)) as [|a r] eqn:Hr.
  - destruct (bool_decide (p = []));
      intros ->%list_elem_of_singleton; auto.
  - destruct (has_slash (a :: r)); [|intros ->%list_elem_of_singleton; auto].
    destruct (drop_while is_slash
                (drop_while (fun c => negb (is_slash c)) (a :: r)))
      as [|b d] eqn:Hd; [intros ->%list_elem_of_singleton; auto|].
    intros Hc. rewrite elem_of_reverse in Hc. left.
    rewrite <- Hd in Hc. do 2 apply elem_of_drop_while in Hc.
    rewrite <- Hr in Hc. apply elem_of_drop_while in Hc.
    by rewrite elem_of_reverse in Hc.
Qed.

Lemma dirname1_not_nl (p : bytes) : nl ∉ p -> nl ∉ dirname1 p.
Proof.
  intros Hp [H|[H|H]]%dirname1_chars; [done|discriminate..].
Qed.

(** *** Facts about sort -u *)

#[global] Instance bytes_le_po : PartialOrder bytes_le.
Proof.
  unfold bytes_le. split; [split|].
  - intros a. reflexivity.
  - intros a b c Hab Hbc. by etrans.
  - intros a b Hab Hba.
    assert (H : string_of_list_ascii a = string_of_list_ascii b)
      by (by apply (anti_symm String.le)).
    rewrite <- (list_ascii_of_string_of_list_ascii a),
      <- (list_ascii_of_string_of_list_ascii b). by rewrite H.
Qed.

#[global] Instance bytes_le_total : Total bytes_le.
Proof. intros a b. unfold bytes_le. apply (total String.le). Qed.

Lemma elem_of_uniq (x : bytes) (ls : list bytes) : x ∈ uniq ls <-> x ∈ ls.
Proof.
  induction ls as [|a [|b ls] IH]; [done..|].
  change (uniq (a :: b :: ls)) with
    (if decide (a = b) then uniq (b :: ls) else a :: uniq (b :: ls)).
  destruct (decide (a = b)) as [->|Hab].
  - rewrite IH, !elem_of_cons. tauto.
  - rewrite elem_of_cons, IH, !elem_of_cons. tauto.
Qed.

Lemma uniq_sorted (ls : list bytes) :
  StronglySorted bytes_le ls -> StronglySorted bytes_le (uniq ls) /\ NoDup (uniq ls).
Proof.
  induction ls as [|a [|b ls] IH]; intros Hs.
  - split; constructor.
  - split; [done|]. apply NoDup_singleton.
  - change (uniq (a :: b :: ls)) with
      (if decide (a = b) then uniq (b :: ls) else a :: uniq (b :: ls)).
    apply StronglySorted_cons in Hs as [Ha Hs].
    destruct (IH Hs) as [IHs IHn].
    destruct (decide (a = b)) as [->|Hab]; [done|]. split.
    + apply StronglySorted_cons. split; [|done].
      apply Forall_forall. intros x Hx. rewrite elem_of_uniq in Hx.
      rewrite Forall_forall in Ha. by apply Ha.
    + apply NoDup_cons. split; [|done].
      intros Hin. rewrite elem_of_uniq in Hin.
      apply StronglySorted_cons in Hs as [Hb _].
      rewrite Forall_forall in Ha, Hb.
      apply elem_of_cons in Hin as [Hin|Hin]; [done|].
      apply Hab, (anti_symm bytes_le); [apply Ha; left|by apply Hb].
Qed.

Lemma sort_u_plain (ls : list bytes) :
  Forall (fun l => nl ∉ l) ls ->
  json_array (sort_u (unlines ls)) = uniq (merge_sort bytes_le ls).
Proof.
  intros Hls. unfold json_array, sort_u.
  rewrite (lines_unlines ls Hls). apply lines_unlines.
  apply Forall_forall. intros l Hl. rewrite elem_of_uniq in Hl.
  rewrite merge_sort_Permutation in Hl.
  rewrite Forall_forall in Hls. by apply Hls.
Qed.

Lemma lines_not_nl (s : bytes) : Forall (fun l => nl ∉ l) (lines s).
Proof.
  induction s as [|c s IH]; simpl; [constructor|].
  destruct (decide (c = nl)) as [->|Hc].
  - constructor; [apply not_elem_of_nil|done].
  - destruct (lines s) as [|l ls]; constructor.
    + intros [E|H]%elem_of_cons; [congruence|by apply not_elem_of_nil in H].
    + constructor.
    + apply Forall_cons in IH as [Hl _].
      intros [E|H]%elem_of_cons; [congruence|done].
    + by apply Forall_cons in IH as [_ Hls].
Qed.

(** What leaves [sort -u | jq -R . | jq -cs .], whatever enters. *)
Lemma sorted_lines (s : bytes) :
  json_array (sort_u s) = uniq (merge_sort bytes_le (lines s)).
Proof.
  unfold json_array, sort_u. apply lines_unlines.
  apply Forall_forall. intros l Hl. rewrite elem_of_uniq in Hl.
  rewrite merge_sort_Permutation in Hl.
  pose proof (lines_not_nl s) as Hs. rewrite Forall_forall in Hs.
  by apply Hs.
Qed.

Lemma matrix_sorted (s : bytes) :
  StronglySorted bytes_le (json_array (sort_u s))
  /\ NoDup (json_array (sort_u s)).
Proof.
  rewrite sorted_lines. apply uniq_sorted.
  apply StronglySorted_merge_sort; apply _.
Qed.

Lemma elem_of_grep_l (t : tree) (pattern : bytes) (files : list bytes)
    (f : bytes) :
  f ∈ grep_l t pattern files
  <-> f ∈ files
      /\ exists content, t !! f = Some content /\ grep pattern content = true.
Proof.
  unfold grep_l. rewrite !list_elem_of_In, filter_In.
  destruct (t !! f) as [content|]; split.
  - intros [Hf Hg]. split; [done|]. by exists content.
  - intros [Hf (c & [= <-] & Hg)]. by split.
  - by intros [_ ?].
  - by intros [_ (c & ? & _)].
Qed.

Lemma grep_l_Forall (P : bytes -> Prop) (t : tree) (pattern : bytes)
    (files : list bytes) :
  Forall P files -> Forall P (grep_l t pattern files).
Proof.
  rewrite !Forall_forall. intros H f [Hf _]%elem_of_grep_l. by apply H.
Qed.

Lemma elem_of_parents (p d : bytes) :
  d ∈ parents p <-> exists rest, p = d ++ slash :: rest.
Proof.
  revert d. induction p as [|c p IH]; intros d; simpl.
  - split; [by intros ?%elem_of_nil|]. intros [rest H]. by destruct d.
  - assert (d ∈ map (cons c) (parents p)
            <-> exists d' rest, d = c :: d' /\ p = d' ++ slash :: rest) as Hmap.
    { rewrite list_elem_of_fmap. split.
      - intros (d' & -> & [rest ->]%IH). by exists d', rest.
      - intros (d' & rest & -> & ->). exists d'. split; [done|].
        apply IH. by exists rest. }
    destruct (decide (c = slash)) as [->|Hc].
    + rewrite elem_of_cons, Hmap. split.
      * intros [->|(d' & rest & -> & ->)]; [by exists p|by exists rest].
      * intros [rest H]. destruct d as [|a d]; [by left|right].
        injection H as <- ->. by exists d, rest.
    + rewrite Hmap. split.
      * intros (d' & rest & -> & ->). by exists rest.
      * intros [rest H]. destruct d as [|a d]; [simpl in H; congruence|].
        injection H as <- ->. by exists d, rest.
Qed.

(** A file of the tree, or a directory that holds one. *)
Definition in_tree (t : tree) (p : bytes) : Prop :=
  is_Some (t !! p)
  \/ exists file rest, is_Some (t !! file) /\ file = p ++ slash :: rest.

Lemma elem_of_files (t : tree) (p : bytes) : p ∈ files t <-> is_Some (t !! p).
Proof.
  unfold files. rewrite list_elem_of_fmap. split.
  - intros ([p' c] & -> & Hin%elem_of_map_to_list). by exists c.
  - intros [c Hc]. exists (p, c). split; [done|].
    by apply elem_of_map_to_list.
Qed.

Lemma elem_of_directories (t : tree) (d : bytes) :
  d ∈ directories t
  <-> exists file rest, is_Some (t !! file) /\ file = d ++ slash :: rest.
Proof.
  unfold directories. rewrite list_elem_of_In, in_flat_map. split.
  - intros (file & Hfile%list_elem_of_In%elem_of_files
                 & [rest ->]%list_elem_of_In%elem_of_parents).
    by exists (d ++ slash :: rest), rest.
  - intros (file & rest & Hfile & ->). exists (d ++ slash :: rest).
    split; apply list_elem_of_In; [by apply elem_of_files|].
    apply elem_of_parents. by exists rest.
Qed.

Lemma elem_of_find_tests (t : tree) (p : bytes) :
  p ∈ find_tests t
  <-> found (B "test_*.py") p = true /\ in_tree t p.
Proof.
  unfold find_tests, in_tree.
  rewrite list_elem_of_In, filter_In, <- list_elem_of_In.
  rewrite elem_of_remove_dups, elem_of_app, elem_of_files,
    elem_of_directories. tauto.
Qed.

(** The end of both pipelines, on plain names. *)
Lemma dirname_sorted (names : list bytes) :
  Forall plain names ->
  json_array (sort_u (xargs dirname (unlines names)))
  = uniq (merge_sort bytes_le (map dirname1 names)).
Proof.
  intros Hnames. rewrite xargs_plain by done. unfold dirname.
  apply sort_u_plain. apply Forall_fmap.
  eapply Forall_impl; [exact Hnames|]. intros p Hp. simpl.
  by apply dirname1_not_nl, plain_not_nl.
Qed.

Lemma core_tests_matrix_plain (t : tree) (args : list bytes) :
  xargs_read Space (find t) = (args, true) -> Forall plain args ->
  core_tests_matrix t
  = uniq (merge_sort bytes_le
            (map dirname1 (grep_l t (B "def test_") args))).
Proof.
  intros Hread Hargs. unfold core_tests_matrix.
  unfold xargs at 2. rewrite Hread. cbn [negb andb].
  by apply dirname_sorted, grep_l_Forall.
Qed.

Lemma cuda_tests_matrix_plain (t : tree) (args : list bytes) :
  xargs_read Space (find t) = (args, true) -> Forall plain args ->
  cuda_tests_matrix t
  = uniq (merge_sort bytes_le
            (map dirname1
               (grep_l t (B "pytest.mark.gpu")
                  (grep_l t (B "def test_") args)))).
Proof.
  intros Hread Hargs. unfold cuda_tests_matrix.
  unfold xargs at 3. rewrite Hread. cbn [negb andb].
  rewrite (xargs_plain (grep_l t (B "pytest.mark.gpu")))
    by by apply grep_l_Forall.
  by apply dirname_sorted, grep_l_Forall, grep_l_Forall.
Qed.

Lemma elem_of_sorted_dirnames (names : list bytes) (d : bytes) :
  d ∈ uniq (merge_sort bytes_le (map dirname1 names))
  <-> exists p, p ∈ names /\ dirname1 p = d.
Proof.
  rewrite elem_of_uniq, merge_sort_Permutation, list_elem_of_fmap.
  split; intros (p & H1 & H2); exists p; by split.
Qed.

(** *** Literal patterns *)

(** [needle] occurs in [hay] as a run of consecutive bytes. *)
Definition contains (needle hay : bytes) : Prop :=
  exists pre post, hay = pre ++ needle ++ post.

Fixpoint occurs (needle hay : bytes) : bool :=
  starts_with needle hay
  || match hay with
     | [] => false
     | _ :: hay' => occurs needle hay'
     end.

Lemma starts_with_spec (p s : bytes) :
  starts_with p s = true <-> exists post, s = p ++ post.
Proof.
  revert s. induction p as [|a p IH]; intros s; simpl.
  - split; [by exists s|done].
  - destruct s as [|b s]; [split; [done|by intros [? ?]]|].
    rewrite andb_true_iff, bool_decide_eq_true, IH. split.
    + intros [-> [post ->]]. by exists post.
    + intros [post [= -> ->]]. split; [done|by exists post].
Qed.

Lemma occurs_spec (needle hay : bytes) :
  occurs needle hay = true <-> contains needle hay.
Proof.
  unfold contains. induction hay as [|c hay IH]; simpl.
  - rewrite orb_false_r, starts_with_spec. split.
    + intros [post H]. by exists [], post.
    + intros ([|? ?] & post & H); [by exists post|done].
  - rewrite orb_true_iff, starts_with_spec, IH. split.
    + intros [[post H]|(pre & post & ->)]; [by exists [], post|].
      by exists (c :: pre), post.
    + intros ([|a pre] & post & H); [left; by exists post|].
      right. injection H as -> ->. by exists pre, post.
Qed.

(** A pattern without [.] matches only itself. *)
Definition literal (pattern : bytes) : bool :=
  forallb (fun c => negb (bool_decide (c = dot))) pattern.

Lemma match_here_literal (pattern s : bytes) :
  literal pattern = true -> match_here pattern s = starts_with pattern s.
Proof.
  revert s. induction pattern as [|p pattern IH]; intros s Hlit; [done|].
  simpl in Hlit. apply andb_true_iff in Hlit as [Hp Hlit].
  destruct s as [|c s]; [done|]. simpl. rewrite IH by done.
  apply negb_true_iff in Hp. by rewrite Hp.
Qed.

Lemma match_line_literal (pattern s : bytes) :
  literal pattern = true -> match_line pattern s = occurs pattern s.
Proof.
  intros Hlit. induction s as [|c s IH]; simpl;
    rewrite match_here_literal by done; [done|]. by rewrite IH.
Qed.

Lemma lines_first (needle post : bytes) :
  needle <> [] -> nl ∉ needle ->
  exists l ls, lines (needle ++ post) = (needle ++ l) :: ls.
Proof.
  induction needle as [|c needle IH]; [done|]. intros _ Hnl.
  apply not_elem_of_cons in Hnl as [Hc Hnl]. simpl.
  rewrite decide_False by congruence.
  destruct needle as [|c' needle].
  - simpl. destruct (lines post) as [|l ls]; [by exists [], []|].
    by exists l, ls.
  - destruct (IH ltac:(done) Hnl) as (l & ls & ->). by exists l, ls.
Qed.

Lemma contains_some_line (needle hay : bytes) :
  needle <> [] -> nl ∉ needle ->
  contains needle hay -> exists l, l ∈ lines hay /\ contains needle l.
Proof.
  intros Hne Hnl (pre & post & ->).
  induction pre as [|c pre IH].
  - destruct (lines_first needle post Hne Hnl) as (l & ls & Hl).
    exists (needle ++ l). simpl. rewrite Hl. split; [left|].
    by exists [], l.
  - destruct IH as (l & Hin & pre' & post' & ->). simpl.
    destruct (decide (c = nl)); [exists (pre' ++ needle ++ post')|].
    { split; [by right|]. by exists pre', post'. }
    destruct (lines (pre ++ needle ++ post)) as [|l0 ls];
      [by apply elem_of_nil in Hin|].
    apply elem_of_cons in Hin as [<-|Hin].
    + exists (c :: pre' ++ needle ++ post'). split; [left|].
      by exists (c :: pre'), post'.
    + exists (pre' ++ needle ++ post'). split; [by right|].
      by exists pre', post'.
Qed.

Lemma lines_head (hay l0 : bytes) (ls : list bytes) :
  lines hay = l0 :: ls -> exists post, hay = l0 ++ post.
Proof.
  revert l0 ls. induction hay as [|c hay IH]; intros l0 ls; simpl; [done|].
  destruct (decide (c = nl)).
  - intros [= <- _]. by exists (c :: hay).
  - destruct (lines hay) as [|l1 ls'] eqn:Hlines.
    + intros [= <- _]. by exists hay.
    + intros [= <- _]. destruct (IH l1 ls' eq_refl) as [post ->].
      by exists post.
Qed.

Lemma line_is_part (l hay : bytes) :
  l ∈ lines hay -> contains l hay.
Proof.
  unfold contains. revert l.
  induction hay as [|c hay IH]; intros l; simpl.
  - by intros ?%elem_of_nil.
  - destruct (decide (c = nl)) as [->|Hc].
    + intros [->|Hin]%elem_of_cons; [by exists [], (nl :: hay)|].
      destruct (IH l Hin) as (pre & post & ->).
      by exists (nl :: pre), post.
    + destruct (lines hay) as [|l1 ls] eqn:Hlines.
      * intros ->%list_elem_of_singleton. by exists [], hay.
      * intros [->|Hin]%elem_of_cons.
        -- destruct (lines_head hay l1 ls Hlines) as [post ->].
           by exists [], post.
        -- destruct (IH l ltac:(by right)) as (pre & post & ->).
           by exists (c :: pre), post.
Qed.

Lemma contains_trans (a b c : bytes) :
  contains a b -> contains b c -> contains a c.
Proof.
  intros (pre & post & ->) (pre' & post' & ->).
  exists (pre' ++ pre), (post ++ post'). by rewrite <- !app_assoc.
Qed.

(** For a pattern of literal characters on one line, [grep] finds the files
    that contain it. *)
Lemma grep_literal (pattern content : bytes) :
  literal pattern = true -> pattern <> [] -> nl ∉ pattern ->
  grep pattern content = true <-> contains pattern content.
Proof.
  intros Hlit Hne Hnl. unfold grep. rewrite existsb_exists. split.
  - intros (l & Hin%list_elem_of_In & Hl).
    rewrite match_line_literal, occurs_spec in Hl by done.
    eapply contains_trans; [exact Hl|by apply line_is_part].
  - intros (l & Hin & Hl)%contains_some_line; [|done..].
    exists l. split; [by apply list_elem_of_In|].
    by rewrite match_line_literal, occurs_spec.
Qed.

Lemma grep_def_test (content : bytes) :
  grep (B "def test_") content = true <-> contains (B "def test_") content.
Proof.
  apply grep_literal; [reflexivity|discriminate|].
  intros Hin. by repeat (apply elem_of_cons in Hin as [Hin|Hin];
                          [discriminate|]); apply elem_of_nil in Hin.
Qed.

End Shell.

(** ** The test matrices and the coverage artifact (remote-ci.yml) *)

Module Testbed.
Import Shell.

(** Characters of file names that the shell and xargs leave alone:
    letters, digits, [.], [_], [-], and the separator [/]. *)
Definition portable_char (c : ascii) : bool :=
  let n := nat_of_ascii c in
  ((48 <=? n) && (n <=? 57) || (65 <=? n) && (n <=? 90)
   || (97 <=? n) && (n <=? 122))%nat
  || bool_decide (c = dot) || bool_decide (c = "_"%char)
  || bool_decide (c = "-"%char) || bool_decide (c = slash).

Definition portable (p : bytes) : bool :=
  negb (bool_decide (p = [])) && forallb portable_char p.

(** The outputs of the job [prep-testbed]. *)
Record outputs : Type :=
  mkOutputs {
    artifact_id : bytes;
    core_matrix : list bytes;
    cuda_matrix : list bytes
  }.

(** [uuid] is what [uuidgen] prints in the run. *)
Definition prep_testbed (t : tree) (uuid : bytes) : outputs :=
  mkOutputs uuid (core_tests_matrix t) (cuda_tests_matrix t).

(** The two matrix jobs, [test-core] and [test-cuda]. *)
Inductive kind : Type := Core | Cuda.

#[global] Instance kind_eq_dec : EqDecision kind.
Proof. solve_decision. Defined.

Definition kind_name (k : kind) : bytes :=
  match k with
  | Core => B "core"
  | Cuda => B "cuda"
  end.

Definition matrix_output (k : kind) (o : outputs) : list bytes :=
  match k with
  | Core => core_matrix o
  | Cuda => cuda_matrix o
  end.

(** One job of a matrix: [matrix.tests-path] is its entry. *)
Record matrix_job : Type :=
  mkMatrixJob { mj_kind : kind; mj_tests_path : bytes }.

(** [strategy.matrix.tests-path: fromJson(...)]: one job per entry. *)
Definition matrix_jobs (k : kind) (o : outputs) : list matrix_job :=
  map (mkMatrixJob k) (matrix_output k o).

(** [echo path | tr "/" .], for a path of portable characters (the shell
    would expand other characters of the unquoted path). *)
Definition tr_slash_dot (p : bytes) : bytes :=
  map (fun c => if decide (c = slash) then dot else c) p.

(** [COVERAGE_NAME=.coverage.core.$( echo path | tr "/" . )], and the same
    with [cuda]. *)
Definition coverage_name (j : matrix_job) : bytes :=
  B ".coverage." ++ kind_name (mj_kind j) ++ dot
    :: tr_slash_dot (mj_tests_path j).

(** GitHub fails a job whose matrix has no entry when it evaluates the
    strategy, and no job of that matrix runs. *)
Definition matrix_fails (o : outputs) : bool :=
  bool_decide (core_matrix o = []) || bool_decide (cuda_matrix o = []).

Section Jobs.
Context {data : Type}.

(** The coverage data that [make test] (or [make test-cuda]) leaves for a
    tests path, [None] when the tests fail. *)
Variable run_tests : kind -> bytes -> option data.

Definition test_result (j : matrix_job) : option data :=
  run_tests (mj_kind j) (mj_tests_path j).

(** The [Test] and [Upload coverage] steps of one job, on the files of the
    artifact [coverage-<artifact-id>]; when the tests fail the upload is
    skipped.  A file uploaded under a name already present replaces it. *)
Definition run_matrix_job (artifact : gmap bytes data) (j : matrix_job)
    : Actions.conclusion * gmap bytes data :=
  match test_result j with
  | Some coverage =>
      (Actions.success, <[coverage_name j := coverage]> artifact)
  | None => (Actions.failure, artifact)
  end.

(** The jobs of the matrices, in the order in which they finish
    ([fail-fast: false]: a failure stops no other job). *)
Fixpoint run_matrix (artifact : gmap bytes data) (jobs : list matrix_job)
    : list Actions.conclusion * gmap bytes data :=
  match jobs with
  | [] => ([], artifact)
  | j :: rest =>
      let '(c, artifact') := run_matrix_job artifact j in
      let '(cs, artifact'') := run_matrix artifact' rest in
      (c :: cs, artifact'')
  end.

(** [coverage combine -a .coverage*]: the files that the pattern selects. *)
Definition combined (files : gmap bytes data) : gmap bytes data :=
  filter (fun kv => glob (B ".coverage*") kv.1 = true) files.

(** [get-coverage] needs the test jobs: it is skipped unless all of them
    succeeded; it downloads the artifact and combines the coverage files. *)
Definition get_coverage (needed : list Actions.conclusion)
    (artifact : gmap bytes data) : option (gmap bytes data) :=
  if forallb (fun c => bool_decide (c = Actions.success)) needed
  then Some (combined artifact)
  else None.

Definition test_jobs (o : outputs) : list matrix_job :=
  matrix_jobs Core o ++ matrix_jobs Cuda o.

(** From the outputs of [prep-testbed] to what [get-coverage] combines;
    [None] when it is skipped, which it also is when [test-core] or
    [test-cuda] fails for want of a matrix entry. *)
Definition coverage_run (o : outputs) : option (gmap bytes data) :=
  if matrix_fails o then None
  else
    let '(conclusions, artifact) := run_matrix ∅ (test_jobs o) in
    get_coverage conclusions artifact.

End Jobs.

(** The artifact that an upload or download step names. *)
Definition artifact_name (s : Actions.step) : option Actions.template :=
  match Actions.step_action s with
  | Actions.Uses name inputs =>
      if Text.starts_with "actions/upload-artifact@" name
         || Text.starts_with "actions/download-artifact@" name
      then Actions.input "name" inputs
      else None
  | Actions.Run _ => None
  end.

(** In the workflow file the two test jobs take their matrices from the
    outputs of [prep-testbed], upload to one artifact, and [get-coverage],
    which needs them, downloads that artifact. *)
Example coverage_artifact_shared :
  Actions.job_matrix Actions.test_core
  = Some ("tests-path",
          ["needs"; "prep-testbed"; "outputs"; "core-tests-matrix"])
  /\ Actions.job_matrix Actions.test_cuda
     = Some ("tests-path",
             ["needs"; "prep-testbed"; "outputs"; "cuda-tests-matrix"])
  /\ omap artifact_name (Actions.job_steps Actions.test_core)
     = omap artifact_name (Actions.job_steps Actions.get_coverage)
  /\ omap artifact_name (Actions.job_steps Actions.test_cuda)
     = omap artifact_name (Actions.job_steps Actions.get_coverage)
  /\ Actions.job_needs Actions.get_coverage
     = ["prep-testbed"; "test-core"; "test-cuda"].
Proof. repeat split; reflexivity. Qed.

(** *** Plain and portable names *)

Lemma portable_char_ordinary (c : ascii) :
  portable_char c = true -> ordinary c = true.
Proof.
  destruct c as [[] [] [] [] [] [] [] []]; vm_compute; congruence.
Qed.

Lemma portable_plain (p : bytes) : portable p = true -> plain p.
Proof.
  unfold portable, plain, plainb. rewrite !andb_true_iff.
  intros [Hne Hall]. split; [done|].
  rewrite forallb_forall in *. intros c Hc.
  by apply portable_char_ordinary, Hall.
Qed.

Lemma dirname1_portable (p : bytes) :
  portable p = true -> portable (dirname1 p) = true.
Proof.
  unfold portable. rewrite !andb_true_iff, !negb_true_iff.
  rewrite !bool_decide_eq_false. intros [Hne Hall]. split.
  - unfold dirname1.
    destruct (drop_while is_slash (reverse p)) as [|a r];
      [by destruct (bool_decide (p = []))|].
    destruct (has_slash (a :: r)); [|done].
    destruct (drop_while is_slash (drop_while _ (a :: r))) as [|b d];
      [done|].
    intros H%(f_equal length). rewrite length_reverse in H. done.
  - rewrite forallb_forall in *. intros c Hc%list_elem_of_In.
    apply dirname1_chars in Hc as [Hc%list_elem_of_In| [-> | ->]]; auto.
Qed.

(** *** The matrices of a tree with plain test paths *)

Definition is_test_file (t : tree) (p content : bytes) : Prop :=
  t !! p = Some content /\ found (B "test_*.py") p = true.

Lemma find_tests_read (t : tree) :
  (forall p, p ∈ find_tests t -> plain p) ->
  xargs_read Space (find t) = (find_tests t, true)
  /\ Forall plain (find_tests t).
Proof.
  intros Ht. assert (H : Forall plain (find_tests t))
    by (by apply Forall_forall).
  split; [by apply xargs_read_unlines|done].
Qed.

Lemma elem_of_core_matrix (t : tree) (d : bytes) :
  (forall p, p ∈ find_tests t -> plain p) ->
  d ∈ core_tests_matrix t
  <-> exists p content,
        is_test_file t p content
        /\ contains (B "def test_") content
        /\ dirname1 p = d.
Proof.
  intros [Hread Hplain]%find_tests_read.
  rewrite (core_tests_matrix_plain t _ Hread Hplain).
  rewrite elem_of_sorted_dirnames. unfold is_test_file. split.
  - intros (p & (Hp & c & Hc & Hg)%elem_of_grep_l & Hd).
    apply elem_of_find_tests in Hp as [Hf _].
    exists p, c. by rewrite <- grep_def_test.
  - intros (p & c & [Hc Hf] & Hg & Hd). exists p. split; [|done].
    apply elem_of_grep_l. split.
    + apply elem_of_find_tests. split; [done|]. left. by exists c.
    + exists c. by rewrite grep_def_test.
Qed.

Lemma elem_of_cuda_matrix (t : tree) (d : bytes) :
  (forall p, p ∈ find_tests t -> plain p) ->
  d ∈ cuda_tests_matrix t
  <-> exists p content,
        is_test_file t p content
        /\ contains (B "def test_") content
        /\ grep (B "pytest.mark.gpu") content = true
        /\ dirname1 p = d.
Proof.
  intros [Hread Hplain]%find_tests_read.
  rewrite (cuda_tests_matrix_plain t _ Hread Hplain).
  rewrite elem_of_sorted_dirnames. unfold is_test_file. split.
  - intros (p & (Hp & c & Hc & Hg)%elem_of_grep_l & Hd).
    apply elem_of_grep_l in Hp as (Hp & c' & Hc' & Hg').
    assert (c' = c) as -> by congruence.
    apply elem_of_find_tests in Hp as [Hf _].
    exists p, c. by rewrite <- grep_def_test.
  - intros (p & c & [Hc Hf] & Hg & Hgpu & Hd). exists p. split; [|done].
    apply elem_of_grep_l. split; [|by exists c].
    apply elem_of_grep_l. split.
    + apply elem_of_find_tests. split; [done|]. left. by exists c.
    + exists c. by rewrite grep_def_test.
Qed.

(** *** The coverage artifact *)

Section JobFacts.
Context {data : Type}.
Variable run_tests : kind -> bytes -> option data.

Abbreviation test_result' := (test_result run_tests).
Abbreviation run_matrix' := (run_matrix run_tests).

Lemma run_matrix_cons (a : gmap bytes data) (j : matrix_job)
    (rest : list matrix_job) :
  run_matrix' a (j :: rest)
  = ((run_matrix_job run_tests a j).1
       :: (run_matrix' (run_matrix_job run_tests a j).2 rest).1,
     (run_matrix' (run_matrix_job run_tests a j).2 rest).2).
Proof.
  simpl. destruct (run_matrix_job run_tests a j) as [c a']. simpl.
  by destruct (run_matrix run_tests a' rest).
Qed.

Lemma run_matrix_conclusions (jobs : list matrix_job) :
  forall a,
    (forall j, j ∈ jobs -> is_Some (test_result' j)) ->
    forallb (fun c => bool_decide (c = Actions.success))
      (run_matrix' a jobs).1 = true.
Proof.
  induction jobs as [|j rest IH]; intros a Hall; [done|].
  rewrite run_matrix_cons. simpl. rewrite IH.
  - destruct (Hall j ltac:(left)) as [d Hd].
    unfold run_matrix_job. by rewrite Hd.
  - intros j' Hj'. apply Hall. by right.
Qed.

Lemma run_matrix_lookup_other (jobs : list matrix_job) (n : bytes) :
  forall a,
    n ∉ map coverage_name jobs ->
    (run_matrix' a jobs).2 !! n = a !! n.
Proof.
  induction jobs as [|j rest IH]; intros a Hn; [done|].
  rewrite run_matrix_cons. simpl in *.
  apply not_elem_of_cons in Hn as [Hj Hrest]. rewrite IH by done.
  unfold run_matrix_job. destruct (test_result run_tests j); [|done].
  simpl. by rewrite lookup_insert_ne.
Qed.

Lemma run_matrix_lookup (jobs : list matrix_job) :
  forall a j,
    (forall j, j ∈ jobs -> is_Some (test_result' j)) ->
    j ∈ jobs ->
    exists j', j' ∈ jobs /\ coverage_name j' = coverage_name j
      /\ (run_matrix' a jobs).2 !! coverage_name j = test_result' j'.
Proof.
  induction jobs as [|j0 rest IH]; intros a j Hall Hj;
    [by apply elem_of_nil in Hj|].
  rewrite run_matrix_cons. simpl.
  destruct (decide (coverage_name j ∈ map coverage_name rest)) as [Hin|Hout].
  - apply list_elem_of_fmap in Hin as (j1 & Hname & Hj1).
    destruct (IH (run_matrix_job run_tests a j0).2 j1) as (j' & Hj' & Hn & Hl);
      [intros j2 Hj2; apply Hall; by right|done|].
    exists j'. split; [by right|]. rewrite Hname. by split.
  - rewrite run_matrix_lookup_other by done.
    apply elem_of_cons in Hj as [->|Hj].
    + exists j0. split; [left|]. split; [done|].
      destruct (Hall j0 ltac:(left)) as [d Hd].
      unfold run_matrix_job. rewrite Hd. simpl. by rewrite lookup_insert_eq.
    + exfalso. apply Hout, list_elem_of_fmap. by exists j.
Qed.

Lemma glob_star_nil (s : bytes) : glob [ "*"%char ] s = true.
Proof.
  induction s as [|c s IH]; [done|]. simpl in *. by rewrite IH.
Qed.

Lemma coverage_name_selected (j : matrix_job) :
  glob (B ".coverage*") (coverage_name j) = true.
Proof. unfold coverage_name. simpl. apply glob_star_nil. Qed.

Lemma run_matrix_names (jobs : list matrix_job) (n : bytes) :
  forall a,
    is_Some ((run_matrix' a jobs).2 !! n) ->
    is_Some (a !! n) \/ n ∈ map coverage_name jobs.
Proof.
  induction jobs as [|j rest IH]; intros a Hn; [by left|].
  rewrite run_matrix_cons in Hn. simpl in Hn.
  apply IH in Hn as [Hn|Hn]; [|right; by right].
  unfold run_matrix_job in Hn. destruct (test_result run_tests j);
    [|by left]. simpl in Hn.
  destruct (decide (coverage_name j = n)) as [<-|Hne]; [right; left|].
  left. by rewrite lookup_insert_ne in Hn.
Qed.

Lemma combined_run_matrix (jobs : list matrix_job) :
  combined (run_matrix' ∅ jobs).2 = (run_matrix' ∅ jobs).2.
Proof.
  apply map_filter_id. intros n d Hn. simpl.
  destruct (run_matrix_names jobs n ∅) as [[? H]|H]; [by exists d|done|].
  apply list_elem_of_fmap in H as (j & -> & _).
  apply coverage_name_selected.
Qed.

(** When every test job passes, [get-coverage] runs and combines, for each
    job, a file of that job's coverage name, left by a job of that name. *)
Lemma coverage_run_combines (o : outputs) :
  matrix_fails o = false ->
  (forall j, j ∈ test_jobs o -> is_Some (test_result' j)) ->
  exists files,
    coverage_run run_tests o = Some files
    /\ forall j, j ∈ test_jobs o ->
         exists j', j' ∈ test_jobs o
           /\ coverage_name j' = coverage_name j
           /\ files !! coverage_name j = test_result' j'.
Proof.
  intros Hmatrix Hall. exists (run_matrix' ∅ (test_jobs o)).2. split.
  - unfold coverage_run, get_coverage. rewrite Hmatrix.
    pose proof (run_matrix_conclusions (test_jobs o) ∅ Hall) as Hc.
    destruct (run_matrix run_tests ∅ (test_jobs o)) as [cs a] eqn:Hrun.
    simpl in Hc. rewrite Hc. f_equal.
    change a with (cs, a).2. rewrite <- Hrun. apply combined_run_matrix.
  - intros j Hj. by apply run_matrix_lookup.
Qed.

End JobFacts.

(** *** Sample trees *)

Definition tree_of (files : list (string * string)) : tree :=
  list_to_map (map (fun '(p, c) => (B p, B c)) files).

(** A tree with unit tests, GPU tests, a helper and a file outside
    [tests]. *)
Definition sample_tree : tree :=
  tree_of
    [("tests/unit/test_a.py", "def test_a(): pass");
     ("tests/unit/test_b.py", "@pytest.mark.gpu def test_b(): pass");
     ("tests/integration/gpu/test_c.py", "def test_c(): pytest.mark.gpu");
     ("tests/unit/helper.py", "def test_no");
     ("tests/conftest.py", "def test_x");
     ("src/test_x.py", "def test_")].

(** A test file in a directory whose name holds a blank. *)
Definition spaced_tree : tree :=
  tree_of [("tests/my dir/test_a.py", "def test_x(): pass")].

(** A test file that mentions the marker with other separators. *)
Definition marker_tree : tree :=
  tree_of [("tests/test_a.py", "def test_x(): pass # pytest_mark_gpu")].

(** Directory names with quotes and backslashes: xargs reads the first
    path as the second, and the second as the third. *)
Definition quoted_tree : tree :=
  tree_of
    [("tests/\'a\ b\'/test_t.py", "");
     ("tests/'a b'/test_t.py", "def test_x(): pass");
     ("tests/a b/test_t.py", "pytest.mark.gpu")].

Lemma forallb_elem_of {A : Type} (f : A -> bool) (l : list A) :
  forallb f l = true -> forall x, x ∈ l -> f x = true.
Proof.
  rewrite forallb_forall. intros H x Hx. by apply H, list_elem_of_In.
Qed.

(** *** The matrices *)

(** C3, amended: for a tree whose test paths (those that find prints) are
    made of letters, digits, [.], [_], [-] and [/] and whose test files
    hold ASCII text without NUL: the core matrix is the
    sorted, duplicate-free list of the directories of the files below tests
    that are named test_*.py and contain def test_; the CUDA matrix is the
    sorted, duplicate-free list of the directories of those of these files
    that also have a line matching the pattern pytest.mark.gpu, whose dots
    stand for any character; test-core and test-cuda have one job per entry;
    when neither matrix is empty and all these jobs pass, get-coverage
    combines for each of them a file of the job's coverage name; and when a
    matrix is empty, its job fails and get-coverage is skipped. *)
Theorem testbed_matrices_and_coverage {data : Type}
    (run_tests : kind -> bytes -> option data) (t : tree) (uuid : bytes) :
  (forall p, p ∈ find_tests t -> portable p = true) ->
  (forall p content, is_test_file t p content -> text content = true) ->
  let o := prep_testbed t uuid in
  (StronglySorted bytes_le (core_matrix o) /\ NoDup (core_matrix o)
   /\ forall d,
        d ∈ core_matrix o
        <-> exists p content,
              is_test_file t p content
              /\ contains (B "def test_") content
              /\ dirname1 p = d)
  /\ (StronglySorted bytes_le (cuda_matrix o) /\ NoDup (cuda_matrix o)
      /\ forall d,
           d ∈ cuda_matrix o
           <-> exists p content,
                 is_test_file t p content
                 /\ contains (B "def test_") content
                 /\ grep (B "pytest.mark.gpu") content = true
                 /\ dirname1 p = d)
  /\ (map mj_tests_path (matrix_jobs Core o) = core_matrix o
      /\ map mj_tests_path (matrix_jobs Cuda o) = cuda_matrix o
      /\ forall j, j ∈ test_jobs o -> portable (mj_tests_path j) = true)
  /\ (core_matrix o <> [] -> cuda_matrix o <> [] ->
      (forall j, j ∈ test_jobs o -> is_Some (test_result run_tests j)) ->
      exists files,
        coverage_run run_tests o = Some files
        /\ forall j, j ∈ test_jobs o ->
             glob (B ".coverage*") (coverage_name j) = true
             /\ exists j', j' ∈ test_jobs o
                  /\ coverage_name j' = coverage_name j
                  /\ files !! coverage_name j = test_result run_tests j')
  /\ (core_matrix o = [] \/ cuda_matrix o = [] ->
      coverage_run run_tests o = None).
Proof.
  intros Hportable _ o.
  assert (Hplain : forall p, p ∈ find_tests t -> plain p)
    by (intros p Hp; by apply portable_plain, Hportable).
  assert (Hdir : forall p content,
             is_test_file t p content -> portable (dirname1 p) = true).
  { intros p content [Hc Hf]. apply dirname1_portable, Hportable.
    apply elem_of_find_tests. split; [done|]. left. by exists content. }
  split; [|split; [|split; [|split]]].
  - destruct (matrix_sorted
                (xargs dirname (xargs (grep_l t (B "def test_")) (find t))))
      as [Hs Hn].
    repeat split; [exact Hs|exact Hn|apply elem_of_core_matrix, Hplain
                   |apply elem_of_core_matrix, Hplain].
  - destruct (matrix_sorted
                (xargs dirname
                   (xargs (grep_l t (B "pytest.mark.gpu"))
                      (xargs (grep_l t (B "def test_")) (find t)))))
      as [Hs Hn].
    repeat split; [exact Hs|exact Hn|apply elem_of_cuda_matrix, Hplain
                   |apply elem_of_cuda_matrix, Hplain].
  - unfold matrix_jobs. rewrite <- !list_fmap_compose.
    split; [apply list_fmap_id|]. split; [apply list_fmap_id|].
    intros j [Hj|Hj]%elem_of_app;
      apply list_elem_of_fmap in Hj as (d & -> & Hd); simpl in *.
    + apply elem_of_core_matrix in Hd as (p & c & Hf & _ & <-); eauto.
    + apply elem_of_cuda_matrix in Hd as (p & c & Hf & _ & _ & <-); eauto.
  - intros Hcore Hcuda Hall.
    assert (Hmatrix : matrix_fails o = false).
    { unfold matrix_fails.
      by rewrite !bool_decide_eq_false_2. }
    destruct (coverage_run_combines run_tests o Hmatrix Hall)
      as (files & Hrun & Hf).
    exists files. split; [done|]. intros j Hj.
    split; [apply coverage_name_selected|by apply Hf].
  - intros Hempty. unfold coverage_run.
    assert (matrix_fails o = true) as ->; [|done].
    unfold matrix_fails. apply orb_true_iff.
    destruct Hempty as [H|H]; [left|right]; by apply bool_decide_eq_true.
Qed.

Lemma testbed_matrices_and_coverage_witness :
  exists files,
    coverage_run (fun _ _ => Some tt) (prep_testbed sample_tree (B "1f0e"))
    = Some files.
Proof.
  destruct (testbed_matrices_and_coverage
              (fun _ _ => Some tt) sample_tree (B "1f0e"))
    as (_ & _ & _ & Hcov & _).
  - apply forallb_elem_of. vm_compute. reflexivity.
  - intros p content [Hc _]. revert p content Hc.
    apply (bool_decide_unpack
             (map_Forall (fun _ content => text content = true)
                sample_tree)).
    vm_compute. reflexivity.
  - destruct Hcov as (files & Hrun & _).
    + vm_compute. discriminate.
    + vm_compute. discriminate.
    + intros j _. by exists tt.
    + by exists files.
Defined.

(** C3 as stated fails: a directory with a blank in its name holds a test
    file with def test_ and is missing from the core matrix; and a directory
    enters the CUDA matrix although no file of the tree contains
    pytest.mark.gpu. *)
Lemma matrices_not_exact :
  (is_test_file spaced_tree (B "tests/my dir/test_a.py")
     (B "def test_x(): pass")
   /\ contains (B "def test_") (B "def test_x(): pass")
   /\ dirname1 (B "tests/my dir/test_a.py") = B "tests/my dir"
   /\ core_tests_matrix spaced_tree = [])
  /\ (cuda_tests_matrix marker_tree = [B "tests"]
      /\ forall p content,
           marker_tree !! p = Some content ->
           ~ contains (B "pytest.mark.gpu") content).
Proof.
  split; [split; [split|split; [|split]]|split].
  - vm_compute. reflexivity.
  - vm_compute. reflexivity.
  - apply occurs_spec. vm_compute. reflexivity.
  - vm_compute. reflexivity.
  - vm_compute. reflexivity.
  - vm_compute. reflexivity.
  - intros p content Hp. unfold marker_tree, tree_of in Hp. simpl in Hp.
    apply lookup_insert_Some in Hp as [[_ <-]|[_ Hp]];
      [|by rewrite lookup_empty in Hp].
    rewrite <- occurs_spec. vm_compute. discriminate.
Qed.

(** C10, amended: when every path that find prints is made of letters,
    digits, [.], [_], [-] and [/], every directory of the CUDA tests matrix
    is a directory of the core tests matrix. *)
Theorem cuda_matrix_subset_of_core (t : tree) :
  (forall p, p ∈ find_tests t -> portable p = true) ->
  forall d, d ∈ cuda_tests_matrix t -> d ∈ core_tests_matrix t.
Proof.
  intros Ht d.
  destruct (find_tests_read t) as [Hread Hargs].
  { intros p Hp. by apply portable_plain, Ht. }
  rewrite (cuda_tests_matrix_plain t _ Hread Hargs).
  rewrite (core_tests_matrix_plain t _ Hread Hargs).
  rewrite !elem_of_sorted_dirnames.
  intros (p & [Hp _]%elem_of_grep_l & Hd). by exists p.
Qed.

Lemma cuda_matrix_subset_of_core_witness :
  B "tests/unit" ∈ core_tests_matrix sample_tree.
Proof.
  apply (cuda_matrix_subset_of_core sample_tree).
  - apply forallb_elem_of. vm_compute. reflexivity.
  - vm_compute. right. left.
Defined.

(** C10 as stated fails: with quotes and backslashes in directory names the
    CUDA matrix holds directories that the core matrix lacks. *)
Lemma cuda_matrix_outside_core :
  cuda_tests_matrix quoted_tree = [B "b"; B "tests"]
  /\ core_tests_matrix quoted_tree = [B "tests/a b"]
  /\ ~ (forall d, d ∈ cuda_tests_matrix quoted_tree ->
                  d ∈ core_tests_matrix quoted_tree).
Proof.
  assert (Hcuda : cuda_tests_matrix quoted_tree = [B "b"; B "tests"])
    by (vm_compute; reflexivity).
  assert (Hcore : core_tests_matrix quoted_tree = [B "tests/a b"])
    by (vm_compute; reflexivity).
  split; [done|]. split; [done|].
  intros H. specialize (H (B "b")). rewrite Hcuda, Hcore in H.
  specialize (H ltac:(left)). apply list_elem_of_singleton in H.
  discriminate H.
Qed.

End Testbed.

(** ** The code cells of the notebooks *)

Module Notebook.

(** The calls into the Finetuner client and docarray that the notebooks are
    built around; every other external call is [Other]. *)
Inductive api : Type :=
| Login | Pull | Fit | StreamLogs | SaveArtifact | GetModel | BuildModel
| Encode | Match
| Other (what : string).

#[global] Instance api_eq_dec : EqDecision api.
Proof. solve_decision. Defined.

(** Python values, as far as the cells build them; what an external call
    returns is known only by the number of the call. *)
Inductive value : Type :=
| VNone
| VBool (b : bool)
| VInt (n : Z)
| VFloat (literal : string)
| VStr (s : string)
| VTuple (items : list value)
| VList (items : list value)
| VKeyword (name : string) (v : value)
| VModule (name : string)
| VAttr (object : value) (name : string)
| VIndex (object : value) (i : Z)
| VCompare (left right : value)
| VResult (call : nat)
| VItem (iterator : value) (i : nat).

Inductive exn : Type :=
| NameError (name : string)
| AssertionError
| ExternalError (call : nat).

Inductive outcome (A : Type) : Type :=
| Ok (a : A)
| Raised (e : exn).

Arguments Ok {A} _.
Arguments Raised {A} _.

(** What the cells cannot decide: whether the external call number [k]
    returns or raises, how many items the iterator returned by call [k]
    yields, and whether a value counts as true. *)
Record world : Type :=
  mkWorld {
    succeeds : nat -> bool;
    item_count : nat -> nat;
    truth : value -> bool
  }.

(** The state of the kernel: the global names, the external calls made so
    far, and what has been printed. *)
Record state : Type :=
  mkState {
    globals : gmap string value;
    calls : list api;
    stdout : list value
  }.

Definition initial : state := mkState ∅ [] [].

Definition M (A : Type) : Type := world -> state -> outcome A * state.

Definition ret {A : Type} (a : A) : M A := fun _ st => (Ok a, st).

Definition bind {A B : Type} (m : M A) (f : A -> M B) : M B :=
  fun w st =>
    match m w st with
    | (Ok a, st') => f a w st'
    | (Raised e, st') => (Raised e, st')
    end.

Notation "'let!' x ':=' m 'in' k" := (bind m (fun x => k))
  (at level 10, x name, k at level 200).

Definition andthen {A B : Type} (m : M A) (k : M B) : M B :=
  bind m (fun _ => k).

(** *** Primitive operations *)

(** Reading a global name. *)
Definition name (n : string) : M value :=
  fun _ st =>
    (match globals st !! n with
     | Some v => Ok v
     | None => Raised (NameError n)
     end, st).

(** Binding a global name. *)
Definition store (n : string) (v : value) : M unit :=
  fun _ st => (Ok tt, mkState (<[n := v]> (globals st)) (calls st) (stdout st)).

(** An external call: it is recorded, and returns or raises as the world
    decides. *)
Definition external (a : api) (arguments : list value) : M value :=
  fun w st =>
    let k := length (calls st) in
    (if succeeds w k then Ok (VResult k) else Raised (ExternalError k),
     mkState (globals st) (calls st ++ [a]) (stdout st)).

(** [!command]: a failing command raises nothing. *)
Definition shell (command : string) : M unit :=
  fun _ st =>
    (Ok tt, mkState (globals st) (calls st ++ [Other "!"]) (stdout st)).

Definition print (m : M value) : M unit :=
  let! v := m in
  fun _ st => (Ok tt, mkState (globals st) (calls st) (stdout st ++ [v])).

(** The items that iterating over a value yields. *)
Definition iterate (v : value) : M (list value) :=
  fun w st =>
    (Ok match v with
        | VResult k => map (VItem v) (seq 0 (item_count w k))
        | _ => []
        end, st).

Definition assert_ (m : M value) : M unit :=
  let! v := m in
  fun w st => (if truth w v then Ok tt else Raised AssertionError, st).

(** *** Expressions and statements *)

(** Arguments are evaluated from left to right. *)
Fixpoint evaluate (ms : list (M value)) : M (list value) :=
  match ms with
  | [] => ret []
  | m :: rest => let! v := m in let! vs := evaluate rest in ret (v :: vs)
  end.

Definition lit (v : value) : M value := ret v.
Definition str (s : string) : M value := ret (VStr s).
Definition int (n : Z) : M value := ret (VInt n).

Definition attr (m : M value) (a : string) : M value :=
  let! v := m in ret (VAttr v a).

Definition index (m : M value) (i : Z) : M value :=
  let! v := m in ret (VIndex v i).

Definition kw (n : string) (m : M value) : M value :=
  let! v := m in ret (VKeyword n v).

Definition list_ (ms : list (M value)) : M value :=
  let! vs := evaluate ms in ret (VList vs).

Definition tuple_ (ms : list (M value)) : M value :=
  let! vs := evaluate ms in ret (VTuple vs).

Definition equals (m1 m2 : M value) : M value :=
  let! v1 := m1 in let! v2 := m2 in ret (VCompare v1 v2).

(** [f(args)]: the callee, then the arguments, then the call. *)
Definition call (a : api) (f : M value) (ms : list (M value)) : M value :=
  let! fv := f in let! vs := evaluate ms in external a (fv :: vs).

Definition expr (m : M value) : M unit := andthen m (ret tt).

Definition assign (n : string) (m : M value) : M unit :=
  let! v := m in store n v.

Definition import (module : string) : M unit :=
  andthen (external (Other "import") [VStr module])
    (store module (VModule module)).

Fixpoint store_from (module : string) (names : list string) : M unit :=
  match names with
  | [] => ret tt
  | n :: rest =>
      andthen (store n (VAttr (VModule module) n)) (store_from module rest)
  end.

Definition from_import (module : string) (names : list string) : M unit :=
  andthen (external (Other "import") [VStr module])
    (store_from module names).

(** [for target in items: body] *)
Fixpoint for_ (target : string) (items : list value) (body : M unit)
    : M unit :=
  match items with
  | [] => ret tt
  | x :: rest =>
      andthen (store target x) (andthen body (for_ target rest body))
  end.

Definition for_in (target : string) (m : M value) (body : M unit) : M unit :=
  let! v := m in let! items := iterate v in for_ target items body.

(** A cell is a sequence of statements. *)
Fixpoint cell (statements : list (M unit)) : M unit :=
  match statements with
  | [] => ret tt
  | [s] => s
  | s :: (_ :: _) as rest => andthen s (cell rest)
  end.

(** Running cells one after the other: an exception ends its cell and
    leaves the bindings made so far. *)
Fixpoint run_cells (w : world) (cells : list (M unit)) (st : state) : state :=
  match cells with
  | [] => st
  | c :: rest => run_cells w rest (c w st).2
  end.

(** [Run All]: the cells in order, up to the first exception. *)
Fixpoint run_all (cells : list (M unit)) : M unit :=
  match cells with
  | [] => ret tt
  | c :: rest => andthen c (run_all rest)
  end.

(** *** Cells shared by the notebooks *)

Definition true_ : M value := lit (VBool true).

(** [import finetuner], [from docarray import DocumentArray, Document],
    [finetuner.login(force=True)] *)
Definition login_cell : M unit :=
  cell
    [ import "finetuner";
      from_import "docarray" ["DocumentArray"; "Document"];
      expr (call Login (attr (name "finetuner") "login") [kw "force" true_]) ].

(** [target = DocumentArray.pull(dataset, show_progress=True)] *)
Definition pull (target dataset : string) : M unit :=
  assign target
    (call Pull (attr (name "DocumentArray") "pull")
       [str dataset; kw "show_progress" true_]).

Definition summary : M unit :=
  expr (call (Other "summary") (attr (name "train_data") "summary") []).

(** [for entry in run.stream_logs(): print(entry)] *)
Definition monitor_cell : M unit :=
  cell
    [ for_in "entry" (call StreamLogs (attr (name "run") "stream_logs") [])
        (print (name "entry")) ].

(** [artifact = run.save_artifact(model_name)] *)
Definition save_cell (model_name : string) : M unit :=
  cell
    [ assign "artifact"
        (call SaveArtifact (attr (name "run") "save_artifact")
           [str model_name]) ].

Definition get_model (arguments : list (M value)) : M value :=
  call GetModel (attr (name "finetuner") "get_model") arguments.

(** [finetuner.encode(model=model, data=data)] *)
Definition encode (model data : string) : M unit :=
  expr (call Encode (attr (name "finetuner") "encode")
          [kw "model" (name model); kw "data" (name data)]).

Definition evaluation_callback (arguments : list (M value)) : M value :=
  call (Other "EvaluationCallback") (name "EvaluationCallback") arguments.

(** The inference cell of the two CLIP notebooks. *)
Definition clip_inference_cell (text text_encoder image_encoder : string)
    : M unit :=
  cell
    [ assign "text_da"
        (call (Other "DocumentArray") (name "DocumentArray")
           [list_ [call (Other "Document") (name "Document")
                     [kw "text" (str text)]]]);
      assign "image_da"
        (call (Other "DocumentArray") (name "DocumentArray")
           [list_ [call (Other "Document") (name "Document")
                     [kw "uri"
                        (str "https://upload.wikimedia.org/wikipedia/commons/4/4e/Single_apple.png")]]]);
      assign text_encoder
        (get_model [kw "artifact" (name "artifact");
                    kw "select_model" (str "clip-text")]);
      assign image_encoder
        (get_model [kw "artifact" (name "artifact");
                    kw "select_model" (str "clip-vision")]);
      encode text_encoder "text_da";
      encode image_encoder "image_da";
      print (attr (attr (name "text_da") "embeddings") "shape");
      print (attr (attr (name "image_da") "embeddings") "shape") ].

(** *** Multilingual CLIP notebook *)

Definition mclip : list (M unit) :=
  [ cell [shell "pip install 'finetuner[full]'"];
    login_cell;
    cell [ pull "train_data" "xmarket-de-electronics-train-data";
           pull "eval_data" "xmarket-de-electronics-test-data";
           pull "query_data" "xmarket-de-electronics-query-data";
           pull "index_data" "xmarket-de-electronics-index-data";
           summary ];
    cell [ import "finetuner";
           from_import "finetuner.callback"
             ["EvaluationCallback"; "WandBLogger"];
           assign "run"
             (call Fit (attr (name "finetuner") "fit")
                [ kw "model"
                    (str "xlm-roberta-base-ViT-B-32::laion5b_s13b_b90k");
                  kw "train_data" (name "train_data");
                  kw "eval_data" (name "eval_data");
                  kw "epochs" (int 5);
                  kw "learning_rate" (lit (VFloat "1e-6"));
                  kw "loss" (str "CLIPLoss");
                  kw "device" (str "cpu");
                  kw "callbacks"
                    (list_
                       [ evaluation_callback
                           [ kw "query_data"
                               (str "xmarket-de-electronics-query-data");
                             kw "index_data"
                               (str "xmarket-de-electronics-index-data");
                             kw "model" (str "clip-text");
                             kw "index_model" (str "clip-vision") ];
                         call (Other "WandBLogger") (name "WandBLogger") []
                       ]) ]) ];
    monitor_cell;
    save_cell "mclip-model";
    clip_inference_cell "setwas Text zum Codieren"
      "mclip_text_encoder" "mclip_image_encoder" ].

(** *** CLIP notebook *)

Definition clip : list (M unit) :=
  [ cell [shell "pip install 'finetuner[full]'"];
    login_cell;
    cell [ pull "train_data" "fashion-train-data-clip";
           pull "eval_data" "fashion-eval-data-clip";
           pull "query_data" "fashion-eval-data-queries";
           pull "index_data" "fashion-eval-data-index";
           summary ];
    cell [ from_import "finetuner.callback" ["EvaluationCallback"];
           assign "run"
             (call Fit (attr (name "finetuner") "fit")
                [ kw "model" (str "openai/clip-vit-base-patch32");
                  kw "train_data" (str "fashion-train-data-clip");
                  kw "eval_data" (str "fashion-eval-data-clip");
                  kw "epochs" (int 5);
                  kw "learning_rate" (lit (VFloat "1e-7"));
                  kw "loss" (str "CLIPLoss");
                  kw "device" (str "cuda");
                  kw "callbacks"
                    (list_
                       [ evaluation_callback
                           [ kw "model" (str "clip-text");
                             kw "index_model" (str "clip-vision");
                             kw "query_data"
                               (str "fashion-eval-data-queries");
                             kw "index_data"
                               (str "fashion-eval-data-index") ] ]) ]) ];
    monitor_cell;
    save_cell "clip-model";
    clip_inference_cell "some text to encode"
      "clip_text_encoder" "clip_image_encoder" ].

(** *** PointNet++ notebook *)

(** [query_data.match(index_data, limit=10, metric='cosine')], and the same
    on [query]. *)
Definition match_ (queries : string) : M unit :=
  expr (call Match (attr (name queries) "match")
          [name "index_data"; kw "limit" (int 10);
           kw "metric" (str "cosine")]).

(** [finetuner.encode(model=model, data=data)] with a model named by a
    variable of the cell *)
Definition pointnet_inference_cell : M unit :=
  cell
    [ assign "model"
        (get_model [kw "artifact" (name "artifact");
                    kw "device" (str "cuda")]);
      encode "model" "query_data";
      encode "model" "index_data";
      assert_ (equals (attr (attr (name "query") "embeddings") "shape")
                 (tuple_ [int 1; int 512])) ].

Definition pointnet : list (M unit) :=
  [ cell [ shell "pip install 'finetuner[full]'";
           shell "pip install 'docarray[full]'" ];
    login_cell;
    cell [ pull "train_data" "modelnet40-train";
           pull "query_data" "modelnet40-queries";
           pull "index_data" "modelnet40-index";
           summary ];
    cell [ expr (call (Other "display")
                   (attr (index (name "index_data") 0) "display") []) ];
    cell [ from_import "finetuner.callback" ["EvaluationCallback"];
           assign "run"
             (call Fit (attr (name "finetuner") "fit")
                [ kw "model" (str "pointnet++");
                  kw "train_data" (str "modelnet40-train");
                  kw "epochs" (int 10);
                  kw "batch_size" (int 64);
                  kw "learning_rate" (lit (VFloat "5e-4"));
                  kw "loss" (str "TripletMarginLoss");
                  kw "device" (str "cuda");
                  kw "callbacks"
                    (list_
                       [ evaluation_callback
                           [ kw "query_data" (str "modelnet40-queries");
                             kw "index_data" (str "modelnet40-index");
                             kw "batch_size" (int 64) ] ]) ]) ];
    monitor_cell;
    save_cell "pointnet_model";
    pointnet_inference_cell;
    cell [ match_ "query_data" ];
    cell [ assign "zero_shot_model"
             (call BuildModel (attr (name "finetuner") "build_model")
                [str "pointnet++"]);
           encode "zero_shot_model" "query_data";
           encode "zero_shot_model" "index_data";
           match_ "query_data" ];
    cell [ expr (call (Other "display")
                   (attr (index (name "query_data") 5) "display") []);
           expr (call (Other "display")
                   (attr (index (attr (index (name "query_data") 5)
                                   "matches") 0) "display") []) ] ].

(** *** ResNet notebook (docs/notebooks/image_to_image.ipynb) *)

Definition resnet : list (M unit) :=
  [ cell [shell "pip install 'finetuner[full]'"];
    login_cell;
    cell [ pull "train_data" "tll-train-data";
           pull "query_data" "tll-test-query-data";
           pull "index_data" "tll-test-index-data";
           summary ];
    cell [ from_import "finetuner.callback" ["EvaluationCallback"];
           assign "run"
             (call Fit (attr (name "finetuner") "fit")
                [ kw "model" (str "resnet50");
                  kw "train_data" (str "tll-train-data");
                  kw "batch_size" (int 128);
                  kw "epochs" (int 5);
                  kw "learning_rate" (lit (VFloat "1e-4"));
                  kw "device" (str "cuda");
                  kw "callbacks"
                    (list_
                       [ evaluation_callback
                           [ kw "query_data" (str "tll-test-query-data");
                             kw "index_data" (str "tll-test-index-data") ]
                       ]) ]) ];
    monitor_cell;
    save_cell "resnet-model";
    cell [ assign "query"
             (call (Other "DocumentArray") (name "DocumentArray")
                [list_ [index (name "query_data") 0]]);
           assign "model"
             (get_model [kw "artifact" (name "artifact");
                         kw "device" (str "cuda")]);
           encode "model" "query";
           encode "model" "index_data";
           assert_ (equals (attr (attr (name "query") "embeddings") "shape")
                      (tuple_ [int 1; int 2048])) ];
    cell [ match_ "query" ] ].

(** *** Text-to-text notebook (the second notebook of part_002) *)

Definition bert : list (M unit) :=
  [ cell [shell "pip install 'finetuner[full]'"];
    cell [ import "finetuner";
           from_import "docarray" ["DocumentArray"; "Document"];
           expr (call Login (attr (name "finetuner") "login") []) ];
    cell [ pull "train_data" "quora_train.da";
           pull "query_data" "quora_query_dev.da";
           pull "index_data" "quora_index_dev.da";
           summary ];
    cell [ from_import "finetuner.callback" ["EvaluationCallback"];
           assign "run"
             (call Fit (attr (name "finetuner") "fit")
                [ kw "model" (str "bert-base-cased");
                  kw "train_data" (str "quora_train.da");
                  kw "loss" (str "TripletMarginLoss");
                  kw "optimizer" (str "Adam");
                  kw "learning_rate" (lit (VFloat "1e-5"));
                  kw "epochs" (int 3);
                  kw "batch_size" (int 128);
                  kw "device" (str "cuda");
                  kw "callbacks"
                    (list_
                       [ evaluation_callback
                           [ kw "query_data" (str "quora_query_dev.da");
                             kw "index_data" (str "quora_index_dev.da");
                             kw "batch_size" (int 32) ] ]) ]) ];
    monitor_cell;
    save_cell "bert-model";
    cell [ assign "model"
             (get_model [kw "artifact" (name "artifact");
                         kw "device" (str "cuda")]);
           assign "query"
             (call (Other "DocumentArray") (name "DocumentArray")
                [list_ [call (Other "Document") (name "Document")
                          [kw "text" (str "How can I be an engineer?")]]]);
           encode "model" "query";
           encode "model" "index_data";
           assert_ (equals (attr (attr (name "query") "embeddings") "shape")
                      (tuple_ [int 1; int 768])) ];
    cell [ match_ "query" ] ].


(** Every notebook has the same monitoring cell, after the cell that calls
    [fit]. *)
Example monitoring_cell_everywhere :
  mclip !! 4%nat = Some monitor_cell
  /\ clip !! 4%nat = Some monitor_cell
  /\ pointnet !! 5%nat = Some monitor_cell
  /\ resnet !! 4%nat = Some monitor_cell
  /\ bert !! 4%nat = Some monitor_cell.
Proof. repeat split; reflexivity. Qed.

(** *** Stages *)

Definition is_stage (a : api) : bool :=
  match a with
  | Other _ => false
  | _ => true
  end.

(** Runs of the same call count once. *)
Fixpoint collapse (l : list api) : list api :=
  match l with
  | [] => []
  | a :: rest =>
      match rest with
      | [] => [a]
      | b :: _ => if decide (a = b) then collapse rest else a :: collapse rest
      end
  end.

(** The stages that the cells go through when they are run in order one
    by one, each to its end or to its first exception. *)
Definition stages (w : world) (cells : list (M unit)) : list api :=
  collapse (List.filter is_stage (calls (run_cells w cells initial))).


(** A world in which every external call returns. *)
Definition obliging (item_count : nat -> nat) (truth : value -> bool)
    : world :=
  mkWorld (fun _ => true) item_count truth.

(** *** A program logic for cells *)

(** [safe P E m]: from a state with [P], [m] ends in a state with [P], and
    raises only exceptions that [E] allows, whatever the world does. *)
Definition safe {A : Type} (P : state -> Prop) (E : exn -> bool) (m : M A)
    : Prop :=
  forall w st, P st ->
    P (m w st).2 /\ forall e, (m w st).1 = Raised e -> E e = true.

(** [fails P E m]: from a state with [P], [m] raises an exception that [E]
    allows, whatever the world does. *)
Definition fails {A : Type} (P : state -> Prop) (E : exn -> bool) (m : M A)
    : Prop :=
  forall w st, P st -> exists e, (m w st).1 = Raised e /\ E e = true.

(** Properties of the global names only. *)
Definition on_globals (P : state -> Prop) : Prop :=
  forall g c c' o o', P (mkState g c o) -> P (mkState g c' o').

Section Logic.
Variable P : state -> Prop.
Variable E : exn -> bool.
Hypothesis P_globals : on_globals P.

Lemma safe_ret {A : Type} (a : A) : safe P E (ret a).
Proof. intros w st HP. split; [done|]. intros e [=]. Qed.

Lemma safe_bind {A B : Type} (m : M A) (f : A -> M B) :
  safe P E m -> (forall a, safe P E (f a)) -> safe P E (bind m f).
Proof.
  intros Hm Hf w st HP. unfold bind.
  destruct (Hm w st HP) as [HP' He]. destruct (m w st) as [[a|e] st'].
  - apply Hf, HP'.
  - split; [done|]. intros e' [= <-]. by apply He.
Qed.

Lemma safe_andthen {A B : Type} (m : M A) (k : M B) :
  safe P E m -> safe P E k -> safe P E (andthen m k).
Proof. intros Hm Hk. apply safe_bind; [done|]. by intros _. Qed.

Lemma safe_name (n : string) : E (NameError n) = true -> safe P E (name n).
Proof.
  intros HE w st HP. split; [done|]. simpl.
  destruct (globals st !! n); intros e [= <-]. done.
Qed.

Lemma safe_external (a : api) (arguments : list value) :
  (forall k, E (ExternalError k) = true) -> safe P E (external a arguments).
Proof.
  intros HE w [g c o] HP. split; [by eapply P_globals|]. simpl.
  destruct (succeeds w (length c)); intros e [= <-]. apply HE.
Qed.

Lemma safe_shell (command : string) : safe P E (shell command).
Proof.
  intros w [g c o] HP. split; [by eapply P_globals|]. intros e [=].
Qed.

Lemma safe_print (m : M value) : safe P E m -> safe P E (print m).
Proof.
  intros Hm. apply safe_bind; [done|]. intros v w [g c o] HP.
  split; [by eapply P_globals|]. intros e [=].
Qed.

Lemma safe_iterate (v : value) : safe P E (iterate v).
Proof. intros w st HP. split; [done|]. intros e [=]. Qed.

Lemma safe_assert (m : M value) :
  E AssertionError = true -> safe P E m -> safe P E (assert_ m).
Proof.
  intros HE Hm. apply safe_bind; [done|]. intros v w st HP.
  split; [done|]. simpl. destruct (truth w v); intros e [= <-]. done.
Qed.

Lemma safe_evaluate (ms : list (M value)) :
  Forall (safe P E) ms -> safe P E (evaluate ms).
Proof.
  induction 1 as [|m ms Hm Hms IH]; simpl; [apply safe_ret|].
  apply safe_bind; [done|]. intros v. apply safe_bind; [done|].
  intros vs. apply safe_ret.
Qed.

Lemma safe_lit (v : value) : safe P E (lit v).
Proof. apply safe_ret. Qed.

Lemma safe_str (s : string) : safe P E (str s).
Proof. apply safe_ret. Qed.

Lemma safe_int (n : Z) : safe P E (int n).
Proof. apply safe_ret. Qed.

Lemma safe_attr (m : M value) (a : string) : safe P E m -> safe P E (attr m a).
Proof. intros Hm. apply safe_bind; [done|]. intros v. apply safe_ret. Qed.

Lemma safe_index (m : M value) (i : Z) : safe P E m -> safe P E (index m i).
Proof. intros Hm. apply safe_bind; [done|]. intros v. apply safe_ret. Qed.

Lemma safe_kw (n : string) (m : M value) : safe P E m -> safe P E (kw n m).
Proof. intros Hm. apply safe_bind; [done|]. intros v. apply safe_ret. Qed.

Lemma safe_list (ms : list (M value)) :
  Forall (safe P E) ms -> safe P E (list_ ms).
Proof.
  intros Hms. apply safe_bind; [by apply safe_evaluate|].
  intros vs. apply safe_ret.
Qed.

Lemma safe_tuple (ms : list (M value)) :
  Forall (safe P E) ms -> safe P E (tuple_ ms).
Proof.
  intros Hms. apply safe_bind; [by apply safe_evaluate|].
  intros vs. apply safe_ret.
Qed.

Lemma safe_equals (m1 m2 : M value) :
  safe P E m1 -> safe P E m2 -> safe P E (equals m1 m2).
Proof.
  intros H1 H2. apply safe_bind; [done|]. intros v1.
  apply safe_bind; [done|]. intros v2. apply safe_ret.
Qed.

Lemma safe_call (a : api) (f : M value) (ms : list (M value)) :
  (forall k, E (ExternalError k) = true) ->
  safe P E f -> Forall (safe P E) ms -> safe P E (call a f ms).
Proof.
  intros HE Hf Hms. apply safe_bind; [done|]. intros fv.
  apply safe_bind; [by apply safe_evaluate|]. intros vs.
  by apply safe_external.
Qed.

Lemma safe_expr (m : M value) : safe P E m -> safe P E (expr m).
Proof. intros Hm. apply safe_andthen; [done|apply safe_ret]. Qed.

Lemma safe_cell (statements : list (M unit)) :
  Forall (safe P E) statements -> safe P E (cell statements).
Proof.
  induction 1 as [|s rest Hs Hrest IH]; [apply safe_ret|].
  destruct rest as [|s' rest]; [exact Hs|].
  change (cell (s :: s' :: rest)) with (andthen s (cell (s' :: rest))).
  by apply safe_andthen.
Qed.

Lemma fails_bind_first {A B : Type} (m : M A) (f : A -> M B) :
  fails P E m -> fails P E (bind m f).
Proof.
  intros Hm w st HP. unfold bind. destruct (Hm w st HP) as (e & He & HE).
  destruct (m w st) as [[a|e'] st']; [done|]. simpl in He.
  exists e. by injection He as ->.
Qed.

Lemma fails_bind_then {A B : Type} (m : M A) (f : A -> M B) :
  safe P E m -> (forall a, fails P E (f a)) -> fails P E (bind m f).
Proof.
  intros Hm Hf w st HP. unfold bind. destruct (Hm w st HP) as [HP' He].
  destruct (m w st) as [[a|e] st'].
  - by apply Hf.
  - exists e. split; [done|]. by apply He.
Qed.

Lemma fails_name (n : string) :
  E (NameError n) = true ->
  (forall st, P st -> globals st !! n = None) ->
  fails P E (name n).
Proof.
  intros HE Hn w st HP. exists (NameError n). simpl.
  by rewrite (Hn st HP).
Qed.

Lemma safe_run_cells (cells : list (M unit)) (w : world) (st : state) :
  Forall (safe P E) cells -> P st -> P (run_cells w cells st).
Proof.
  intros Hcells. revert st.
  induction Hcells as [|c rest Hc Hrest IH]; intros st HP; [done|].
  simpl. apply IH. by apply Hc.
Qed.

End Logic.

(** *** Which names can be bound *)

(** Only names of [U] are bound. *)
Definition only (U : list string) (st : state) : Prop :=
  forall n, is_Some (globals st !! n) -> n ∈ U.

Definition any_exn (e : exn) : bool := true.

Definition not_assertion (e : exn) : bool :=
  match e with
  | AssertionError => false
  | _ => true
  end.

Section Names.
Variable U : list string.
Variable E : exn -> bool.

Lemma only_globals : on_globals (only U).
Proof. intros g c c' o o' H. exact H. Qed.

Lemma only_unbound (n : string) (st : state) :
  n ∉ U -> only U st -> globals st !! n = None.
Proof.
  intros Hn HU. destruct (globals st !! n) as [v|] eqn:Hv; [|done].
  exfalso. apply Hn, HU. by rewrite Hv.
Qed.

Lemma only_initial : only U initial.
Proof.
  intros n [v Hv]. change (globals initial) with (∅ : gmap string value) in Hv.
  by rewrite lookup_empty in Hv.
Qed.

Lemma safe_store (n : string) (v : value) :
  n ∈ U -> safe (only U) E (store n v).
Proof.
  intros Hn w st HU. split; [|intros e [=]].
  intros n' [v' Hv']. simpl in Hv'.
  destruct (decide (n = n')) as [<-|Hne]; [done|].
  rewrite lookup_insert_ne in Hv' by done. apply HU. by exists v'.
Qed.

Lemma safe_assign (n : string) (m : M value) :
  n ∈ U -> safe (only U) E m -> safe (only U) E (assign n m).
Proof.
  intros Hn Hm. apply safe_bind; [done|]. intros v. by apply safe_store.
Qed.

Lemma safe_import (module : string) :
  (forall k, E (ExternalError k) = true) -> module ∈ U ->
  safe (only U) E (import module).
Proof.
  intros HE Hn. apply safe_andthen.
  - apply safe_external; [apply only_globals|done].
  - by apply safe_store.
Qed.

Lemma safe_store_from (module : string) (names : list string) :
  Forall (fun n => n ∈ U) names -> safe (only U) E (store_from module names).
Proof.
  induction 1 as [|n names Hn Hnames IH]; simpl; [apply safe_ret|].
  apply safe_andthen; [by apply safe_store|done].
Qed.

Lemma safe_from_import (module : string) (names : list string) :
  (forall k, E (ExternalError k) = true) ->
  Forall (fun n => n ∈ U) names ->
  safe (only U) E (from_import module names).
Proof.
  intros HE Hn. apply safe_andthen.
  - apply safe_external; [apply only_globals|done].
  - by apply safe_store_from.
Qed.

Lemma safe_for (target : string) (items : list value) (body : M unit) :
  target ∈ U -> safe (only U) E body ->
  safe (only U) E (for_ target items body).
Proof.
  intros Ht Hbody. induction items as [|x items IH]; simpl;
    [apply safe_ret|].
  apply safe_andthen; [by apply safe_store|]. by apply safe_andthen.
Qed.

Lemma safe_for_in (target : string) (m : M value) (body : M unit) :
  target ∈ U -> safe (only U) E m -> safe (only U) E body ->
  safe (only U) E (for_in target m body).
Proof.
  intros Ht Hm Hbody. apply safe_bind; [done|]. intros v.
  apply safe_bind; [apply safe_iterate|]. intros items.
  by apply safe_for.
Qed.

End Names.

(** Proves [safe (only U) E m] for a cell written with the combinators. *)
Ltac prove_safe :=
  unfold login_cell, pull, summary, monitor_cell, save_cell, get_model,
    encode, evaluation_callback, clip_inference_cell, match_, true_;
  repeat first
    [ apply safe_cell
    | apply safe_import
    | apply safe_from_import
    | apply safe_andthen
    | apply safe_ret
    | apply safe_store
    | apply safe_external
    | apply safe_assign
    | apply safe_expr
    | apply safe_call
    | apply safe_import
    | apply safe_from_import
    | apply safe_for_in
    | apply safe_print
    | apply safe_assert
    | apply safe_shell
    | apply safe_attr
    | apply safe_index
    | apply safe_kw
    | apply safe_list
    | apply safe_tuple
    | apply safe_equals
    | apply safe_name
    | apply safe_str
    | apply safe_int
    | apply safe_lit
    | apply only_globals
    | match goal with |- Forall _ _ => constructor end
    | match goal with
      | |- _ ∈ _ => apply list_elem_of_In; vm_compute; tauto
      end
    | reflexivity
    | intros ?; reflexivity ].

(** *** The PointNet++ notebook *)

(** The names that the cells before the inference cell can bind. *)
Definition pointnet_names : list string :=
  [ "finetuner"; "DocumentArray"; "Document"; "train_data"; "query_data";
    "index_data"; "EvaluationCallback"; "run"; "entry"; "artifact" ].

Lemma pointnet_before_safe :
  Forall (safe (only pointnet_names) any_exn) (take 7 pointnet).
Proof.
  unfold pointnet. simpl take.
  repeat (apply List.Forall_cons; [prove_safe|]). constructor.
Qed.

Lemma pointnet_inference_fails :
  fails (only ("model" :: pointnet_names)) not_assertion
    pointnet_inference_cell.
Proof.
  unfold pointnet_inference_cell. simpl cell. unfold andthen.
  apply fails_bind_then; [prove_safe|]. intros _.
  apply fails_bind_then; [prove_safe|]. intros _.
  apply fails_bind_then; [prove_safe|]. intros _.
  unfold assert_, equals, attr.
  do 4 apply fails_bind_first.
  apply fails_name; [reflexivity|]. intros st Hst.
  apply (only_unbound ("model" :: pointnet_names)); [|done].
  intros Hin.
  repeat (apply elem_of_cons in Hin as [Hin|Hin]; [discriminate|]).
  by apply elem_of_nil in Hin.
Qed.

(** *** Runs in which every external call returns *)

Lemma run_cells_cons (w : world) (c : M unit) (cells : list (M unit))
    (st : state) :
  run_cells w (c :: cells) st = run_cells w cells (c w st).2.
Proof. reflexivity. Qed.

Lemma run_cells_app (w : world) (cells1 cells2 : list (M unit)) (st : state) :
  run_cells w (cells1 ++ cells2) st = run_cells w cells2 (run_cells w cells1 st).
Proof. revert st. induction cells1 as [|c cells1 IH]; intros st; [done|]. apply IH. Qed.

Lemma for_print_entry (w : world) (items : list value) :
  forall st,
    for_ "entry" items (print (name "entry")) w st
    = (Ok tt,
       mkState
         (match last items with
          | Some x => <["entry" := x]> (globals st)
          | None => globals st
          end)
         (calls st) (stdout st ++ items)).
Proof.
  induction items as [|x items IH]; intros [g c o].
  - simpl. by rewrite app_nil_r.
  - simpl for_. unfold andthen, bind, store, print, bind, name. simpl.
    rewrite lookup_insert_eq, IH. simpl. f_equal. f_equal.
    + destruct items as [|y items]; [reflexivity|].
      change (last (x :: y :: items)) with (last (y :: items)).
      destruct (last (y :: items)) eqn:Hlast;
        [by rewrite insert_insert_eq|by apply last_None in Hlast].
    + by rewrite <- app_assoc.
Qed.

Lemma last_items (v : value) (n : nat) :
  last (map (VItem v) (seq 0 (S n))) = Some (VItem v n).
Proof. rewrite seq_S, map_app. simpl. apply last_snoc. Qed.

(** The monitoring cell in a world where the call returns: the loop binds
    [entry] when there is an entry, and prints every entry. *)
Lemma monitor_cell_obliging (item_count : nat -> nat) (truth : value -> bool)
    (st : state) :
  is_Some (globals st !! "run") ->
  (monitor_cell (obliging item_count truth) st).2
  = mkState
      (match item_count (length (calls st)) with
       | O => globals st
       | S n => <["entry" := VItem (VResult (length (calls st))) n]> (globals st)
       end)
      (calls st ++ [StreamLogs])
      (stdout st
       ++ map (VItem (VResult (length (calls st))))
            (seq 0 (item_count (length (calls st))))).
Proof.
  intros [r Hr]. destruct st as [g c o]. simpl in Hr.
  unfold monitor_cell. simpl cell.
  unfold andthen, for_in, call, attr, bind, name, ret, external, iterate.
  simpl. rewrite Hr. simpl. rewrite for_print_entry. simpl.
  destruct (item_count (length c)) as [|n]; [done|].
  by rewrite last_items.
Qed.

Definition common_stages : list api :=
  [Login; Pull; Fit; StreamLogs; SaveArtifact; GetModel; Encode].

(** Runs a notebook whose monitoring cell is cell number [k]. *)
Ltac run_notebook nb k :=
  unfold stages;
  change nb with (take k nb ++ monitor_cell :: drop (S k) nb);
  rewrite run_cells_app, run_cells_cons;
  rewrite monitor_cell_obliging by (vm_compute; eexists; reflexivity);
  match goal with
  | |- context [ ?f (length ?c) ] => destruct (f (length c))
  end;
  vm_compute; reflexivity.






(** *** Run All when every external call returns *)

Lemma run_all_app (cells1 cells2 : list (M unit)) (w : world) (st : state) :
  run_all (cells1 ++ cells2) w st
  = match run_all cells1 w st with
    | (Ok _, st') => run_all cells2 w st'
    | (Raised e, st') => (Raised e, st')
    end.
Proof.
  revert st. induction cells1 as [|c cells1 IH]; intros st; [done|].
  simpl. unfold andthen, bind.
  destruct (c w st) as [[[]|e] st']; [apply IH|done].
Qed.

Lemma monitor_cell_returns (item_count : nat -> nat) (truth : value -> bool)
    (st : state) :
  is_Some (globals st !! "run") ->
  (monitor_cell (obliging item_count truth) st).1 = Ok tt.
Proof.
  intros [r Hr]. destruct st as [g c o]. simpl in Hr.
  unfold monitor_cell. simpl cell.
  unfold andthen, for_in, call, attr, bind, name, ret, external, iterate.
  simpl. rewrite Hr. simpl. by rewrite for_print_entry.
Qed.

(** Run All through a monitoring cell whose call returns. *)
Lemma run_all_monitor (item_count : nat -> nat) (truth : value -> bool)
    (before after : list (M unit)) :
  let w := obliging item_count truth in
  let st := run_cells w before initial in
  run_all before w initial = (Ok tt, st) ->
  is_Some (globals st !! "run") ->
  run_all (before ++ monitor_cell :: after) w initial
  = run_all after w (monitor_cell w st).2.
Proof.
  intros w st Hbefore Hrun. rewrite run_all_app, Hbefore.
  cbn [run_all]. unfold andthen at 1, bind at 1.
  pose proof (monitor_cell_returns item_count truth st Hrun) as Hok.
  fold w in Hok. destruct (monitor_cell w st) as [o st'].
  simpl in Hok. by subst.
Qed.










Lemma only_weaken (U U' : list string) (st : state) :
  (forall n, n ∈ U -> n ∈ U') -> only U st -> only U' st.
Proof. intros HU Hst n Hn. by apply HU, Hst. Qed.

Lemma pointnet_inference_obliging (item_count : nat -> nat)
    (truth : value -> bool) :
  (pointnet_inference_cell (obliging item_count truth)
     (run_cells (obliging item_count truth) (take 7 pointnet) initial)).1
  = Raised (NameError "query").
Proof.
  change (take 7 pointnet)
    with (take 5 pointnet ++ monitor_cell :: [save_cell "pointnet_model"]).
  rewrite run_cells_app, run_cells_cons.
  rewrite monitor_cell_obliging by (vm_compute; eexists; reflexivity).
  match goal with
  | |- context [ ?f (length ?c) ] => destruct (f (length c))
  end; vm_compute; reflexivity.
Qed.

(** C8: whatever the external calls do, when the code cells of the
    PointNet++ notebook are run in order, the cells before the inference
    cell bind no name outside a list that lacks query; so the inference cell
    raises, and never the assertion's own error: its assert is not checked.
    When every external call returns, what it raises is the NameError for
    query. *)
Theorem pointnet_assert_never_checked (w : world) :
  let before := run_cells w (take 7 pointnet) initial in
  pointnet !! 7%nat = Some pointnet_inference_cell
  /\ only pointnet_names before
  /\ ("query" ∉ pointnet_names)
  /\ (exists e,
        (pointnet_inference_cell w before).1 = Raised e
        /\ e <> AssertionError)
  /\ (forall item_count truth,
        w = obliging item_count truth ->
        (pointnet_inference_cell w before).1 = Raised (NameError "query")).
Proof.
  intros before.
  assert (Honly : only pointnet_names before).
  { apply (safe_run_cells (only pointnet_names) any_exn);
      [apply pointnet_before_safe|apply only_initial]. }
  split; [reflexivity|]. split; [exact Honly|]. split; [|split].
  - intros Hin.
    repeat (apply elem_of_cons in Hin as [Hin|Hin]; [discriminate|]).
    by apply elem_of_nil in Hin.
  - destruct (pointnet_inference_fails w before) as (e & He & HE).
    + eapply only_weaken; [|exact Honly]. intros n Hn. by right.
    + exists e. split; [done|]. by intros ->.
  - intros item_count truth ->. apply pointnet_inference_obliging.
Qed.

End Notebook.

(** * More of the comparison snippets

    What [plot_matches] of the multilingual CLIP notebook shows, the variant
    of the CLIP notebook, and the display loop of the ResNet notebook. *)

Module Comparison.
Import DocArray Py PlotMatches.

Section Snippets.
Context {F : Type}.

Abbreviation query_pair := (Document F * Document F)%type.

(** The pairs whose query text has not occurred before, [seen] holding
    the texts met so far. *)
Fixpoint first_occurrences (seen : gset string) (pairs : list query_pair)
    : list query_pair :=
  match pairs with
  | [] => []
  | (pt_q, ft_q) :: rest =>
      if decide (text pt_q ∈ seen) then first_occurrences seen rest
      else (pt_q, ft_q) :: first_occurrences ({[text pt_q]} ∪ seen) rest
  end.

(** What is shown for one query_pair: the line, then [size] matches of each. *)
Definition shown (size : nat) (p : query_pair) : list (output (F := F)) :=
  [Printed (results_line (text p.1));
   ImageSprites (take size (matches p.1));
   ImageSprites (take size (matches p.2))].

(** Both queries of a pair have a match. *)
Definition has_matches (p : query_pair) : Prop :=
  matches p.1 <> [] /\ matches p.2 <> [].

(** ** [plot_matches] as the notebooks run it

    docarray's [plot_image_sprites] raises [ValueError] on an empty array,
    so a query without matches ends [plot_matches] after its line is
    printed.  The matches are taken to hold images that plot. *)
Inductive plot_result : Type :=
| Plotted (out : list (output (F := F)))
| ValueError (out : list (output (F := F))).

Definition plot_image_sprites (docs : list (Document F))
    (out : list output) : plot_result :=
  match docs with
  | [] => ValueError out
  | _ :: _ => Plotted (out ++ [ImageSprites docs])
  end.

(** How one pass through a loop body ends. *)
Inductive flow : Type :=
| Goes (c : control)
| Raised.

(** [for x in items: body] with a body that may raise; [false] when it
    did. *)
Fixpoint for_each_raising {A S : Type} (body : A -> S -> flow * S)
    (items : list A) (s : S) : bool * S :=
  match items with
  | [] => (true, s)
  | x :: rest =>
      match body x s with
      | (Goes Break, s') => (true, s')
      | (Goes Continue, s') => for_each_raising body rest s'
      | (Raised, s') => (false, s')
      end
  end.

Definition plotted (r : bool * state) : plot_result :=
  if r.1 then Plotted r.2.2 else ValueError r.2.2.

(** The multilingual CLIP notebook's [plot_matches]:
    [if i >= num_samples: break], [i = i - 1] before [continue], and
    [matches[:1]]. *)
Definition mclip_loop_body (num_samples : Z)
    (item : nat * query_pair) (st : state) : flow * state :=
  let '(k, (pt_q, ft_q)) := item in
  let '(l, out) := st in
  let i := Z.of_nat k in
  if num_samples <=? i then (Goes Break, (mkLocals (Some i) (seen l), out))
  else if decide (text pt_q ∈ seen l) then
    (Goes Continue, (mkLocals (Some (i - 1)) (seen l), out))
  else
    let l := mkLocals (Some i) ({[text pt_q]} ∪ seen l) in
    let out := out ++ [Printed (results_line (text pt_q))] in
    match plot_image_sprites (take 1 (matches pt_q)) out with
    | ValueError out => (Raised, (l, out))
    | Plotted out =>
        match plot_image_sprites (take 1 (matches ft_q)) out with
        | ValueError out => (Raised, (l, out))
        | Plotted out => (Goes Continue, (l, out))
        end
    end.

Definition mclip_plot_matches (num_samples : Z)
    (pt_query ft_query : DocumentArray F) : plot_result :=
  plotted (for_each_raising (mclip_loop_body num_samples)
             (enumerate (zip pt_query ft_query))
             (mkLocals None ∅, [])).

(** The CLIP notebook's [plot_matches]: [if i > num_samples: break],
    no [i = i - 1], and [matches[:4]]. *)
Definition clip_loop_body (num_samples : Z)
    (item : nat * query_pair) (st : state) : flow * state :=
  let '(k, (pt_q, ft_q)) := item in
  let '(l, out) := st in
  let i := Z.of_nat k in
  if num_samples <? i then (Goes Break, (mkLocals (Some i) (seen l), out))
  else if decide (text pt_q ∈ seen l) then
    (Goes Continue, (mkLocals (Some i) (seen l), out))
  else
    let l := mkLocals (Some i) ({[text pt_q]} ∪ seen l) in
    let out := out ++ [Printed (results_line (text pt_q))] in
    match plot_image_sprites (take 4 (matches pt_q)) out with
    | ValueError out => (Raised, (l, out))
    | Plotted out =>
        match plot_image_sprites (take 4 (matches ft_q)) out with
        | ValueError out => (Raised, (l, out))
        | Plotted out => (Goes Continue, (l, out))
        end
    end.

Definition clip_plot_matches (num_samples : Z)
    (pt_query ft_query : DocumentArray F) : plot_result :=
  plotted (for_each_raising (clip_loop_body num_samples)
             (enumerate (zip pt_query ft_query))
             (mkLocals None ∅, [])).

(** The default argument of the CLIP notebook, used by its call
    [plot_matches()]. *)
Definition clip_default_samples : Z := 5.

(** Showing a list of pairs one after the other, [size] matches of each
    model, up to the first query without matches. *)
Fixpoint show_all (size : nat) (pairs : list query_pair)
    (out : list output) : plot_result :=
  match pairs with
  | [] => Plotted out
  | p :: rest =>
      let out := out ++ [Printed (results_line (text p.1))] in
      match plot_image_sprites (take size (matches p.1)) out with
      | ValueError out => ValueError out
      | Plotted out =>
          match plot_image_sprites (take size (matches p.2)) out with
          | ValueError out => ValueError out
          | Plotted out => show_all size rest out
          end
      end
  end.

Definition plot_displayed (r : plot_result) : list output :=
  match r with Plotted out | ValueError out => out end.

(** ** The loop of the ResNet notebook

    [display(Image.open(BytesIO(d.blob)))] shows the image of [d], whose
    blob is taken to hold an image that opens; [d.matches[0]] raises
    [IndexError] on a query without matches. *)
Inductive shown_image : Type :=
| Line (text : string)
| Image (doc : Document F).

Inductive loop_result : Type :=
| Done (out : list shown_image)
| IndexError (out : list shown_image).

Definition query_line : string :=
  String "010" (String "010" "Query:").

Definition displayed (r : loop_result) : list shown_image :=
  match r with Done out | IndexError out => out end.

(** The body of the loop; on [IndexError], what was shown before it. *)
Definition resnet_body (num_samples : Z) (item : nat * query_pair)
    (out : list shown_image) : loop_result :=
  let '(k, (doc_pt, doc_ft)) := item in
  if Z.of_nat k <? num_samples then
    let out := out ++ [Line query_line; Image doc_pt;
                       Line "top match before fine-tuning:"] in
    match matches doc_pt with
    | [] => IndexError out
    | m :: _ =>
        let out := out ++ [Image m; Line "top match after fine-tuning:"] in
        match matches doc_ft with
        | [] => IndexError out
        | m' :: _ => Done (out ++ [Image m'])
        end
    end
  else Done out.

Fixpoint resnet_for (num_samples : Z) (items : list (nat * query_pair))
    (out : list shown_image) : loop_result :=
  match items with
  | [] => Done out
  | item :: rest =>
      match resnet_body num_samples item out with
      | Done out' => resnet_for num_samples rest out'
      | IndexError out' => IndexError out'
      end
  end.

Definition resnet_num_samples : Z := 10.

Definition resnet_loop (query_pt query_ft : DocumentArray F) : loop_result :=
  resnet_for resnet_num_samples (enumerate (zip query_pt query_ft)) [].

(** What the loop shows for a query_pair both of whose queries have a match. *)
Definition resnet_shown (p : query_pair) : list shown_image :=
  match matches p.1, matches p.2 with
  | m :: _, m' :: _ =>
      [Line query_line; Image p.1; Line "top match before fine-tuning:";
       Image m; Line "top match after fine-tuning:"; Image m']
  | _, _ => []
  end.

(** ** Proofs *)

Lemma for_each_first_occurrences num_samples items :
  forall k l out,
    plotted (for_each_raising (mclip_loop_body num_samples)
               (enumerate_from k items) (l, out))
    = show_all 1
        (first_occurrences (seen l) (take (Z.to_nat num_samples - k) items))
        out.
Proof.
  induction items as [|[pt_q ft_q] items IH]; intros k l out.
  - simpl. by rewrite take_nil.
  - simpl. destruct (Z.leb_spec num_samples (Z.of_nat k)) as [Hge|Hlt].
    + by replace (Z.to_nat num_samples - k)%nat with 0%nat by lia.
    + replace (Z.to_nat num_samples - k)%nat
        with (S (Z.to_nat num_samples - S k)) by lia.
      simpl. destruct (decide (text pt_q ∈ seen l)) as [Hin|Hnotin].
      * by rewrite IH.
      * simpl. destruct (matches pt_q) as [|m ms]; [done|]. simpl.
        destruct (matches ft_q) as [|m' ms']; [done|]. simpl.
        by rewrite IH.
Qed.

Lemma for_each_clip num_samples items :
  forall k l out,
    plotted (for_each_raising (clip_loop_body num_samples)
               (enumerate_from k items) (l, out))
    = show_all 4
        (first_occurrences (seen l)
           (take (Z.to_nat (num_samples + 1) - k) items))
        out.
Proof.
  induction items as [|[pt_q ft_q] items IH]; intros k l out.
  - simpl. by rewrite take_nil.
  - simpl. destruct (Z.ltb_spec num_samples (Z.of_nat k)) as [Hlt|Hge].
    + by replace (Z.to_nat (num_samples + 1) - k)%nat with 0%nat by lia.
    + replace (Z.to_nat (num_samples + 1) - k)%nat
        with (S (Z.to_nat (num_samples + 1) - S k)) by lia.
      simpl. destruct (decide (text pt_q ∈ seen l)) as [Hin|Hnotin].
      * by rewrite IH.
      * simpl. destruct (matches pt_q) as [|m ms]; [done|].
        cbn [take plot_image_sprites].
        destruct (matches ft_q) as [|m' ms']; [done|].
        cbn [take plot_image_sprites].
        by rewrite IH.
Qed.

(** With matches on both sides of every pair, all of them are shown. *)
Lemma show_all_matches size pairs :
  forall out,
    Forall has_matches pairs ->
    show_all (S size) pairs out
    = Plotted (out ++ concat (map (shown (S size)) pairs)).
Proof.
  induction pairs as [|[pt_q ft_q] pairs IH]; intros out Hall.
  - simpl. by rewrite app_nil_r.
  - apply Forall_cons in Hall as [[Hpt Hft] Hall]. simpl in Hpt, Hft.
    cbn [show_all fst snd].
    destruct (matches pt_q) as [|m ms] eqn:Em; [done|].
    destruct (matches ft_q) as [|m' ms'] eqn:Em'; [done|].
    cbn [take plot_image_sprites]. rewrite IH by done.
    unfold shown. cbn [map concat fst snd]. rewrite Em, Em'.
    cbn [take app]. by rewrite <- !app_assoc.
Qed.

(** A query without matches raises [ValueError]. *)
Lemma show_all_raises size pairs :
  forall out,
    Exists (fun p => ~ has_matches p) pairs ->
    exists out', show_all size pairs out = ValueError out'.
Proof.
  induction pairs as [|[pt_q ft_q] pairs IH]; intros out Hex.
  - by apply Exists_nil in Hex.
  - cbn [show_all fst snd].
    destruct (matches pt_q) as [|m ms] eqn:Em.
    { rewrite take_nil. by eexists. }
    destruct (matches ft_q) as [|m' ms'] eqn:Em'.
    { rewrite take_nil. destruct size; by eexists. }
    apply Exists_cons in Hex as [Hno|Hex].
    { exfalso. apply Hno. split; simpl; congruence. }
    destruct size as [|size]; [by eexists|].
    cbn [take plot_image_sprites]. by apply IH.
Qed.

Lemma first_occurrences_texts seen pairs :
  NoDup (map (fun p : query_pair => text p.1) (first_occurrences seen pairs))
  /\ (forall p, p ∈ first_occurrences seen pairs ->
        (text p.1 ∉ seen) /\ p ∈ pairs).
Proof.
  revert seen. induction pairs as [|[pt_q ft_q] pairs IH]; intros seen.
  - simpl. split; [apply NoDup_nil_2|]. intros p Hp.
    by apply elem_of_nil in Hp.
  - simpl. destruct (decide (text pt_q ∈ seen)) as [Hin|Hnotin].
    + destruct (IH seen) as [Hnodup Hsub]. split; [done|].
      intros p Hp. destruct (Hsub p Hp). split; [done|by right].
    + destruct (IH ({[text pt_q]} ∪ seen)) as [Hnodup Hsub].
      split.
      * simpl. apply NoDup_cons. split; [|done].
        intros Hq. apply list_elem_of_fmap in Hq as (p & Heq & Hp).
        destruct (Hsub p Hp) as [Hnot _]. apply Hnot.
        apply elem_of_union_l, elem_of_singleton. by rewrite Heq.
      * intros p Hp. apply elem_of_cons in Hp as [->|Hp].
        -- split; [done|by left].
        -- destruct (Hsub p Hp) as [Hnot Hin]. split; [|by right].
           intros Hs. apply Hnot. by apply elem_of_union_r.
Qed.

(** With pairwise distinct texts, none of them seen, every query_pair is a first
    occurrence. *)
Lemma first_occurrences_all seen pairs :
  NoDup (map (fun p : query_pair => text p.1) pairs) ->
  (forall p, p ∈ pairs -> text p.1 ∉ seen) ->
  first_occurrences seen pairs = pairs.
Proof.
  revert seen. induction pairs as [|[pt_q ft_q] pairs IH]; intros seen Hnd Hs.
  - done.
  - simpl in *. apply NoDup_cons in Hnd as [Hhd Hnd].
    destruct (decide (text pt_q ∈ seen)) as [Hin|Hnotin].
    + exfalso. apply (Hs (pt_q, ft_q)); [by left|done].
    + f_equal. apply IH; [done|]. intros p Hp Hin.
      apply elem_of_union in Hin as [Hin%elem_of_singleton|Hin].
      * apply Hhd. apply list_elem_of_fmap. by exists p.
      * apply (Hs p); [by right|done].
Qed.

Lemma resnet_for_ok num_samples items :
  forall k out,
    Forall has_matches (take (Z.to_nat num_samples - k) items) ->
    resnet_for num_samples (enumerate_from k items) out
    = Done (out ++ concat (map resnet_shown
                             (take (Z.to_nat num_samples - k) items))).
Proof.
  induction items as [|[doc_pt doc_ft] items IH]; intros k out Hall.
  - simpl. rewrite take_nil. simpl. by rewrite app_nil_r.
  - simpl. destruct (Z.ltb_spec (Z.of_nat k) num_samples) as [Hlt|Hge].
    + replace (Z.to_nat num_samples - k)%nat
        with (S (Z.to_nat num_samples - S k)) in * by lia.
      simpl in Hall. apply Forall_cons in Hall as [[Hpt Hft] Hall].
      simpl in Hpt, Hft. unfold resnet_shown at 1. simpl.
      destruct (matches doc_pt) as [|m ms]; [done|].
      destruct (matches doc_ft) as [|m' ms']; [done|].
      rewrite IH by done. f_equal. simpl. by rewrite <- !app_assoc.
    + replace (Z.to_nat num_samples - k)%nat with 0%nat in * by lia.
      simpl. rewrite (IH (S k) out).
      * replace (Z.to_nat num_samples - S k)%nat with 0%nat by lia.
        done.
      * replace (Z.to_nat num_samples - S k)%nat with 0%nat by lia.
        apply Forall_nil_2.
Qed.

Lemma resnet_for_raises num_samples items :
  forall k out,
    Exists (fun p => ~ has_matches p)
      (take (Z.to_nat num_samples - k) items) ->
    exists out', resnet_for num_samples (enumerate_from k items) out
                 = IndexError out'.
Proof.
  induction items as [|[doc_pt doc_ft] items IH]; intros k out Hex.
  - rewrite take_nil in Hex. by apply Exists_nil in Hex.
  - simpl. destruct (Z.ltb_spec (Z.of_nat k) num_samples) as [Hlt|Hge].
    + replace (Z.to_nat num_samples - k)%nat
        with (S (Z.to_nat num_samples - S k)) in * by lia.
      simpl in Hex.
      destruct (matches doc_pt) as [|m ms] eqn:Hpt; [by eexists|].
      destruct (matches doc_ft) as [|m' ms'] eqn:Hft; [by eexists|].
      apply Exists_cons in Hex as [Hno|Hex]; [|by apply IH].
      exfalso. apply Hno. split; simpl; congruence.
    + replace (Z.to_nat num_samples - k)%nat with 0%nat in * by lia.
      by apply Exists_nil in Hex.
Qed.

Lemma length_concat_shown size (pairs : list query_pair) :
  length (concat (map (shown size) pairs)) = (3 * length pairs)%nat.
Proof. induction pairs as [|p pairs IH]; simpl; [done|]. rewrite IH. lia. Qed.

Lemma zip_texts_sublist n (pt_query ft_query : DocumentArray F) :
  sublist (map (fun p : query_pair => text p.1) (take n (zip pt_query ft_query)))
    (map text pt_query).
Proof.
  revert n ft_query.
  induction pt_query as [|d pt_query IH]; intros n ft_query.
  - simpl. rewrite take_nil. constructor.
  - destruct ft_query as [|d' ft_query].
    + simpl. rewrite take_nil. apply sublist_nil_l.
    + destruct n as [|n]; simpl; [apply sublist_nil_l|].
      apply sublist_skip, IH.
Qed.

(** X1: what [plot_matches] of the multilingual CLIP notebook shows, exactly:
    it looks at the first [num_samples] pairs of [zip(pt_query, ft_query)]
    only, and for each of them whose query text did not occur earlier it
    prints the line and shows the top match of each model, in order.  A
    repeated text is skipped, and it still uses up one of the
    [num_samples] places.  When each of the pairs shown has a match on
    both sides the function returns, having shown three outputs for each;
    a query without any match among them raises [ValueError] in
    [plot_image_sprites]. *)
Theorem plot_matches_shows_first_occurrences (num_samples : Z)
    (pt_query ft_query : DocumentArray F) :
  let pairs :=
    first_occurrences ∅
      (take (Z.to_nat num_samples) (zip pt_query ft_query)) in
  mclip_plot_matches num_samples pt_query ft_query = show_all 1 pairs []
  /\ (Forall has_matches pairs ->
      mclip_plot_matches num_samples pt_query ft_query
      = Plotted (concat (map (shown 1) pairs)))
  /\ (Exists (fun p => ~ has_matches p) pairs ->
      exists out,
        mclip_plot_matches num_samples pt_query ft_query = ValueError out).
Proof.
  intros pairs.
  assert (mclip_plot_matches num_samples pt_query ft_query
          = show_all 1 pairs []) as Heq.
  { unfold mclip_plot_matches, enumerate.
    rewrite for_each_first_occurrences. simpl. by rewrite Nat.sub_0_r. }
  split; [done|]. rewrite Heq. split.
  - intros Hall. by rewrite show_all_matches.
  - apply show_all_raises.
Qed.

(** X2: with pairwise distinct query texts and a match on both sides of
    each of the first [num_samples] pairs, [plot_matches] returns, having
    shown these pairs, all of them when there are fewer, three outputs
    for each. *)
Theorem plot_matches_distinct_texts (num_samples : Z)
    (pt_query ft_query : DocumentArray F) :
  NoDup (map text pt_query) ->
  Forall has_matches (take (Z.to_nat num_samples) (zip pt_query ft_query)) ->
  mclip_plot_matches num_samples pt_query ft_query
  = Plotted (concat (map (shown 1)
      (take (Z.to_nat num_samples) (zip pt_query ft_query))))
  /\ length (plot_displayed
               (mclip_plot_matches num_samples pt_query ft_query))
     = (3 * (Z.to_nat num_samples `min`
             (length pt_query `min` length ft_query)))%nat.
Proof.
  intros Hnd Hall. unfold mclip_plot_matches, enumerate.
  rewrite for_each_first_occurrences. simpl. rewrite Nat.sub_0_r.
  rewrite first_occurrences_all.
  - rewrite show_all_matches by done. split; [done|].
    cbn [plot_displayed app].
    rewrite length_concat_shown, length_take, length_zip. done.
  - exact (sublist_NoDup _ _ Hnd (zip_texts_sublist _ _ _)).
  - intros p _. apply not_elem_of_empty.
Qed.

(** X3: the [plot_matches] of the CLIP notebook breaks on [i > num_samples]:
    it looks at the first [num_samples + 1] pairs, one more than its
    argument says, and shows up to four matches of each model; the call
    [plot_matches()] of the notebook looks at six pairs.  It returns when
    each of the pairs shown has a match on both sides, and raises
    [ValueError] otherwise. *)
Theorem clip_plot_matches_one_more (num_samples : Z)
    (pt_query ft_query : DocumentArray F) :
  let pairs n :=
    first_occurrences ∅ (take n (zip pt_query ft_query)) in
  clip_plot_matches num_samples pt_query ft_query
  = show_all 4 (pairs (Z.to_nat (num_samples + 1))) []
  /\ clip_plot_matches clip_default_samples pt_query ft_query
     = show_all 4 (pairs 6%nat) []
  /\ (Forall has_matches (pairs (Z.to_nat (num_samples + 1))) ->
      clip_plot_matches num_samples pt_query ft_query
      = Plotted (concat (map (shown 4)
                           (pairs (Z.to_nat (num_samples + 1))))))
  /\ (Exists (fun p => ~ has_matches p)
        (pairs (Z.to_nat (num_samples + 1))) ->
      exists out,
        clip_plot_matches num_samples pt_query ft_query = ValueError out).
Proof.
  intros pairs.
  assert (forall n, clip_plot_matches n pt_query ft_query
    = show_all 4 (pairs (Z.to_nat (n + 1))) []) as H.
  { intros n. unfold clip_plot_matches, enumerate. rewrite for_each_clip.
    simpl. by rewrite Nat.sub_0_r. }
  split; [apply H|]. split; [by rewrite H|]. rewrite H. split.
  - intros Hall. by rewrite show_all_matches.
  - apply show_all_raises.
Qed.

(** X4: the display loop of the ResNet notebook, when each of the first ten
    query pairs has a match on both sides: it ends normally, having shown
    exactly these pairs in order, six outputs for each (the query image and
    the top match before and after fine-tuning, each under its line);
    pairs after the tenth are passed over. *)
Theorem resnet_loop_shows_ten (query_pt query_ft : DocumentArray F) :
  Forall has_matches (take 10 (zip query_pt query_ft)) ->
  resnet_loop query_pt query_ft
  = Done (concat (map resnet_shown (take 10 (zip query_pt query_ft)))).
Proof.
  intros Hall. unfold resnet_loop, enumerate.
  by rewrite (resnet_for_ok resnet_num_samples _ 0 []).
Qed.

(** X5: the same loop raises [IndexError] as soon as one of the first ten
    pairs has a query without any match: [matches[0]] is not guarded. *)
Theorem resnet_loop_index_error (query_pt query_ft : DocumentArray F) :
  Exists (fun p => ~ has_matches p) (take 10 (zip query_pt query_ft)) ->
  exists out, resnet_loop query_pt query_ft = IndexError out.
Proof.
  intros Hex. unfold resnet_loop, enumerate.
  by apply (resnet_for_raises resnet_num_samples _ 0 []).
Qed.

End Snippets.

(** A query with one match, and one without. *)
Definition matched_query : Document Z :=
  mkDocument "q" EmptyString None [text_document "m"].

Definition unmatched_query : Document Z := text_document "q".

(** Two queries of different texts, each with one match. *)
Definition first_query : Document Z :=
  mkDocument "a" EmptyString None [text_document "m"].

Definition second_query : Document Z :=
  mkDocument "b" EmptyString None [text_document "n"].

Lemma plot_matches_shows_first_occurrences_witness :
  mclip_plot_matches 2 [matched_query; matched_query; first_query]
    [matched_query; matched_query; first_query]
  = Plotted (shown 1 (matched_query, matched_query)).
Proof.
  destruct (plot_matches_shows_first_occurrences 2
              [matched_query; matched_query; first_query]
              [matched_query; matched_query; first_query])
    as (_ & Hshown & _).
  rewrite Hshown; [reflexivity|].
  apply Forall_singleton. split; discriminate.
Defined.

Lemma plot_matches_distinct_texts_witness :
  mclip_plot_matches 1 [first_query; second_query]
    [first_query; second_query]
  = Plotted (shown 1 (first_query, first_query))
  /\ length (plot_displayed
               (mclip_plot_matches 1 [first_query; second_query]
                  [first_query; second_query])) = 3%nat.
Proof.
  apply (plot_matches_distinct_texts 1 [first_query; second_query]
           [first_query; second_query]).
  - apply NoDup_cons. split; [|apply NoDup_singleton].
    intros H%list_elem_of_singleton. discriminate H.
  - apply Forall_singleton. split; discriminate.
Defined.

Lemma clip_plot_matches_one_more_witness :
  clip_plot_matches 1 [first_query; second_query; matched_query]
    [first_query; second_query; matched_query]
  = Plotted (shown 4 (first_query, first_query)
             ++ shown 4 (second_query, second_query)).
Proof.
  destruct (clip_plot_matches_one_more 1
              [first_query; second_query; matched_query]
              [first_query; second_query; matched_query])
    as (_ & _ & Hshown & _).
  rewrite Hshown; [reflexivity|].
  repeat (apply Forall_cons; split; [split; discriminate|]).
  apply Forall_nil_2.
Defined.

Lemma resnet_loop_shows_ten_witness :
  resnet_loop [matched_query] [matched_query]
  = Done (concat (map resnet_shown [(matched_query, matched_query)])).
Proof.
  apply (resnet_loop_shows_ten [matched_query] [matched_query]).
  apply Forall_singleton. split; discriminate.
Defined.

Lemma resnet_loop_index_error_witness :
  exists out,
    resnet_loop [matched_query; unmatched_query]
      [matched_query; matched_query] = IndexError out.
Proof.
  apply (resnet_loop_index_error [matched_query; unmatched_query]
           [matched_query; matched_query]).
  apply Exists_cons_tl, Exists_cons_hd. intros [H _]. by apply H.
Defined.

End Comparison.

(** * More of the workflows

    How the jobs that build and test end, how the gate decides on the
    value it finds in [WORKFLOW_CONCLUSION], and which jobs of a run are
    started. *)

Module Pipeline.
Import Actions.

(** The external command lines of a script and of a job, in order. *)
Definition script_lines (script : list command) : list string :=
  flat_map (fun c => match c with Cmd line => [line] | _ => [] end) script.

Definition step_lines (s : step) : list string :=
  match step_action s with
  | Run script => script_lines script
  | Uses _ _ => []
  end.

Definition external_lines (j : job) : list string :=
  flat_map step_lines (job_steps j).

(** A step without [if:] whose script has no [exit]. *)
Definition plain_step (s : step) : bool :=
  match step_if s, step_action s with
  | None, Uses _ _ => true
  | None, Run script =>
      forallb (fun c => match c with Exit _ => false | _ => true end) script
  | Some _, _ => false
  end.

Definition is_gate (j : job) : bool :=
  match job_if j with Some Always => true | _ => false end.

(** [strategy.matrix] expands a job into one run of its steps for each
    entry, and fails it when there is no entry. *)
Definition has_matrix (j : job) : bool :=
  match job_matrix j with Some _ => true | None => false end.

(** The jobs of both workflows that are one run of their steps: all but
    the gates and the two test jobs of the matrices. *)
Definition build_jobs : list job :=
  List.filter (fun j => negb (is_gate j) && negb (has_matrix j))
    (wf_jobs ci ++ wf_jobs remote_ci).

(** The first non-zero exit status among the command lines. *)
Definition first_failure (w : world) (lines : list string) : option Z :=
  head (List.filter (fun code => negb (code =? 0))
          (map (command_status w) lines)).

(** Every action of the run does its work. *)
Definition actions_succeed (w : world) : Prop :=
  forall name vars, is_Some (action_effect w name vars).

(** ** A run of a workflow

    The jobs in the order of the file; each is started, or skipped, on the
    conclusions of the jobs it [needs], and a started job ends as [result]
    says. *)
Definition needed_conclusions (done : list (string * conclusion)) (j : job)
    : list conclusion :=
  map (fun n => default skipped (list_to_map (M := gmap string conclusion)
                                   done !! n))
    (job_needs j).

Definition run_one (result : job -> conclusion)
    (done : list (string * conclusion)) (j : job)
    : list (string * conclusion) :=
  done ++ [(job_id j,
            if job_runs j (needed_conclusions done j) then result j
            else skipped)].

Definition run_workflow (result : job -> conclusion) (wf : workflow)
    : gmap string conclusion :=
  list_to_map (fold_left (run_one result) (wf_jobs wf) []).

(** Every [needs] names a job that comes earlier in the file. *)
Fixpoint needs_earlier (earlier : list string) (jobs : list job) : bool :=
  match jobs with
  | [] => true
  | j :: rest =>
      forallb (fun n => bool_decide (n ∈ earlier)) (job_needs j)
      && needs_earlier (job_id j :: earlier) rest
  end.

(** ** Proofs *)

Lemma first_failure_cons (w : world) (line : string) (lines : list string) :
  first_failure w (line :: lines)
  = if command_status w line =? 0 then first_failure w lines
    else Some (command_status w line).
Proof.
  unfold first_failure. simpl. by destruct (command_status w line =? 0).
Qed.

Lemma first_failure_app (w : world) (l1 l2 : list string) :
  first_failure w (l1 ++ l2)
  = match first_failure w l1 with
    | Some code => Some code
    | None => first_failure w l2
    end.
Proof.
  induction l1 as [|line l1 IH]; [done|].
  simpl. rewrite !first_failure_cons.
  by destruct (command_status w line =? 0).
Qed.

Lemma first_failure_nonzero (w : world) (lines : list string) (code : Z) :
  first_failure w lines = Some code -> code <> 0.
Proof.
  induction lines as [|line lines IH]; [done|].
  rewrite first_failure_cons.
  destruct (Z.eqb_spec (command_status w line) 0); [done|]. congruence.
Qed.

Lemma first_failure_None (w : world) (lines : list string) :
  first_failure w lines = None
  <-> Forall (fun line => command_status w line = 0) lines.
Proof.
  induction lines as [|line lines IH].
  - split; [constructor|done].
  - rewrite first_failure_cons, Forall_cons.
    destruct (Z.eqb_spec (command_status w line) 0); [tauto|].
    split; [done|tauto].
Qed.

Lemma run_script_first_failure (w : world) (script : list command) :
  forallb (fun c => match c with Exit _ => false | _ => true end) script
  = true ->
  forall log,
    (run_script w script log).1
    = default 0 (first_failure w (script_lines script)).
Proof.
  induction script as [|[code|text|line] script IH]; intros Hplain log;
    simpl in *; [done|done|by apply IH|].
  change (first_failure w (line :: script_lines script))
    with (first_failure w ([line] ++ script_lines script)).
  simpl. rewrite first_failure_cons.
  destruct (command_status w line =? 0); [by apply IH|done].
Qed.

Lemma run_steps_failed (w : world) (steps : list step) (st : job_state) :
  forallb plain_step steps = true ->
  st_ok st = false ->
  fold_left (run_step w) steps st = st.
Proof.
  revert st. induction steps as [|s steps IH]; intros st Hplain Hok; [done|].
  simpl in *. apply andb_true_iff in Hplain as [Hs Hplain].
  assert (run_step w st s = st) as ->; [|by apply IH].
  unfold run_step, plain_step in *.
  destruct (step_if s); [done|]. simpl. by rewrite Hok.
Qed.

Lemma run_step_plain (w : world) (st : job_state) (s : step) :
  actions_succeed w ->
  plain_step s = true ->
  st_ok st = true -> st_exit st = None ->
  match first_failure w (step_lines s) with
  | Some code =>
      st_ok (run_step w st s) = false /\ st_exit (run_step w st s) = Some code
  | None =>
      st_ok (run_step w st s) = true /\ st_exit (run_step w st s) = None
  end.
Proof.
  intros Hact Hs Hok Hexit. unfold run_step, plain_step, step_lines in *.
  destruct (step_if s); [done|]. simpl. rewrite Hok.
  destruct (step_action s) as [name inputs|script].
  - destruct (Hact name (st_env st)) as [env' ->]. by simpl.
  - pose proof (run_script_first_failure w script Hs (st_log st)) as Hrun.
    destruct (run_script w script (st_log st)) as [code log].
    simpl in Hrun. subst code.
    destruct (first_failure w (script_lines script)) as [code|] eqn:Hff.
    + simpl. pose proof (first_failure_nonzero _ _ _ Hff) as Hnz.
      by destruct (Z.eqb_spec code 0).
    + by simpl.
Qed.

Lemma run_steps_first_failure (w : world) (steps : list step) :
  actions_succeed w ->
  forallb plain_step steps = true ->
  forall st,
    st_ok st = true -> st_exit st = None ->
    st_exit (fold_left (run_step w) steps st)
    = first_failure w (flat_map step_lines steps)
    /\ st_ok (fold_left (run_step w) steps st)
       = bool_decide (first_failure w (flat_map step_lines steps) = None).
Proof.
  intros Hact. induction steps as [|s steps IH]; intros Hplain st Hok Hexit.
  - simpl. by rewrite Hok, Hexit.
  - simpl in *. apply andb_true_iff in Hplain as [Hs Hplain].
    rewrite first_failure_app.
    pose proof (run_step_plain w st s Hact Hs Hok Hexit) as Hstep.
    destruct (first_failure w (step_lines s)) as [code|];
      destruct Hstep as [Hok' Hexit'].
    + by rewrite run_steps_failed.
    + by apply IH.
Qed.

Lemma build_jobs_plain (j : job) :
  In j build_jobs ->
  forallb plain_step (job_steps j) = true /\ job_if j = None
  /\ job_matrix j = None.
Proof.
  intros Hj.
  repeat (destruct Hj as [<-|Hj]; [by repeat split|]). destruct Hj.
Qed.

(** X6: a job of either workflow that is one run of its steps (every job
    but the gates and the test jobs [test-core] and [test-cuda], which a
    matrix expands) succeeds exactly when each of its command lines exits
    with status 0, provided its actions do their work; an unsuccessful job
    ends with the status of the first line that failed, whatever the lines
    after it would have done. *)
Theorem build_job_succeeds_iff (w : world) (j : job) :
  In j build_jobs ->
  actions_succeed w ->
  (job_conclusion (run_job w j) = success
   <-> Forall (fun line => command_status w line = 0) (external_lines j))
  /\ st_exit (run_job w j) = first_failure w (external_lines j).
Proof.
  intros [Hplain _]%build_jobs_plain Hact.
  destruct (run_steps_first_failure w (job_steps j) Hact Hplain
              (mkJobState ∅ true None []) eq_refl eq_refl) as [Hexit Hok].
  unfold run_job, external_lines, job_conclusion.
  split; [|exact Hexit]. rewrite Hok, <- first_failure_None.
  case_bool_decide; [done|]. by split.
Qed.

Lemma build_job_succeeds_iff_witness :
  job_conclusion (run_job (reporting_world success) check_codestyle) = success.
Proof.
  apply (build_job_succeeds_iff (reporting_world success) check_codestyle).
  - left. reflexivity.
  - intros name vars. by eexists.
  - repeat constructor.
Defined.

Lemma run_gate_steps_value (w : world) (env' : gmap string string) :
  action_effect w workflow_conclusion_action ∅ = Some env' ->
  fold_left (run_step w) gate_steps (mkJobState ∅ true None [])
  = if expr_eqb (default "" (env' !! "WORKFLOW_CONCLUSION")) "failure"
    then mkJobState env' false (Some 1) []
    else mkJobState env' true None ["All Done"].
Proof.
  intros Heff. unfold gate_steps. cbn [fold_left].
  unfold run_step at 3. cbn [step_if step_action holds st_ok st_env].
  rewrite Heff. cbn [st_ok st_exit st_log].
  unfold run_step at 2. cbn [step_if step_action holds st_ok st_env andb].
  by destruct (expr_eqb _ _).
Qed.

(** X7: the gate compares whatever value the conclusion action leaves in
    [WORKFLOW_CONCLUSION] with [failure] ignoring case: it fails, with exit
    status 1 and nothing printed, exactly when the lower-cased value is
    [failure], and otherwise (any other value, or the variable left unset)
    succeeds after printing [All Done]. *)
Theorem gate_compares_ignoring_case (w : world) (gate : job)
    (env' : gmap string string) :
  In gate gate_jobs ->
  action_effect w workflow_conclusion_action ∅ = Some env' ->
  run_job w gate
  = if decide (Text.lower (default "" (env' !! "WORKFLOW_CONCLUSION"))
               = "failure")
    then mkJobState env' false (Some 1) []
    else mkJobState env' true None ["All Done"].
Proof.
  intros [Hsteps _]%gate_jobs_steps Heff. unfold run_job.
  rewrite Hsteps, (run_gate_steps_value w env' Heff). unfold expr_eqb.
  change (Text.lower "failure") with "failure".
  destruct (String.eqb_spec
              (Text.lower (default "" (env' !! "WORKFLOW_CONCLUSION")))
              "failure"); by destruct (decide _).
Qed.

(** A world whose conclusion action leaves [value] in the variable. *)
Definition world_reporting (value : string) : world :=
  mkWorld (fun _ vars => Some (<["WORKFLOW_CONCLUSION" := value]> vars))
    (fun _ => 0).

Lemma gate_compares_ignoring_case_witness :
  run_job (world_reporting "Failure") success_all_test
  = mkJobState (<["WORKFLOW_CONCLUSION" := "Failure"]> ∅) false (Some 1) [].
Proof.
  rewrite (gate_compares_ignoring_case (world_reporting "Failure")
             success_all_test (<["WORKFLOW_CONCLUSION" := "Failure"]> ∅)).
  - reflexivity.
  - left. reflexivity.
  - reflexivity.
Defined.

(** X8: when the conclusion action itself fails, the gate fails too, whatever
    the needed jobs did: neither later step runs, so there is no exit
    status and nothing is printed. *)
Theorem gate_fails_with_its_action (w : world) (gate : job) :
  In gate gate_jobs ->
  action_effect w workflow_conclusion_action ∅ = None ->
  run_job w gate = mkJobState ∅ false None []
  /\ job_conclusion (run_job w gate) = failure.
Proof.
  intros [Hsteps _]%gate_jobs_steps Heff.
  assert (run_job w gate = mkJobState ∅ false None []) as ->; [|done].
  unfold run_job. rewrite Hsteps. unfold gate_steps. cbn [fold_left].
  unfold run_step at 3. cbn [step_if step_action holds st_ok st_env].
  rewrite Heff. reflexivity.
Qed.

(** A world in which every action fails. *)
Definition failing_actions : world := mkWorld (fun _ _ => None) (fun _ => 0).

Lemma gate_fails_with_its_action_witness :
  job_conclusion (run_job failing_actions success_tests) = failure.
Proof.
  apply (gate_fails_with_its_action failing_actions success_tests).
  - right. left. reflexivity.
  - reflexivity.
Defined.

(** Did a job end with [success]? *)
Definition succeeded (c : conclusion) : bool := bool_decide (c = success).

(** X9: in a run of [remote-ci.yml], every [needs] naming an earlier job: the
    three style jobs and the gate are always started; unless all three
    style jobs succeed, the test bed, both test jobs and the coverage job
    are skipped; the coverage job is started only when the three style
    jobs, the test bed and both test jobs have succeeded.  In a run of
    [ci.yml] all three jobs are started. *)
Theorem workflow_runs_skip_after_failure (result : job -> conclusion) :
  let r := run_workflow result remote_ci in
  let styles :=
    succeeded (result style_flake) && succeeded (result style_black)
    && succeeded (result style_isort) in
  needs_earlier [] (wf_jobs remote_ci) = true
  /\ needs_earlier [] (wf_jobs ci) = true
  /\ (forall j, In j [style_flake; style_black; style_isort; success_tests] ->
        r !! job_id j = Some (result j))
  /\ (styles = false ->
        forall j, In j [prep_testbed; test_core; test_cuda; get_coverage] ->
          r !! job_id j = Some skipped)
  /\ r !! "get-coverage"
     = Some (if styles && succeeded (result prep_testbed)
                && succeeded (result test_core)
                && succeeded (result test_cuda)
             then result get_coverage else skipped)
  /\ (forall j, In j (wf_jobs ci) ->
        run_workflow result ci !! job_id j = Some (result j)).
Proof.
  intros r styles. subst r styles. unfold succeeded.
  assert (run_workflow result remote_ci
          = list_to_map (fold_left (run_one (fun j =>
              if String.eqb (job_id j) "style-flake" then result style_flake
              else if String.eqb (job_id j) "style-black"
                then result style_black
              else if String.eqb (job_id j) "style-isort"
                then result style_isort
              else if String.eqb (job_id j) "prep-testbed"
                then result prep_testbed
              else if String.eqb (job_id j) "test-core" then result test_core
              else if String.eqb (job_id j) "test-cuda" then result test_cuda
              else if String.eqb (job_id j) "get-coverage"
                then result get_coverage
              else result success_tests)) (wf_jobs remote_ci) [])) as ->
    by reflexivity.
  remember (result style_flake) as a eqn:Ha.
  remember (result style_black) as b eqn:Hb.
  remember (result style_isort) as c eqn:Hc.
  remember (result prep_testbed) as d eqn:Hd.
  remember (result test_core) as e eqn:He.
  remember (result test_cuda) as f eqn:Hf.
  remember (result get_coverage) as g eqn:Hg.
  remember (result success_tests) as h eqn:Hh.
  split; [reflexivity|]. split; [reflexivity|].
  split; [|split; [|split]].
  - intros j Hj.
    repeat (destruct Hj as [<-|Hj];
            [rewrite <- ?Ha, <- ?Hb, <- ?Hc, <- ?Hh; clear; by vm_compute|]).
    destruct Hj.
  - intros Hst j Hj. clear Ha Hb Hc Hd He Hf Hg Hh.
    repeat (destruct Hj as [<-|Hj];
            [vm_compute; vm_compute in Hst;
             destruct a, b, c; try discriminate Hst; reflexivity|]).
    destruct Hj.
  - clear. vm_compute.
    destruct a; try reflexivity. destruct b; try reflexivity.
    destruct c; try reflexivity. destruct d; try reflexivity.
    destruct e; try reflexivity. destruct f; reflexivity.
  - intros j Hj. repeat (destruct Hj as [<-|Hj]; [reflexivity|]).
    destruct Hj.
Qed.

End Pipeline.

(** * More of the test bed

    What holds of the two matrices for every tree, which files [find]
    selects, that the GPU pattern misses no marked file, and which coverage
    files reach [get-coverage]. *)

Module TestbedFacts.
Import Shell Testbed.

(** ** The name pattern of [find] *)

Lemma glob_literal (pattern s : bytes) :
  "*"%char ∉ pattern -> glob pattern s = true <-> s = pattern.
Proof.
  revert s. induction pattern as [|p pattern IH]; intros s Hstar; simpl.
  - by rewrite bool_decide_eq_true.
  - apply not_elem_of_cons in Hstar as [Hp Hstar].
    rewrite decide_False by congruence.
    destruct s as [|c s]; [done|].
    rewrite andb_true_iff, bool_decide_eq_true, IH by done.
    split; [by intros [-> ->]|]. by intros [= -> ->].
Qed.

Lemma glob_star (suffix s : bytes) :
  "*"%char ∉ suffix ->
  glob ("*"%char :: suffix) s = true <-> exists mid, s = mid ++ suffix.
Proof.
  intros Hstar. induction s as [|c s IH].
  - simpl. rewrite orb_false_r, glob_literal by done. split.
    + intros <-. by exists [].
    + intros [[|? ?] H]; [done|discriminate H].
  - change (glob ("*"%char :: suffix) (c :: s))
      with (glob suffix (c :: s) || glob ("*"%char :: suffix) s).
    rewrite orb_true_iff, IH, glob_literal by done. split.
    + intros [<-|[mid ->]]; [by exists []|by exists (c :: mid)].
    + intros [[|c' mid] H]; [by left|]. right. exists mid.
      by injection H as _ ->.
Qed.

Lemma glob_prefix_star (prefix suffix s : bytes) :
  "*"%char ∉ prefix -> "*"%char ∉ suffix ->
  glob (prefix ++ "*"%char :: suffix) s = true
  <-> exists mid, s = prefix ++ mid ++ suffix.
Proof.
  intros Hpre Hsuf. revert s.
  induction prefix as [|p prefix IH]; intros s.
  - by apply glob_star.
  - apply not_elem_of_cons in Hpre as [Hp Hpre].
    change (glob ((p :: prefix) ++ "*"%char :: suffix) s)
      with (if decide (p = "*"%char) then
              glob ("*"%char :: prefix ++ "*"%char :: suffix) s
            else match s with
                 | [] => false
                 | c :: s' =>
                     bool_decide (p = c)
                     && glob (prefix ++ "*"%char :: suffix) s'
                 end).
    rewrite decide_False by congruence.
    destruct s as [|c s]; [split; [done|by intros [? ?]]|].
    rewrite andb_true_iff, bool_decide_eq_true, IH by done. split.
    + intros [-> [mid ->]]. by exists mid.
    + intros [mid [= -> ->]]. split; [done|by exists mid].
Qed.

Lemma not_star (s : string) :
  forallb (fun c => negb (bool_decide (c = "*"%char))) (B s) = true ->
  "*"%char ∉ B s.
Proof.
  intros H Hin%list_elem_of_In. rewrite forallb_forall in H.
  apply H in Hin. by rewrite bool_decide_eq_true_2 in Hin.
Qed.

Lemma found_test_file (p : bytes) :
  found (B "test_*.py") p = true
  <-> (exists rest, p = B "tests/" ++ rest)
      /\ (exists mid, basename p = B "test_" ++ mid ++ B ".py").
Proof.
  unfold found. rewrite andb_true_iff, starts_with_spec.
  change (B "test_*.py") with (B "test_" ++ "*"%char :: B ".py").
  by rewrite glob_prefix_star by (by apply not_star).
Qed.

(** X10: [find 'tests' -name 'test_*.py'] prints exactly the files and
    the directories of the tree below [tests/] whose last component begins
    with [test_] and ends with [.py]; the command has no [-type f].  The
    directories of a tree are those that hold a file. *)
Theorem find_selects_test_files (t : tree) (p : bytes) :
  p ∈ find_tests t
  <-> in_tree t p
      /\ (exists rest, p = B "tests/" ++ rest)
      /\ (exists mid, basename p = B "test_" ++ mid ++ B ".py").
Proof. rewrite elem_of_find_tests, found_test_file. tauto. Qed.

(** A directory named like a test file is printed, as is the file in it. *)
Example find_prints_directories :
  let t := tree_of [("tests/test_dir.py/test_a.py", "def test_a")] in
  B "tests/test_dir.py" ∈ find_tests t
  /\ B "tests/test_dir.py/test_a.py" ∈ find_tests t.
Proof. split; vm_compute; [right; left|left]. Qed.

(** ** Where the entries lie *)

Lemma drop_while_app_all (f : ascii -> bool) (l1 l2 : bytes) :
  (forall c, c ∈ l1 -> f c = true) ->
  drop_while f (l1 ++ l2) = drop_while f l2.
Proof.
  induction l1 as [|a l1 IH]; intros Hall; [done|]. simpl.
  rewrite (Hall a) by (by left). apply IH. intros c Hc. apply Hall. by right.
Qed.

Lemma drop_while_stop (f : ascii -> bool) (l : bytes) :
  (forall c, head l = Some c -> f c = false) -> drop_while f l = l.
Proof. destruct l as [|a l]; [done|]. intros H. simpl. by rewrite H. Qed.

Lemma slashes_comm (slashes : bytes) :
  Forall (fun c => c = slash) slashes -> slashes ++ [slash] = slash :: slashes.
Proof. induction 1 as [|x l -> Hl IH]; [done|]. simpl. by rewrite IH. Qed.

(** [dirname] of a directory part, slashes, and a last component. *)
Lemma dirname1_of_split (dir slashes base : bytes) :
  base <> [] -> slash ∉ base ->
  Forall (fun c => c = slash) slashes ->
  last dir <> Some slash ->
  dirname1 (dir ++ slash :: slashes ++ base)
  = if decide (dir = []) then [slash] else dir.
Proof.
  intros Hbase Hnoslash Hslashes Hlast.
  assert (Hrev : reverse (dir ++ slash :: slashes ++ base)
                 = reverse base ++ (reverse slashes ++ [slash])
                     ++ reverse dir).
  { rewrite reverse_app, reverse_cons, reverse_app. by rewrite <- !app_assoc. }
  assert (Hbase_ns : forall c, c ∈ reverse base -> negb (is_slash c) = true).
  { intros c Hc. rewrite elem_of_reverse in Hc. apply negb_true_iff.
    apply bool_decide_eq_false. by intros ->. }
  assert (Hsl : forall c, c ∈ reverse slashes ++ [slash] ->
                          is_slash c = true).
  { intros c Hc. apply bool_decide_eq_true.
    apply elem_of_app in Hc as [Hc| ->%list_elem_of_singleton]; [|done].
    rewrite elem_of_reverse in Hc. rewrite Forall_forall in Hslashes.
    by apply Hslashes. }
  assert (Hdir : drop_while is_slash (reverse dir) = reverse dir).
  { apply drop_while_stop. intros c Hc. apply bool_decide_eq_false.
    intros ->. apply Hlast. rewrite <- Hc, <- (reverse_involutive dir) at 1.
    destruct (reverse dir) as [|a l]; [done|].
    rewrite reverse_cons. by rewrite last_snoc. }
  assert (exists b rb, reverse base = b :: rb) as (b & rb & Hb).
  { destruct (reverse base) as [|b rb] eqn:Hb; [|by eauto].
    exfalso. apply Hbase. by rewrite <- (reverse_involutive base), Hb. }
  set (tail := (reverse slashes ++ [slash]) ++ reverse dir) in *.
  assert (Hr : drop_while is_slash (reverse base ++ tail)
               = reverse base ++ tail).
  { apply drop_while_stop. rewrite Hb. intros c [= <-].
    apply negb_true_iff, Hbase_ns. rewrite Hb. by left. }
  assert (Hhas : has_slash (reverse base ++ tail) = true).
  { unfold has_slash. apply existsb_exists. exists slash.
    split; [|by apply bool_decide_eq_true].
    apply list_elem_of_In. unfold tail. rewrite !elem_of_app.
    right. left. right. by apply list_elem_of_singleton. }
  assert (Htail : drop_while (fun c => negb (is_slash c))
                    (reverse base ++ tail) = tail).
  { rewrite drop_while_app_all by done. apply drop_while_stop.
    intros c Hc. apply negb_false_iff, Hsl. unfold tail in Hc.
    destruct (reverse slashes) as [|x l]; simpl in *;
      injection Hc as ->; by left. }
  assert (Hd : drop_while is_slash tail = reverse dir).
  { unfold tail. by rewrite drop_while_app_all. }
  unfold dirname1. cbv zeta. rewrite Hrev, Hr, Hhas, Htail, Hd.
  rewrite Hb. simpl app.
  destruct (reverse dir) as [|a l] eqn:Hrd.
  - rewrite decide_True; [done|].
    by rewrite <- (reverse_involutive dir), Hrd.
  - rewrite decide_False; [by rewrite <- Hrd, reverse_involutive|].
    intros ->. discriminate Hrd.
Qed.

Lemma strip_trailing_slashes (pre : bytes) :
  exists dir slashes,
    pre = dir ++ slashes
    /\ Forall (fun c => c = slash) slashes
    /\ last dir <> Some slash.
Proof.
  induction pre as [|x pre IH] using rev_ind.
  - by exists [], [].
  - destruct (decide (x = slash)) as [->|Hx].
    + destruct IH as (dir & slashes & -> & Hs & Hlast).
      exists dir, (slashes ++ [slash]). rewrite <- app_assoc.
      split; [done|]. split; [|done].
      apply Forall_app. split; [done|]. by apply Forall_singleton.
    + exists (pre ++ [x]), []. rewrite app_nil_r. split; [done|].
      split; [done|]. rewrite last_snoc. congruence.
Qed.

Lemma basename_after_slash (pre base : bytes) :
  slash ∉ base -> basename (pre ++ slash :: base) = base.
Proof.
  intros Hbase. unfold basename.
  rewrite reverse_app, reverse_cons, <- app_assoc. simpl.
  assert (forall l rest,
            slash ∉ l ->
            take_while (fun c => negb (is_slash c)) (l ++ slash :: rest) = l)
    as Htake.
  { intros l rest Hl. induction l as [|a l IH]; simpl.
    - reflexivity.
    - apply not_elem_of_cons in Hl as [Ha Hl]. unfold is_slash at 1.
      rewrite bool_decide_eq_false_2 by congruence. simpl.
      by rewrite IH. }
  rewrite Htake; [apply reverse_involutive|].
  by rewrite elem_of_reverse.
Qed.

(** The directory of a path below [tests/] that does not end in a slash:
    [tests] itself or a path below it. *)
Lemma dirname1_below_tests (p rest : bytes) :
  p = B "tests/" ++ rest -> basename p <> [] ->
  dirname1 p = B "tests" \/ exists r, dirname1 p = B "tests/" ++ r.
Proof.
  intros Hp Hbase.
  assert (Hslash : slash ∈ p).
  { rewrite Hp. do 5 right. by left. }
  apply list_elem_of_split_r in Hslash as (pre & base & Hsplit & Hno).
  assert (Hb : base <> []).
  { intros ->. apply Hbase. rewrite Hsplit.
    by rewrite basename_after_slash. }
  destruct (strip_trailing_slashes pre) as (dir & slashes & -> & Hs & Hlast).
  assert (Hpath : p = dir ++ slash :: slashes ++ base).
  { rewrite Hsplit, <- app_assoc. f_equal.
    change (slashes ++ [slash] ++ base = [slash] ++ slashes ++ base).
    by rewrite !app_assoc, slashes_comm. }
  rewrite Hpath, dirname1_of_split by done.
  rewrite Hp in Hpath. clear Hp Hsplit Hbase.
  destruct (decide (dir = [])) as [->|_]; [discriminate Hpath|].
  destruct dir as [|c1 [|c2 [|c3 [|c4 [|c5 [|c6 d]]]]]];
    simpl in Hpath, Hlast; try done; try (by injection Hpath).
  - left. injection Hpath as <- <- <- <- <- _. done.
  - right. exists d. injection Hpath as <- <- <- <- <- <- _. done.
Qed.

(** X12: with test paths of portable characters, every entry of either matrix
    is [tests] or a path below [tests/]: the tests path handed to a test
    job never leaves the tests directory. *)
Theorem matrix_entries_below_tests (t : tree) (d : bytes) :
  (forall p, p ∈ find_tests t -> portable p = true) ->
  d ∈ core_tests_matrix t \/ d ∈ cuda_tests_matrix t ->
  d = B "tests" \/ exists r, d = B "tests/" ++ r.
Proof.
  intros Hportable Hd.
  assert (Hplain : forall p, p ∈ find_tests t -> plain p)
    by (intros p Hp; by apply portable_plain, Hportable).
  assert (exists p content, is_test_file t p content /\ dirname1 p = d)
    as (p & content & [Hc Hfound] & <-).
  { destruct Hd as [Hd|Hd].
    - apply elem_of_core_matrix in Hd as (p & c & Hf & _ & Hd); eauto.
    - apply elem_of_cuda_matrix in Hd as (p & c & Hf & _ & _ & Hd); eauto. }
  apply found_test_file in Hfound as ([rest Hrest] & [mid Hmid]).
  apply (dirname1_below_tests p rest Hrest). by rewrite Hmid.
Qed.

Lemma matrix_entries_below_tests_witness :
  B "tests/unit" = B "tests" \/ exists r, B "tests/unit" = B "tests/" ++ r.
Proof.
  apply (matrix_entries_below_tests sample_tree (B "tests/unit")).
  - apply forallb_elem_of. vm_compute. reflexivity.
  - left. vm_compute. right. left.
Defined.

(** ** The GPU pattern *)

Lemma match_here_itself (pattern post : bytes) :
  match_here pattern (pattern ++ post) = true.
Proof.
  induction pattern as [|p pattern IH]; [done|]. simpl.
  rewrite IH, (bool_decide_eq_true_2 (p = p)) by done.
  by rewrite orb_true_r.
Qed.

Lemma match_line_contains (pattern l : bytes) :
  contains pattern l -> match_line pattern l = true.
Proof.
  intros (pre & post & ->). induction pre as [|c pre IH].
  - destruct pattern as [|p pattern]; [by destruct post|].
    simpl. rewrite match_here_itself, (bool_decide_eq_true_2 (p = p)) by done.
    by rewrite orb_true_r.
  - simpl. rewrite IH. apply orb_true_r.
Qed.

(** A pattern of literal characters and dots finds every content that holds
    the pattern's own text on one line. *)
Lemma grep_finds_its_text (pattern content : bytes) :
  pattern <> [] -> nl ∉ pattern ->
  contains pattern content -> grep pattern content = true.
Proof.
  intros Hne Hnl (l & Hin & Hl)%contains_some_line; [|done..].
  unfold grep. apply existsb_exists. exists l.
  split; [by apply list_elem_of_In|by apply match_line_contains].
Qed.

(** X13: with test paths of portable characters, no marked file is missed: the
    directory of every file named [test_*.py] below [tests] that contains
    [def test_] and the text [pytest.mark.gpu] is in the CUDA matrix. *)
Theorem gpu_marker_never_missed (t : tree) (p content : bytes) :
  (forall p, p ∈ find_tests t -> portable p = true) ->
  is_test_file t p content ->
  contains (B "def test_") content ->
  contains (B "pytest.mark.gpu") content ->
  dirname1 p ∈ cuda_tests_matrix t.
Proof.
  intros Hportable Hfile Hdef Hgpu.
  apply elem_of_cuda_matrix.
  - intros p' Hp'. by apply portable_plain, Hportable.
  - exists p, content. repeat split; try done; [apply Hfile..|].
    apply grep_finds_its_text; [discriminate| |done].
    intros Hin. by repeat (apply elem_of_cons in Hin as [Hin|Hin];
                            [discriminate|]); apply elem_of_nil in Hin.
Qed.

Lemma gpu_marker_never_missed_witness :
  dirname1 (B "tests/unit/test_b.py") ∈ cuda_tests_matrix sample_tree.
Proof.
  apply (gpu_marker_never_missed sample_tree (B "tests/unit/test_b.py")
           (B "@pytest.mark.gpu def test_b(): pass")).
  - apply forallb_elem_of. vm_compute. reflexivity.
  - split; vm_compute; reflexivity.
  - apply occurs_spec. vm_compute. reflexivity.
  - apply occurs_spec. vm_compute. reflexivity.
Defined.

(** ** The coverage files *)

Lemma tr_slash_dot_injective (p q : bytes) :
  dot ∉ p -> dot ∉ q -> tr_slash_dot p = tr_slash_dot q -> p = q.
Proof.
  revert q. induction p as [|a p IH]; intros [|b q] Hp Hq H;
    try done. simpl in H.
  apply not_elem_of_cons in Hp as [Ha Hp].
  apply not_elem_of_cons in Hq as [Hb Hq].
  injection H as Hab H. f_equal; [|by apply IH].
  destruct (decide (a = slash)), (decide (b = slash)); congruence.
Qed.

(** X14: for a tree with test paths of portable characters, two test jobs
    of its matrices whose paths hold no dot write coverage files of the
    same name only when they are the same job: the kind and the path can
    be read back from the name. *)
Theorem coverage_name_injective (t : tree) (uuid : bytes)
    (j j' : matrix_job) :
  (forall p, p ∈ find_tests t -> portable p = true) ->
  j ∈ test_jobs (prep_testbed t uuid) ->
  j' ∈ test_jobs (prep_testbed t uuid) ->
  dot ∉ mj_tests_path j -> dot ∉ mj_tests_path j' ->
  coverage_name j = coverage_name j' -> j = j'.
Proof.
  intros _ _ _.
  destruct j as [k p], j' as [k' p']. unfold coverage_name. simpl.
  intros Hp Hp' H.
  destruct k, k'; simpl in H; injection H as H; try discriminate H;
    by rewrite (tr_slash_dot_injective p p' Hp Hp' H).
Qed.

Lemma coverage_name_injective_witness :
  mkMatrixJob Core (B "tests/unit") = mkMatrixJob Core (B "tests/unit").
Proof.
  apply (coverage_name_injective sample_tree (B "1f0e")
           (mkMatrixJob Core (B "tests/unit"))
           (mkMatrixJob Core (B "tests/unit"))).
  - apply forallb_elem_of. vm_compute. reflexivity.
  - vm_compute. right. left.
  - vm_compute. right. left.
  - intros Hin. by repeat (apply elem_of_cons in Hin as [Hin|Hin];
                            [discriminate|]); apply elem_of_nil in Hin.
  - intros Hin. by repeat (apply elem_of_cons in Hin as [Hin|Hin];
                            [discriminate|]); apply elem_of_nil in Hin.
  - reflexivity.
Defined.

(** With a dot in a directory name two jobs can share a coverage name, and
    the file of one replaces the file of the other. *)
Example coverage_names_clash :
  coverage_name (mkMatrixJob Core (B "tests/a.b"))
  = coverage_name (mkMatrixJob Core (B "tests/a/b")).
Proof. reflexivity. Qed.

Section Coverage.
Context {data : Type}.
Variable run_tests : kind -> bytes -> option data.

Lemma run_matrix_all_succeed (jobs : list matrix_job) :
  forall a,
    forallb (fun c => bool_decide (c = Actions.success))
      (run_matrix run_tests a jobs).1 = true
    <-> forall j, j ∈ jobs -> is_Some (test_result run_tests j).
Proof.
  induction jobs as [|j rest IH]; intros a.
  - split; [|done]. intros _ j Hj. by apply elem_of_nil in Hj.
  - rewrite run_matrix_cons. simpl.
    rewrite andb_true_iff, IH, bool_decide_eq_true.
    unfold run_matrix_job.
    destruct (test_result run_tests j) as [d|] eqn:Hd; simpl.
    + split.
      * intros [_ Hrest] j' [->|Hj']%elem_of_cons; [by exists d|auto].
      * intros Hall. split; [done|]. intros j' Hj'. apply Hall. by right.
    + split; [by intros [? _]|]. intros Hall.
      destruct (Hall j ltac:(left)) as [d Hd']. congruence.
Qed.

Lemma run_matrix_dom (jobs : list matrix_job) :
  forall a,
    (forall j, j ∈ jobs -> is_Some (test_result run_tests j)) ->
    dom (run_matrix run_tests a jobs).2
    = dom a ∪ list_to_set (map coverage_name jobs).
Proof.
  induction jobs as [|j rest IH]; intros a Hall.
  - simpl. by rewrite (right_id_L ∅ (∪)).
  - rewrite run_matrix_cons. simpl. rewrite IH
      by (intros j' Hj'; apply Hall; by right).
    destruct (Hall j ltac:(left)) as [d Hd].
    unfold run_matrix_job. rewrite Hd. simpl.
    rewrite dom_insert_L.
    by rewrite (comm_L (∪) {[coverage_name j]} (dom a)), (assoc_L (∪)).
Qed.

(** X15: for a tree with test paths of portable characters, the coverage
    job is skipped exactly when a matrix is empty (its test job fails for
    want of an entry) or one of the test jobs fails; when it runs, it
    combines one file for each coverage name of the test jobs and no other
    file. *)
Theorem coverage_skipped_iff_a_test_fails (t : tree) (uuid : bytes) :
  (forall p, p ∈ find_tests t -> portable p = true) ->
  let o := prep_testbed t uuid in
  (coverage_run run_tests o = None
   <-> core_matrix o = [] \/ cuda_matrix o = []
       \/ exists j, j ∈ test_jobs o /\ test_result run_tests j = None)
  /\ forall files,
       coverage_run run_tests o = Some files ->
       dom files = list_to_set (map coverage_name (test_jobs o)).
Proof.
  intros _ o. unfold coverage_run, get_coverage, matrix_fails.
  destruct (decide (core_matrix o = [])) as [Hcore|Hcore].
  { rewrite (bool_decide_eq_true_2 _ Hcore). simpl. split; [|done].
    split; [by left|done]. }
  destruct (decide (cuda_matrix o = [])) as [Hcuda|Hcuda].
  { rewrite (bool_decide_eq_true_2 _ Hcuda), orb_true_r. split; [|done].
    split; [by right; left|done]. }
  rewrite (bool_decide_eq_false_2 _ Hcore), (bool_decide_eq_false_2 _ Hcuda).
  cbn [orb].
  pose proof (run_matrix_all_succeed (test_jobs o) ∅) as Hall.
  pose proof (run_matrix_dom (test_jobs o) ∅) as Hdom.
  pose proof (combined_run_matrix run_tests (test_jobs o)) as Hcomb.
  destruct (run_matrix run_tests ∅ (test_jobs o)) as [cs a]. simpl in *.
  destruct (forallb _ cs) eqn:Hcs.
  - split.
    + split; [done|]. intros [H|[H|(j & Hj & Hnone)]]; [done..|].
      destruct (proj1 Hall eq_refl j Hj) as [d Hd]. congruence.
    + intros files [= <-]. rewrite Hcomb, Hdom by (by apply Hall).
      by rewrite dom_empty_L, (left_id_L ∅ (∪)).
  - split; [|done]. split; [|done]. intros _. right. right.
    destruct (decide (Exists (fun j => test_result run_tests j = None)
                        (test_jobs o))) as [Hex|Hno].
    + apply Exists_exists in Hex as (j & Hj & Hnone). by exists j.
    + exfalso. assert (false = true) as H; [|discriminate H].
      apply Hall. intros j Hj.
      destruct (test_result run_tests j) as [d|] eqn:Hd; [by exists d|].
      exfalso. apply Hno, Exists_exists. by exists j.
Qed.

End Coverage.

Lemma coverage_skipped_iff_a_test_fails_witness :
  coverage_run (fun _ _ => @None unit) (prep_testbed sample_tree (B "1f0e"))
  = None.
Proof.
  apply (coverage_skipped_iff_a_test_fails (fun _ _ => @None unit)
           sample_tree (B "1f0e")).
  - apply forallb_elem_of. vm_compute. reflexivity.
  - right. right.
    exists (mkMatrixJob Core (B "tests/unit")). split; [|reflexivity].
    vm_compute. right. left.
Defined.

End TestbedFacts.

(** * More of the notebooks

    The code cells run from top to bottom in a fresh kernel, stopping at
    the first exception, and the snippets that the notebooks and the
    walkthrough show without running them. *)

Module Kernel.
Import Notebook.

(** ** Snippets shown in markdown cells *)

(** [import finetuner], [finetuner.login()],
    [run = finetuner.get_run(run.name)] *)
Definition reconnect : M unit :=
  cell
    [ import "finetuner";
      expr (call Login (attr (name "finetuner") "login") []);
      assign "run"
        (call (Other "get_run") (attr (name "finetuner") "get_run")
           [attr (name "run") "name"]) ].

(** [target = copy.deepcopy(source)] *)
Definition deepcopy (target source : string) : M unit :=
  assign target
    (call (Other "deepcopy") (attr (name "copy") "deepcopy") [name source]).

(** [target = build_model(name=backbone, select_model=...)] *)
Definition build_model (target backbone select_model : string) : M unit :=
  assign target
    (call BuildModel (name "build_model")
       [kw "name" (str backbone); kw "select_model" (str select_model)]).

(** [target = finetuner.build_model(backbone)] *)
Definition finetuner_build_model (target backbone : string) : M unit :=
  assign target
    (call BuildModel (attr (name "finetuner") "build_model") [str backbone]).

(** [queries.match(index)] *)
Definition match_with (queries index : string) : M unit :=
  expr (call Match (attr (name queries) "match") [name index]).

(** [def f(...): ...] binds [f]. *)
Definition def (f : string) : M unit :=
  store f (VAttr (VModule "__main__") f).

(** The comparison snippet of the two CLIP notebooks, from
    [from finetuner import build_model] to the definition of
    [plot_matches]; what [plot_matches] shows is the subject of
    [Comparison]. *)
Definition comparison_setup (backbone text_encoder image_encoder : string)
    : list (M unit) :=
  [ from_import "finetuner" ["build_model"];
    deepcopy "pt_query" "query_data";
    deepcopy "pt_index" "index_data";
    deepcopy "ft_query" "query_data";
    deepcopy "ft_index" "index_data";
    build_model "zero_shot_text_encoder" backbone "clip-text";
    build_model "zero_shot_image_encoder" backbone "clip-vision";
    encode "zero_shot_text_encoder" "pt_query";
    encode "zero_shot_image_encoder" "pt_index";
    encode text_encoder "ft_query";
    encode image_encoder "ft_index";
    match_with "pt_query" "pt_index";
    match_with "ft_query" "ft_index";
    def "plot_matches" ].

(** In the multilingual CLIP notebook the snippet starts with the import
    of [build_model]. *)
Definition mclip_comparison : M unit :=
  cell (comparison_setup "xlm-roberta-base-ViT-B-32::laion5b_s13b_b90k"
          "mclip_text_encoder" "mclip_image_encoder").

(** In the CLIP notebook [import copy] comes first. *)
Definition clip_comparison : M unit :=
  cell (import "copy"
          :: comparison_setup "openai/clip-vit-base-patch32"
               "clip_text_encoder" "clip_image_encoder").

(** The comparison snippet of the ResNet notebook, up to its loop. *)
Definition resnet_comparison : M unit :=
  cell
    [ import "copy";
      from_import "io" ["BytesIO"];
      from_import "PIL" ["Image"];
      deepcopy "query_pt" "query_data";
      deepcopy "index_pt" "index_data";
      deepcopy "query_ft" "query_pt";
      deepcopy "index_ft" "index_pt";
      finetuner_build_model "model_pt" "resnet50";
      encode "model" "query_ft";
      encode "model" "index_ft";
      encode "model_pt" "query_pt";
      encode "model_pt" "index_pt";
      match_with "query_ft" "index_ft";
      match_with "query_pt" "index_pt";
      assign "num_samples" (int 10) ].

(** Its comparison snippet, up to the statement that reads [query_py]. *)
Definition bert_comparison_setup : list (M unit) :=
  [ import "copy";
    pull "query_pt" "quora_query_dev.da";
    pull "index_pt" "quora_index_dev.da";
    deepcopy "query_ft" "query_pt";
    deepcopy "index_ft" "index_pt";
    finetuner_build_model "model_pt" "bert-base-cased";
    encode "model" "query_ft";
    encode "model" "index_ft";
    encode "model_pt" "query_pt";
    encode "model_pt" "index_pt";
    match_with "query_ft" "index_ft";
    match_with "query_py" "index_pt" ].

(** The snippet, with [rest] for the statements after that one. *)
Definition bert_comparison (rest : M unit) : M unit :=
  cell (bert_comparison_setup ++ [rest]).

(** An f-string: its parts are evaluated from left to right. *)
Definition fstring (parts : list (M value)) : M value := tuple_ parts.

(** The first snippet of the walkthrough (docs/walkthrough/run-job.md). *)
Definition run_job_snippet : M unit :=
  cell
    [ import "finetuner";
      from_import "docarray" ["DocumentArray"];
      assign "train_data" (str "path/to/some/data.csv");
      assign "run"
        (call Fit (attr (name "finetuner") "fit")
           [kw "model" (str "efficientnet_b0");
            kw "train_data" (name "train_data")]);
      print (fstring [str "Run name: "; attr (name "run") "name"]);
      print (fstring [str "Run status: ";
                      call (Other "status") (attr (name "run") "status") []])
    ].

(** The reconnect snippet of the text-to-text notebook, which names the
    run by a literal. *)
Definition bert_reconnect : M unit :=
  cell
    [ import "finetuner";
      expr (call Login (attr (name "finetuner") "login") []);
      assign "run"
        (call (Other "get_run") (attr (name "finetuner") "get_run")
           [str "finetune-quora-dataset-bert-base-cased"]);
      print (fstring [str "Run status: ";
                      call (Other "status") (attr (name "run") "status") []])
    ].

(** ** Which names are bound *)

(** Every name of [L] is bound. *)
Definition bound (L : list string) (st : state) : Prop :=
  forall n, n ∈ L -> is_Some (globals st !! n).

(** The exceptions that are no fault of the cells: an external call that
    the world lets fail and, where [asserts] allows it, an assertion on a
    value that the world counts as false. *)
Definition blamed (asserts : bool) (w : world) (e : exn) : Prop :=
  match e with
  | ExternalError k => succeeds w k = false
  | AssertionError => asserts = true /\ exists v, truth w v = false
  | NameError _ => False
  end.

(** [sound asserts L m L']: from a state that binds [L], [m] ends with
    [L'] bound, or raises an exception that is no fault of its own. *)
Definition sound {A : Type} (asserts : bool) (L : list string) (m : M A)
    (L' : list string) : Prop :=
  forall w st, bound L st ->
    match m w st with
    | (Ok _, st') => bound L' st'
    | (Raised e, _) => blamed asserts w e
    end.

Section Sound.
Variable asserts : bool.

Lemma sound_ret {A : Type} (L : list string) (a : A) :
  sound asserts L (ret a) L.
Proof. by intros w st HL. Qed.

Lemma sound_bind {A B : Type} (L L1 L2 : list string) (m : M A)
    (f : A -> M B) :
  sound asserts L m L1 -> (forall a, sound asserts L1 (f a) L2) ->
  sound asserts L (bind m f) L2.
Proof.
  intros Hm Hf w st HL. unfold bind. specialize (Hm w st HL).
  destruct (m w st) as [[a|e] st']; [by apply Hf|done].
Qed.

Lemma sound_andthen {A B : Type} (L L1 L2 : list string) (m : M A)
    (k : M B) :
  sound asserts L m L1 -> sound asserts L1 k L2 ->
  sound asserts L (andthen m k) L2.
Proof. intros Hm Hk. eapply sound_bind; [done|]. by intros _. Qed.

Lemma sound_name (L : list string) (n : string) :
  n ∈ L -> sound asserts L (name n) L.
Proof.
  intros Hn w st HL. unfold name. by destruct (HL n Hn) as [v ->].
Qed.

Lemma sound_store (L : list string) (n : string) (v : value) :
  sound asserts L (store n v) (n :: L).
Proof.
  intros w st HL n' Hn'. simpl.
  destruct (decide (n = n')) as [<-|Hne];
    [by rewrite lookup_insert_eq|].
  rewrite lookup_insert_ne by done. apply HL.
  by apply elem_of_cons in Hn' as [?|?]; [congruence|].
Qed.

Lemma sound_external (L : list string) (a : api) (arguments : list value) :
  sound asserts L (external a arguments) L.
Proof.
  intros w st HL. unfold external.
  by destruct (succeeds w (length (calls st))) eqn:Hk.
Qed.

Lemma sound_shell (L : list string) (command : string) :
  sound asserts L (shell command) L.
Proof. by intros w st HL. Qed.

Lemma sound_print (L : list string) (m : M value) :
  sound asserts L m L -> sound asserts L (print m) L.
Proof. intros Hm. eapply sound_bind; [done|]. by intros v w st HL. Qed.

Lemma sound_iterate (L : list string) (v : value) :
  sound asserts L (iterate v) L.
Proof. by intros w st HL. Qed.

Lemma sound_assert (L : list string) (m : M value) :
  asserts = true -> sound asserts L m L -> sound asserts L (assert_ m) L.
Proof.
  intros Ha Hm. eapply sound_bind; [done|]. intros v w st HL.
  destruct (truth w v) eqn:Hv; [done|]. split; [done|by exists v].
Qed.

Lemma sound_evaluate (L : list string) (ms : list (M value)) :
  Forall (fun m => sound asserts L m L) ms -> sound asserts L (evaluate ms) L.
Proof.
  induction 1 as [|m ms Hm Hms IH]; simpl; [apply sound_ret|].
  eapply sound_bind; [done|]. intros v. eapply sound_bind; [done|].
  intros vs. apply sound_ret.
Qed.

Lemma sound_lit (L : list string) (v : value) : sound asserts L (lit v) L.
Proof. apply sound_ret. Qed.

Lemma sound_str (L : list string) (s : string) : sound asserts L (str s) L.
Proof. apply sound_ret. Qed.

Lemma sound_int (L : list string) (n : Z) : sound asserts L (int n) L.
Proof. apply sound_ret. Qed.

Lemma sound_attr (L : list string) (m : M value) (a : string) :
  sound asserts L m L -> sound asserts L (attr m a) L.
Proof. intros Hm. eapply sound_bind; [done|]. intros v. apply sound_ret. Qed.

Lemma sound_index (L : list string) (m : M value) (i : Z) :
  sound asserts L m L -> sound asserts L (index m i) L.
Proof. intros Hm. eapply sound_bind; [done|]. intros v. apply sound_ret. Qed.

Lemma sound_kw (L : list string) (n : string) (m : M value) :
  sound asserts L m L -> sound asserts L (kw n m) L.
Proof. intros Hm. eapply sound_bind; [done|]. intros v. apply sound_ret. Qed.

Lemma sound_list (L : list string) (ms : list (M value)) :
  Forall (fun m => sound asserts L m L) ms -> sound asserts L (list_ ms) L.
Proof.
  intros Hms. eapply sound_bind; [by apply sound_evaluate|].
  intros vs. apply sound_ret.
Qed.

Lemma sound_tuple (L : list string) (ms : list (M value)) :
  Forall (fun m => sound asserts L m L) ms -> sound asserts L (tuple_ ms) L.
Proof.
  intros Hms. eapply sound_bind; [by apply sound_evaluate|].
  intros vs. apply sound_ret.
Qed.

Lemma sound_equals (L : list string) (m1 m2 : M value) :
  sound asserts L m1 L -> sound asserts L m2 L ->
  sound asserts L (equals m1 m2) L.
Proof.
  intros H1 H2. eapply sound_bind; [done|]. intros v1.
  eapply sound_bind; [done|]. intros v2. apply sound_ret.
Qed.

Lemma sound_call (L : list string) (a : api) (f : M value)
    (ms : list (M value)) :
  sound asserts L f L -> Forall (fun m => sound asserts L m L) ms ->
  sound asserts L (call a f ms) L.
Proof.
  intros Hf Hms. eapply sound_bind; [done|]. intros fv.
  eapply sound_bind; [by apply sound_evaluate|]. intros vs.
  apply sound_external.
Qed.

Lemma sound_expr (L : list string) (m : M value) :
  sound asserts L m L -> sound asserts L (expr m) L.
Proof. intros Hm. eapply sound_andthen; [done|apply sound_ret]. Qed.

Lemma sound_assign (L : list string) (n : string) (m : M value) :
  sound asserts L m L -> sound asserts L (assign n m) (n :: L).
Proof. intros Hm. eapply sound_bind; [done|]. intros v. apply sound_store. Qed.

Lemma sound_import (L : list string) (module : string) :
  sound asserts L (import module) (module :: L).
Proof.
  eapply sound_andthen; [apply sound_external|apply sound_store].
Qed.

Lemma sound_store_from (module : string) (names : list string) :
  forall L, sound asserts L (store_from module names) (rev names ++ L).
Proof.
  induction names as [|n names IH]; intros L; simpl; [apply sound_ret|].
  eapply sound_andthen; [apply sound_store|].
  rewrite <- app_assoc. apply IH.
Qed.

Lemma sound_from_import (L : list string) (module : string)
    (names : list string) :
  sound asserts L (from_import module names) (rev names ++ L).
Proof.
  eapply sound_andthen; [apply sound_external|apply sound_store_from].
Qed.

Lemma bound_tail (L : list string) (n : string) (st : state) :
  bound (n :: L) st -> bound L st.
Proof. intros H n' Hn'. apply H. by right. Qed.

Lemma sound_for (L : list string) (target : string) (items : list value)
    (body : M unit) :
  sound asserts (target :: L) body (target :: L) ->
  sound asserts L (for_ target items body) L.
Proof.
  intros Hbody. induction items as [|x items IH]; simpl; [apply sound_ret|].
  eapply sound_andthen; [apply sound_store|].
  eapply sound_andthen; [exact Hbody|].
  intros w st HL. apply IH. by eapply bound_tail.
Qed.

Lemma sound_for_in (L : list string) (target : string) (m : M value)
    (body : M unit) :
  sound asserts L m L ->
  sound asserts (target :: L) body (target :: L) ->
  sound asserts L (for_in target m body) L.
Proof.
  intros Hm Hbody. eapply sound_bind; [done|]. intros v.
  eapply sound_bind; [apply sound_iterate|]. intros items.
  by apply sound_for.
Qed.

(** From the fresh kernel. *)
Lemma sound_initial {A : Type} (m : M A) (L : list string) (w : world) :
  sound asserts [] m L ->
  match (m w initial).1 with
  | Ok _ => True
  | Raised e => blamed asserts w e
  end.
Proof.
  intros Hm. specialize (Hm w initial).
  destruct (m w initial) as [[a|e] st']; [done|]. apply Hm.
  intros n Hn. by apply elem_of_nil in Hn.
Qed.

End Sound.

(** Proves [sound asserts L m ?L'] for cells written with the
    combinators, finding the names bound at the end. *)
Ltac prove_sound :=
  unfold login_cell, pull, summary, monitor_cell, save_cell, get_model,
    encode, evaluation_callback, clip_inference_cell, match_, true_,
    fstring, clip_comparison, resnet_comparison, comparison_setup, deepcopy,
    build_model, finetuner_build_model, match_with, def;
  cbn [run_all cell];
  repeat first
    [ apply sound_import
    | apply sound_from_import
    | eapply sound_andthen
    | apply sound_ret
    | apply sound_store
    | apply sound_external
    | apply sound_assign
    | apply sound_expr
    | apply sound_call
    | apply sound_for_in
    | apply sound_print
    | apply sound_assert
    | apply sound_shell
    | apply sound_attr
    | apply sound_index
    | apply sound_kw
    | apply sound_list
    | apply sound_tuple
    | apply sound_equals
    | apply sound_name
    | apply sound_str
    | apply sound_int
    | apply sound_lit
    | match goal with |- Forall _ _ => constructor end
    | match goal with
      | |- _ ∈ _ => apply list_elem_of_In; vm_compute; tauto
      end
    | reflexivity ].

Lemma sound_mclip : exists L, sound false [] (run_all mclip) L.
Proof. eexists. unfold mclip. prove_sound. Qed.

Lemma sound_clip : exists L, sound false [] (run_all clip) L.
Proof. eexists. unfold clip. prove_sound. Qed.

Lemma sound_resnet : exists L, sound true [] (run_all resnet) L.
Proof. eexists. unfold resnet. prove_sound. Qed.

Lemma sound_bert : exists L, sound true [] (run_all bert) L.
Proof. eexists. unfold bert. prove_sound. Qed.

Lemma sound_run_job_snippet : exists L, sound false [] run_job_snippet L.
Proof. eexists. unfold run_job_snippet. prove_sound. Qed.

Lemma sound_bert_reconnect : exists L, sound false [] bert_reconnect L.
Proof. eexists. unfold bert_reconnect. prove_sound. Qed.

Lemma sound_clip_comparison :
  exists L, sound false [] (andthen (run_all clip) clip_comparison) L.
Proof. eexists. unfold clip. prove_sound. Qed.

Lemma sound_resnet_comparison :
  exists L, sound true [] (andthen (run_all resnet) resnet_comparison) L.
Proof. eexists. unfold resnet. prove_sound. Qed.

Lemma blamed_false (w : world) (e : exn) :
  blamed false w e -> exists k, e = ExternalError k /\ succeeds w k = false.
Proof.
  destruct e as [n| |k]; simpl; [done|by intros [? _]|]. by exists k.
Qed.

Lemma blamed_true (w : world) (e : exn) :
  blamed true w e ->
  (exists k, e = ExternalError k /\ succeeds w k = false)
  \/ (e = AssertionError /\ exists v, truth w v = false).
Proof.
  destruct e as [n| |k]; simpl; [done|intros [_ ?]; by right|].
  left. by exists k.
Qed.

Lemma raised_blamed {A : Type} (asserts : bool) (m : M A) (L : list string)
    (w : world) (e : exn) :
  sound asserts [] m L -> (m w initial).1 = Raised e -> blamed asserts w e.
Proof.
  intros Hm He. pose proof (sound_initial asserts m L w Hm) as H.
  by rewrite He in H.
Qed.

Lemma completes {A : Type} (asserts : bool) (m : M A) (L : list string)
    (w : world) :
  sound asserts [] m L ->
  (forall k, succeeds w k = true) ->
  (asserts = true -> forall v, truth w v = true) ->
  exists a, (m w initial).1 = Ok a.
Proof.
  intros Hm Hcalls Htruth. pose proof (sound_initial asserts m L w Hm) as H.
  destruct (m w initial).1 as [a|[n| |k]]; [by exists a|done| |].
  - destruct H as [Ha [v Hv]]. by rewrite (Htruth Ha) in Hv.
  - simpl in H. rewrite Hcalls in H. done.
Qed.

(** X16: run from top to bottom in a fresh kernel, the code cells of the
    two CLIP notebooks raise nothing but the error of an external call that
    failed, and those of the ResNet and text-to-text notebooks nothing but
    that or the assertion of their inference cell on a value that is false:
    no name is read before it is bound.  So when every call returns the
    CLIP notebooks run to the end, and so do the other two when the
    asserted comparison holds. *)
Theorem run_all_raises_only_failed_calls (w : world) :
  (forall nb e,
     In nb [mclip; clip] -> (run_all nb w initial).1 = Raised e ->
     exists k, e = ExternalError k /\ succeeds w k = false)
  /\ (forall nb e,
        In nb [resnet; bert] -> (run_all nb w initial).1 = Raised e ->
        (exists k, e = ExternalError k /\ succeeds w k = false)
        \/ (e = AssertionError /\ exists v, truth w v = false))
  /\ ((forall k, succeeds w k = true) ->
      (run_all mclip w initial).1 = Ok tt
      /\ (run_all clip w initial).1 = Ok tt
      /\ ((forall v, truth w v = true) ->
          (run_all resnet w initial).1 = Ok tt
          /\ (run_all bert w initial).1 = Ok tt)).
Proof.
  destruct sound_mclip as [Lm Hm], sound_clip as [Lc Hc],
    sound_resnet as [Lr Hr], sound_bert as [Lb Hb].
  split; [|split].
  - intros nb e [<-|[<-|[]]] He; apply blamed_false.
    + exact (raised_blamed false _ Lm w e Hm He).
    + exact (raised_blamed false _ Lc w e Hc He).
  - intros nb e [<-|[<-|[]]] He; apply blamed_true.
    + exact (raised_blamed true _ Lr w e Hr He).
    + exact (raised_blamed true _ Lb w e Hb He).
  - intros Hcalls.
    destruct (completes false _ Lm w Hm Hcalls) as [[] ->]; [done|].
    destruct (completes false _ Lc w Hc Hcalls) as [[] ->]; [done|].
    split; [done|]. split; [done|]. intros Htruth.
    destruct (completes true _ Lr w Hr Hcalls) as [[] ->]; [done|].
    by destruct (completes true _ Lb w Hb Hcalls) as [[] ->].
Qed.

(** X17: the first snippet of the walkthrough and the reconnect snippet
    of the text-to-text notebook are self-contained: in a fresh kernel they
    read no name that they have not bound, so they raise nothing but the
    error of a call that failed, and run to the end when every call
    returns. *)
Theorem run_job_snippet_self_contained (w : world) :
  (forall snippet e,
     In snippet [run_job_snippet; bert_reconnect] ->
     (snippet w initial).1 = Raised e ->
     exists k, e = ExternalError k /\ succeeds w k = false)
  /\ ((forall k, succeeds w k = true) ->
      (run_job_snippet w initial).1 = Ok tt
      /\ (bert_reconnect w initial).1 = Ok tt).
Proof.
  destruct sound_run_job_snippet as [L HL], sound_bert_reconnect as [L' HL'].
  split.
  - intros snippet e [<-|[<-|[]]] He; apply blamed_false.
    + exact (raised_blamed false _ L w e HL He).
    + exact (raised_blamed false _ L' w e HL' He).
  - intros Hcalls.
    destruct (completes false _ L w HL Hcalls) as [[] ->]; [done|].
    by destruct (completes false _ L' w HL' Hcalls) as [[] ->].
Qed.

(** ** The reconnect snippet *)

Lemma reconnect_initial (w : world) :
  reconnect w initial
  = if succeeds w 0%nat then
      if succeeds w 1%nat then
        (Raised (NameError "run"),
         mkState (<["finetuner" := VModule "finetuner"]> ∅)
           [Other "import"; Login] [])
      else
        (Raised (ExternalError 1),
         mkState (<["finetuner" := VModule "finetuner"]> ∅)
           [Other "import"; Login] [])
    else (Raised (ExternalError 0), mkState ∅ [Other "import"] []).
Proof.
  cbv [reconnect cell andthen import expr assign call attr name bind ret
       external store evaluate initial].
  cbn [globals calls stdout length app].
  destruct (succeeds w 0%nat); [|reflexivity].
  cbn [globals calls stdout length app]. rewrite lookup_insert_eq.
  cbn [globals calls stdout length app].
  destruct (succeeds w 1%nat); [|reflexivity].
  cbn [globals calls stdout length app].
  rewrite lookup_insert_eq. cbn [globals calls stdout length app].
  rewrite lookup_insert_ne by discriminate. rewrite lookup_empty.
  reflexivity.
Qed.

Lemma sound_reconnect : exists L, sound false ["run"] reconnect L.
Proof. eexists. unfold reconnect. prove_sound. Qed.

(** X18: in a fresh kernel, which is where one reconnects, the snippet of
    the notebooks never gets to [get_run]: its argument [run.name] reads the
    very name that the statement is about to bind.  It raises, [run] stays
    unbound, and when the import and the login succeed what it raises is
    the NameError for [run].  In a kernel that binds [run] it raises
    nothing but the error of a call that failed. *)
Theorem reconnect_needs_run (w : world) :
  (exists e,
     (reconnect w initial).1 = Raised e
     /\ (succeeds w 0%nat = true -> succeeds w 1%nat = true ->
         e = NameError "run"))
  /\ (Other "get_run" ∉ calls (reconnect w initial).2)
  /\ globals (reconnect w initial).2 !! "run" = None
  /\ forall st e,
       is_Some (globals st !! "run") ->
       (reconnect w st).1 = Raised e ->
       exists k, e = ExternalError k /\ succeeds w k = false.
Proof.
  assert (Hnot : forall l : list api,
            l = [Other "import"] \/ l = [Other "import"; Login] ->
            Other "get_run" ∉ l).
  { intros l [-> | ->] Hin;
      repeat (apply elem_of_cons in Hin as [Hin|Hin]; [discriminate|]);
      by apply elem_of_nil in Hin. }
  rewrite reconnect_initial.
  split; [|split; [|split]].
  - destruct (succeeds w 0%nat), (succeeds w 1%nat); eexists;
      (split; [reflexivity|]); intros; congruence.
  - destruct (succeeds w 0%nat), (succeeds w 1%nat); apply Hnot; auto.
  - by destruct (succeeds w 0%nat), (succeeds w 1%nat).
  - intros st e Hrun He. apply blamed_false.
    destruct sound_reconnect as [L Hs]. specialize (Hs w st).
    destruct (reconnect w st) as [[a|e'] st']; [done|].
    simpl in He. injection He as ->. apply Hs.
    intros n ->%list_elem_of_singleton. exact Hrun.
Qed.

(** ** The comparison snippet of the multilingual CLIP notebook *)

(** The names that the code cells of the notebook can bind. *)
Definition mclip_names : list string :=
  [ "finetuner"; "DocumentArray"; "Document"; "train_data"; "eval_data";
    "query_data"; "index_data"; "EvaluationCallback"; "WandBLogger"; "run";
    "entry"; "artifact"; "text_da"; "image_da"; "mclip_text_encoder";
    "mclip_image_encoder" ].

Lemma mclip_safe : Forall (safe (only mclip_names) any_exn) mclip.
Proof.
  unfold mclip. repeat (apply List.Forall_cons; [prove_safe|]). constructor.
Qed.

Lemma safe_run_all (P : state -> Prop) (E : exn -> bool)
    (cells : list (M unit)) :
  Forall (safe P E) cells -> safe P E (run_all cells).
Proof.
  induction 1 as [|c cells Hc Hcells IH]; simpl;
    [apply safe_ret|by apply safe_andthen].
Qed.

Lemma mclip_comparison_unbound (w : world) (st : state) :
  globals st !! "copy" = None ->
  mclip_comparison w st
  = if succeeds w (length (calls st)) then
      (Raised (NameError "copy"),
       mkState
         (<["build_model" := VAttr (VModule "finetuner") "build_model"]>
            (globals st))
         (calls st ++ [Other "import"]) (stdout st))
    else
      (Raised (ExternalError (length (calls st))),
       mkState (globals st) (calls st ++ [Other "import"]) (stdout st)).
Proof.
  intros Hcopy.
  cbv [mclip_comparison comparison_setup cell andthen from_import store_from
       deepcopy assign call attr name bind ret external store].
  cbn [globals calls stdout].
  destruct (succeeds w (length (calls st))); [|reflexivity].
  cbn [globals calls stdout].
  rewrite lookup_insert_ne by discriminate. by rewrite Hcopy.
Qed.

(** X19: however the code cells of the multilingual CLIP notebook were run
    before, one by one or all at once, its comparison snippet does not get
    past its second line: no cell imports [copy], so [copy.deepcopy] raises
    the NameError for [copy] as soon as the import of [build_model] has
    succeeded, and the import is the only call that the snippet makes. *)
Theorem mclip_comparison_needs_copy (w : world) (st : state) :
  st = run_cells w mclip initial \/ st = (run_all mclip w initial).2 ->
  globals st !! "copy" = None
  /\ (exists e,
        (mclip_comparison w st).1 = Raised e
        /\ (succeeds w (length (calls st)) = true -> e = NameError "copy"))
  /\ calls (mclip_comparison w st).2 = calls st ++ [Other "import"].
Proof.
  intros Hst.
  assert (Honly : only mclip_names st).
  { destruct Hst as [-> | ->].
    - apply (safe_run_cells (only mclip_names) any_exn);
        [apply mclip_safe|apply only_initial].
    - apply (safe_run_all (only mclip_names) any_exn mclip mclip_safe),
        only_initial. }
  assert (Hcopy : globals st !! "copy" = None).
  { apply (only_unbound mclip_names); [|done]. intros Hin.
    repeat (apply elem_of_cons in Hin as [Hin|Hin]; [discriminate|]).
    by apply elem_of_nil in Hin. }
  split; [done|]. rewrite (mclip_comparison_unbound w st Hcopy).
  destruct (succeeds w (length (calls st))); simpl.
  - split; [|done]. by eexists.
  - split; [|done]. eexists. split; [done|]. discriminate.
Qed.

Lemma mclip_comparison_needs_copy_witness :
  globals (run_cells (obliging (fun _ => 1%nat) (fun _ => true)) mclip
             initial) !! "copy" = None.
Proof.
  apply (mclip_comparison_needs_copy
           (obliging (fun _ => 1%nat) (fun _ => true))
           (run_cells (obliging (fun _ => 1%nat) (fun _ => true)) mclip
              initial)).
  left. reflexivity.
Defined.

(** ** The PointNet++ notebook, run from top to bottom *)

Lemma pointnet_before_never_assert :
  Forall (safe (only pointnet_names) not_assertion) (take 7 pointnet).
Proof.
  unfold pointnet. simpl take.
  repeat (apply List.Forall_cons; [prove_safe|]). constructor.
Qed.

Lemma fails_run_all (P P' : state -> Prop) (E : exn -> bool)
    (before after : list (M unit)) (c : M unit) :
  Forall (safe P E) before ->
  (forall st, P st -> P' st) ->
  fails P' E c ->
  fails P E (run_all (before ++ c :: after)).
Proof.
  intros Hbefore HP Hc w st Hst. rewrite run_all_app.
  destruct (safe_run_all P E before Hbefore w st Hst) as [Hst' He].
  destruct (run_all before w st) as [[[]|e] st'].
  - simpl in *. unfold andthen, bind.
    destruct (Hc w st' (HP st' Hst')) as (e & Hraised & HE).
    destruct (c w st') as [[[]|e'] st'']; [done|].
    exists e'. simpl in Hraised. by injection Hraised as ->.
  - exists e. split; [done|]. by apply He.
Qed.

(** X20: run from top to bottom in a fresh kernel, the PointNet++ notebook
    never gets past its inference cell, whatever the external calls do: the
    run ends in an exception, and not in the assertion's.  When every call
    returns, the exception is the NameError for [query], and the run has
    gone through login, pull, fit, stream_logs, save_artifact, get_model and
    encode, and never reaches [match]. *)
Theorem pointnet_run_all_stops (w : world) :
  (exists e,
     (run_all pointnet w initial).1 = Raised e /\ e <> AssertionError)
  /\ forall item_count truth,
       w = obliging item_count truth ->
       (run_all pointnet w initial).1 = Raised (NameError "query")
       /\ collapse
            (List.filter is_stage (calls (run_all pointnet w initial).2))
          = common_stages.
Proof.
  split.
  - change pointnet
      with (take 7 pointnet ++ pointnet_inference_cell :: drop 8 pointnet).
    destruct (fails_run_all (only pointnet_names)
                (only ("model" :: pointnet_names)) not_assertion
                (take 7 pointnet) (drop 8 pointnet) pointnet_inference_cell
                pointnet_before_never_assert) with (w := w) (st := initial)
      as (e & He & HE).
    + intros st Hst. eapply only_weaken; [|exact Hst]. intros n Hn. by right.
    + apply pointnet_inference_fails.
    + apply only_initial.
    + exists e. split; [done|]. by intros ->.
  - intros item_count truth ->.
    change pointnet with (take 5 pointnet ++ monitor_cell :: drop 6 pointnet).
    rewrite run_all_monitor;
      [|vm_compute; reflexivity|vm_compute; eexists; reflexivity].
    rewrite monitor_cell_obliging by (vm_compute; eexists; reflexivity).
    match goal with
    | |- context [ ?f (length ?c) ] => destruct (f (length c))
    end; vm_compute; split; reflexivity.
Qed.

(** ** The comparison snippets of the CLIP and ResNet notebooks *)

(** X21: the comparison snippets of the CLIP and ResNet notebooks bind what
    they read: run after the code cells of their notebook, from a fresh
    kernel, the CLIP snippet up to its definition of [plot_matches] and the
    ResNet snippet up to its loop raise nothing but the error of a call that
    failed (or, before the ResNet snippet, the assertion of the inference
    cell), and run to the end when every call returns. *)
Theorem comparison_snippets_bind_their_names (w : world) :
  (forall e,
     (andthen (run_all clip) clip_comparison w initial).1 = Raised e ->
     exists k, e = ExternalError k /\ succeeds w k = false)
  /\ (forall e,
        (andthen (run_all resnet) resnet_comparison w initial).1 = Raised e ->
        (exists k, e = ExternalError k /\ succeeds w k = false)
        \/ (e = AssertionError /\ exists v, truth w v = false))
  /\ ((forall k, succeeds w k = true) ->
      (andthen (run_all clip) clip_comparison w initial).1 = Ok tt
      /\ ((forall v, truth w v = true) ->
          (andthen (run_all resnet) resnet_comparison w initial).1 = Ok tt)).
Proof.
  destruct sound_clip_comparison as [Lc Hc],
    sound_resnet_comparison as [Lr Hr].
  split; [|split].
  - intros e He. apply blamed_false.
    exact (raised_blamed false _ Lc w e Hc He).
  - intros e He. apply blamed_true.
    exact (raised_blamed true _ Lr w e Hr He).
  - intros Hcalls.
    destruct (completes false _ Lc w Hc Hcalls) as [[] ->]; [done|].
    split; [done|]. intros Htruth.
    by destruct (completes true _ Lr w Hr Hcalls) as [[] ->].
Qed.

(** ** The text-to-text notebook *)

(** X22: when every external call returns, the code cells of the
    text-to-text notebook go through login, pull, fit, stream_logs,
    save_artifact, get_model and encode, and end with match. *)
Theorem text_to_text_stages (item_count : nat -> nat)
    (truth : value -> bool) :
  stages (obliging item_count truth) bert = common_stages ++ [Match].
Proof. run_notebook bert 4%nat. Qed.

(** The names that the code cells of the notebook and the statements of
    its comparison snippet can bind. *)
Definition bert_names : list string :=
  [ "finetuner"; "DocumentArray"; "Document"; "train_data"; "query_data";
    "index_data"; "EvaluationCallback"; "run"; "entry"; "artifact"; "model";
    "query"; "copy"; "query_pt"; "index_pt"; "query_ft"; "index_ft";
    "model_pt" ].

Lemma bert_safe : Forall (safe (only bert_names) any_exn) bert.
Proof.
  unfold bert. repeat (apply List.Forall_cons; [prove_safe|]). constructor.
Qed.

Lemma bert_comparison_setup_fails :
  fails (only bert_names) not_assertion (cell bert_comparison_setup).
Proof.
  unfold bert_comparison_setup. cbn [cell]. unfold andthen.
  do 11 (apply fails_bind_then;
         [unfold deepcopy, finetuner_build_model, match_with; prove_safe
         |intros _]).
  unfold match_with, expr, andthen, call, attr.
  do 3 apply fails_bind_first.
  apply fails_name; [reflexivity|]. intros st Hst.
  apply (only_unbound bert_names); [|done]. intros Hin.
  repeat (apply elem_of_cons in Hin as [Hin|Hin]; [discriminate|]).
  by apply elem_of_nil in Hin.
Qed.

(** What follows a statement that raises is not run. *)
Lemma cell_app_raised (statements : list (M unit)) (rest : M unit)
    (w : world) (st : state) (e : exn) :
  (cell statements w st).1 = Raised e ->
  cell (statements ++ [rest]) w st = cell statements w st.
Proof.
  revert st. induction statements as [|s statements IH]; intros st He.
  - discriminate He.
  - destruct statements as [|s' statements].
    + simpl in *. unfold andthen, bind.
      destruct (s w st) as [[[]|e'] st']; [discriminate He|done].
    + change (cell ((s :: s' :: statements) ++ [rest]))
        with (andthen s (cell ((s' :: statements) ++ [rest]))).
      change (cell (s :: s' :: statements))
        with (andthen s (cell (s' :: statements))) in *.
      unfold andthen, bind in *.
      destruct (s w st) as [[[]|e'] st']; [by apply IH|done].
Qed.

Lemma bert_comparison_obliging (item_count : nat -> nat)
    (truth : value -> bool) :
  (cell bert_comparison_setup (obliging item_count truth)
     (run_cells (obliging item_count truth) bert initial)).1
  = Raised (NameError "query_py").
Proof.
  change bert with (take 4 bert ++ monitor_cell :: drop 5 bert).
  rewrite run_cells_app, run_cells_cons.
  rewrite monitor_cell_obliging by (vm_compute; eexists; reflexivity).
  match goal with
  | |- context [ ?f (length ?c) ] => destruct (f (length c))
  end; vm_compute; reflexivity.
Qed.

(** X23: however the code cells of the text-to-text notebook were run
    before, one by one or all at once, its comparison snippet stops at
    [query_py.match(index_pt)] at the latest, whatever the external calls
    do: it raises, not an assertion's error, and the statements after that
    one, the display loop among them, are never run.  When every call
    returns, what it raises is the NameError for [query_py], a name that
    nothing binds. *)
Theorem text_to_text_comparison_stops (w : world) (st : state) :
  st = run_cells w bert initial \/ st = (run_all bert w initial).2 ->
  ("query_py" ∉ bert_names)
  /\ (exists e st',
        e <> AssertionError
        /\ forall rest, bert_comparison rest w st = (Raised e, st'))
  /\ forall item_count truth,
       w = obliging item_count truth -> st = run_cells w bert initial ->
       forall rest,
         (bert_comparison rest w st).1 = Raised (NameError "query_py").
Proof.
  intros Hst.
  assert (Honly : only bert_names st).
  { destruct Hst as [-> | ->].
    - apply (safe_run_cells (only bert_names) any_exn);
        [apply bert_safe|apply only_initial].
    - apply (safe_run_all (only bert_names) any_exn bert bert_safe),
        only_initial. }
  split; [|split].
  - intros Hin.
    repeat (apply elem_of_cons in Hin as [Hin|Hin]; [discriminate|]).
    by apply elem_of_nil in Hin.
  - destruct (bert_comparison_setup_fails w st Honly) as (e & He & HE).
    exists e, (cell bert_comparison_setup w st).2.
    split; [by intros ->|]. intros rest. unfold bert_comparison.
    rewrite (cell_app_raised _ rest w st e He).
    destruct (cell bert_comparison_setup w st) as [o st']. simpl in He.
    by subst.
  - intros item_count truth -> -> rest. unfold bert_comparison.
    pose proof (bert_comparison_obliging item_count truth) as He.
    by rewrite (cell_app_raised _ rest _ _ _ He).
Qed.

Lemma text_to_text_comparison_stops_witness :
  exists e st',
    e <> AssertionError
    /\ forall rest,
         bert_comparison rest (obliging (fun _ => 1%nat) (fun _ => true))
           (run_cells (obliging (fun _ => 1%nat) (fun _ => true)) bert
              initial)
         = (Raised e, st').
Proof.
  apply (text_to_text_comparison_stops
           (obliging (fun _ => 1%nat) (fun _ => true))
           (run_cells (obliging (fun _ => 1%nat) (fun _ => true)) bert
              initial)).
  left. reflexivity.
Defined.

End Kernel.
